(** * NCLEX-311 extraction pipeline: region detection, scoring,
    classification and image/topic association

  A shallow embedding of the Python sources

    - [scripts/enhanced_image_extraction.py]
      (classifier, associator, validation report),
    - [python/scripts/extract_images_comprehensive.py]
      (text mask and region detector),
    - [python/scripts/analyze_extracted_images.py]
      (image quality scorer and analysis report),
    - [python/scripts/extract_images_cli.py]
      (page arguments and file names of the command line),

  together with the properties their specification states and further
  properties of the same code.

  Conventions.
    - Python [int] is [Z]; Python [float] is the primitive IEEE-754
      binary64 type [float] of Rocq, whose operations round exactly as
      CPython's do.
    - Python [str] is [string]; a character is read as a code point
      below 256.
    - Python objects that are mutated through several references (the
      [ExtractedImage] objects) live in a store, the list handed to the
      associator; a reference is a position in that list. *)

From Stdlib Require Import ZArith List String Ascii Bool Lia Floats Sorted.
From Stdlib Require Import Permutation.
Import ListNotations.

(** A decimal literal such as [0.3] denotes the nearest binary64 value,
    in Rocq as in Python. *)
Set Warnings "-inexact-float".

Local Open Scope string_scope.
Local Open Scope Z_scope.

(** * Python built-ins used by the sources *)

Module Py.

(** [str.lower] on code points below 256: the ASCII capitals and the
    Latin-1 capitals (U+00C0..U+00DE without the multiplication sign)
    move up by 32, everything else is kept. *)
Definition lower_char (c : ascii) : ascii :=
  let n := nat_of_ascii c in
  if ((65 <=? n) && (n <=? 90)
      || (192 <=? n) && (n <=? 222) && negb (n =? 215))%nat
  then ascii_of_nat (n + 32) else c.

Fixpoint lower (s : string) : string :=
  match s with
  | EmptyString => EmptyString
  | String c s' => String (lower_char c) (lower s')
  end.

(** [needle in hay] for strings: substring test. *)
Fixpoint str_in (needle hay : string) : bool :=
  String.prefix needle hay
  || match hay with
     | EmptyString => false
     | String _ hay' => str_in needle hay'
     end.

(** [any(p(x) for x in l)] *)
Definition any {A} (p : A -> bool) (l : list A) : bool := existsb p l.

(** Truth value of an optional string ([None] and [''] are falsy). *)
Definition truthy_str (s : option string) : bool :=
  match s with
  | Some (String _ _) => true
  | _ => false
  end.

End Py.

(** * Data model ([enhanced_image_extraction.py], lines 53-84) *)

Module ExtractedImage.
Record t := mk {
  image_id : string;
  filename : string;
  base64_data : string;
  element_type : string;
  page_number : Z;
  bbox : option (list float);
  associated_topic_id : option string
}.

(** [image.associated_topic_id = tid] *)
Definition set_associated_topic_id (image : t) (tid : option string) : t :=
  mk (image_id image) (filename image) (base64_data image)
     (element_type image) (page_number image) (bbox image) tid.
End ExtractedImage.

Module QuestionBlock.
Record t := mk {
  question_type : string;
  content : string;
  options : list string;
  correct_answer : option string;
  rationale : option string;
  subject : option string;
  page_number : Z;
  confidence_score : float;
  (** references into the image store; [None] is Python's [None] *)
  images : option (list nat);
  topic_id : option string
}.

(** [topic.images = l] *)
Definition set_images (topic : t) (l : list nat) : t :=
  mk (question_type topic) (content topic) (options topic)
     (correct_answer topic) (rationale topic) (subject topic)
     (page_number topic) (confidence_score topic) (Some l) (topic_id topic).
End QuestionBlock.

(** * Image-Topic Associator ([ImageExtractor], lines 248-282) *)

Module ImageExtractor.

Definition visual_keywords : list string :=
  [ "image"; "picture"; "photograph"; "figure"; "shown";
    "observe"; "see"; "visual"; "appears"; "demonstrates";
    "lesion"; "rash"; "condition"; "skin"; "wound" ].

Definition _topic_mentions_visuals (content : string) : bool :=
  let content_lower := Py.lower content in
  Py.any (fun keyword => Py.str_in keyword content_lower) visual_keywords.

(** The inner loop [for image in images] for one topic.  [idx] is the
    position of the head of [images] in the store.  It returns the
    references appended to [topic_images] and the store after the
    assignments to [associated_topic_id].  (An object listed twice is
    visited twice and receives the same assignment both times, as two
    equal entries of the store do.) *)
Fixpoint scan_images (topic : QuestionBlock.t) (idx : nat)
         (images : list ExtractedImage.t)
  : list nat * list ExtractedImage.t :=
  match images with
  | [] => ([], [])
  | image :: rest =>
      let page_distance :=
        Z.abs (ExtractedImage.page_number image
               - QuestionBlock.page_number topic) in
      let '(topic_images, rest') := scan_images topic (S idx) rest in
      if page_distance =? 0 then
        (idx :: topic_images,
         ExtractedImage.set_associated_topic_id image
           (QuestionBlock.topic_id topic) :: rest')
      else if (page_distance =? 1)
              && _topic_mentions_visuals (QuestionBlock.content topic) then
        (idx :: topic_images,
         ExtractedImage.set_associated_topic_id image
           (QuestionBlock.topic_id topic) :: rest')
      else (topic_images, image :: rest')
  end.

(** The outer loop [for topic in topics]; the result pairs the returned
    topics with the image store as the call leaves it. *)
Fixpoint associate_images_with_topics
         (topics : list QuestionBlock.t) (images : list ExtractedImage.t)
  : list QuestionBlock.t * list ExtractedImage.t :=
  match topics with
  | [] => ([], images)
  | topic :: later =>
      let '(topic_images, images1) := scan_images topic 0 images in
      let '(later', images2) := associate_images_with_topics later images1 in
      (QuestionBlock.set_images topic topic_images :: later', images2)
  end.

End ImageExtractor.

(** * Exceptions, results and dictionaries *)

Module Exc.

(** A raised exception: its class and [str(e)]. *)
Record exn := mk { kind : string; msg : string }.

Inductive result (A : Type) : Type :=
| Ok (a : A)
| Raise (e : exn).
Arguments Ok {A} a.
Arguments Raise {A} e.

Definition bind {A B} (r : result A) (k : A -> result B) : result B :=
  match r with
  | Ok a => k a
  | Raise e => Raise e
  end.

Definition ZeroDivisionError : exn := mk "ZeroDivisionError" "division by zero".
Definition OverflowError (m : string) : exn := mk "OverflowError" m.

End Exc.

Notation "x <- c1 ;; c2" := (Exc.bind c1 (fun x => c2))
  (at level 61, c1 at next level, right associativity).

(** Python values of the dictionaries the scripts return: numbers,
    booleans and strings, and dictionaries of those.  A [dict] keeps its
    keys in insertion order. *)
Inductive atom :=
| AInt (n : Z)
| AFloat (f : float)
| ABool (b : bool)
| AStr (s : string).

Inductive pyval :=
| PAtom (a : atom)
| PDict (d : list (string * atom)).

Definition PInt (n : Z) : pyval := PAtom (AInt n).
Definition PFloat (f : float) : pyval := PAtom (AFloat f).
Definition PBool (b : bool) : pyval := PAtom (ABool b).
Definition PStr (s : string) : pyval := PAtom (AStr s).

Definition dict := list (string * pyval).

Module Dict.

(** [d.get(key)] *)
Fixpoint get {V} (d : list (string * V)) (key : string) : option V :=
  match d with
  | [] => None
  | (k, v) :: d' => if String.eqb k key then Some v else get d' key
  end.

(** [d.get(key, default)] *)
Definition get_default {V} (d : list (string * V)) (key : string) (default : V) : V :=
  match get d key with Some v => v | None => default end.

(** [key in d] *)
Definition mem {V} (d : list (string * V)) (key : string) : bool :=
  match get d key with Some _ => true | None => false end.

(** [d[key] = v]: an existing key keeps its place. *)
Fixpoint set {V} (d : list (string * V)) (key : string) (v : V)
  : list (string * V) :=
  match d with
  | [] => [(key, v)]
  | (k, v0) :: d' =>
      if String.eqb k key then (k, v) :: d' else (k, v0) :: set d' key v
  end.

End Dict.

(** * Python arithmetic on [int] and [float] *)

Module PyNum.

(** [float(n)] for an [int]: the nearest binary64 value, ties to even.
    CPython raises [OverflowError] where this gives an infinity. *)
Definition of_int (n : Z) : float :=
  SF2Prim (binary_normalize prec emax n 0 false).

(** [a / b] on two [int]s with [b <> 0]: the correctly rounded quotient,
    as [long_true_divide] computes it. *)
Definition int_truediv (a b : Z) : float :=
  match a with
  | Z0 => if b <? 0 then (-0)%float else 0%float
  | _ =>
      let '(q, e, l) :=
        SFdiv_core_binary prec emax (Z.abs a) 0 (Z.abs b) 0 in
      SF2Prim (binary_round_aux prec emax (xorb (a <? 0) (b <? 0)) q e l)
  end.

(** [a / b] on [int]s with the exceptions CPython raises. *)
Definition truediv (a b : Z) : Exc.result float :=
  if b =? 0 then Exc.Raise Exc.ZeroDivisionError
  else
    let q := int_truediv a b in
    if is_infinity q
    then Exc.Raise (Exc.OverflowError "integer division result too large for a float")
    else Exc.Ok q.

(** [x / n] for a [float] and an [int]. *)
Definition float_truediv_int (x : float) (n : Z) : Exc.result float :=
  if n =? 0 then Exc.Raise Exc.ZeroDivisionError
  else
    let d := of_int n in
    if is_infinity d
    then Exc.Raise (Exc.OverflowError "int too large to convert to float")
    else Exc.Ok (x / d)%float.

(** [sum(l)] of a non-empty list of floats, accumulated left to right
    from the integer start value 0.  (CPython 3.12 adds a compensation
    term; the two agree wherever no addition rounds.) *)
Definition sum (l : list float) : float :=
  fold_left (fun acc x => (acc + x)%float) l 0%float.

(** [sum(l) / len(l)]; for an empty list this is the integer division
    [0 / 0]. *)
Definition mean (l : list float) : Exc.result float :=
  match l with
  | [] => Exc.Raise Exc.ZeroDivisionError
  | _ => float_truediv_int (sum l) (Z.of_nat (List.length l))
  end.

(** [max(a, b)] and [min(a, b)] on floats keep the first argument unless
    the second compares strictly beyond it. *)
Definition max2 (a b : float) : float := if (a <? b)%float then b else a.
Definition min2 (a b : float) : float := if (b <? a)%float then b else a.

(** [max(l)] and [min(l)] over a non-empty list (head [x], tail [l]). *)
Definition max_list (x : float) (l : list float) : float := fold_left max2 l x.
Definition min_list (x : float) (l : list float) : float := fold_left min2 l x.

End PyNum.

(** * Image Quality Scorer ([analyze_extracted_images.py], lines 16-82) *)

Module Scorer.

(** What PIL delivers inside the [try] block: [img.size] and the
    per-band [ImageStat.Stat(img).var] and [.mean] of the image after
    its conversion to RGB. *)
Record PILImage := mk {
  size : Z * Z;
  stat_var : list float;
  stat_mean : list float
}.

(** The four statistics computed before scoring (lines 26-39). *)
Definition statistics (img : PILImage)
  : Exc.result (Z * float * float * float) :=
  let '(width, height) := size img in
  let area := width * height in
  variance <- PyNum.mean (stat_var img) ;;
  brightness <- PyNum.mean (stat_mean img) ;;
  aspect_ratio <- PyNum.truediv (Z.max width height) (Z.min width height) ;;
  Exc.Ok (area, variance, brightness, aspect_ratio).

(** The additive score (lines 42-68). *)
Definition score_of (area : Z) (variance brightness aspect_ratio : float) : Z :=
  let score := 0 in
  let score :=
    if area >? 50000 then score + 30
    else if area >? 20000 then score + 20
    else if area >? 10000 then score + 10
    else score in
  let score :=
    if (2000 <? variance)%float then score + 25
    else if (1000 <? variance)%float then score + 15
    else if (500 <? variance)%float then score + 10
    else score in
  let score :=
    if (aspect_ratio <? 3)%float then score + 15
    else if (aspect_ratio <? 5)%float then score + 10
    else score in
  let score :=
    if (50 <? brightness)%float && (brightness <? 200)%float
    then score + 10 else score in
  score.

(** The body of the [try] block. *)
Definition analyze (img : PILImage) : Exc.result dict :=
  let '(width, height) := size img in
  st <- statistics img ;;
  let '(area, variance, brightness, aspect_ratio) := st in
  let score := score_of area variance brightness aspect_ratio in
  Exc.Ok [ ("width", PInt width);
           ("height", PInt height);
           ("area", PInt area);
           ("variance", PFloat variance);
           ("brightness", PFloat brightness);
           ("aspect_ratio", PFloat aspect_ratio);
           ("score", PInt score);
           ("likely_image", PBool (score >? 40)) ].

(** [analyze_image_content]: [opened] is the outcome of [Image.open] and
    [convert], either the decoded image or the exception they raised.
    Every exception of the [try] block ends in the [except] branch. *)
Definition analyze_image_content (opened : Exc.result PILImage) : dict :=
  match (img <- opened ;; analyze img) with
  | Exc.Ok d => d
  | Exc.Raise e => [ ("error", PStr (Exc.msg e));
                     ("likely_image", PBool false) ]
  end.

End Scorer.

(** * Validation Aggregator ([enhanced_validation], lines 525-573) *)

Module Validation.

(** The accumulators of the loop over the topics. *)
Record acc := mk {
  type_counts : list (string * atom);
  confidence_scores : list float;
  valid_topics : Z;
  topics_with_images : Z;
  image_associations : Z
}.

Definition count_of (d : list (string * atom)) (key : string) : Z :=
  match Dict.get d key with
  | Some (AInt n) => n
  | _ => 0
  end.

(** One iteration of [for topic in topics] (lines 540-555). *)
Definition step (a : acc) (topic : QuestionBlock.t) : acc :=
  let q_type := QuestionBlock.question_type topic in
  let type_counts :=
    Dict.set (type_counts a) q_type (AInt (count_of (type_counts a) q_type + 1)) in
  let confidence_scores :=
    (confidence_scores a ++ [QuestionBlock.confidence_score topic])%list in
  let valid_topics :=
    if Py.truthy_str (QuestionBlock.subject topic)
       && (0.3 <? QuestionBlock.confidence_score topic)%float
    then valid_topics a + 1 else valid_topics a in
  match QuestionBlock.images topic with
  | Some ((_ :: _) as l) =>
      mk type_counts confidence_scores valid_topics
         (topics_with_images a + 1)
         (image_associations a + Z.of_nat (List.length l))
  | _ =>
      mk type_counts confidence_scores valid_topics
         (topics_with_images a) (image_associations a)
  end.

Definition enhanced_validation
           (topics : list QuestionBlock.t) (images : list ExtractedImage.t)
  : Exc.result dict :=
  let total_topics := Z.of_nat (List.length topics) in
  let total_images := Z.of_nat (List.length images) in
  if total_topics =? 0 then
    Exc.Ok [ ("error", PStr "No topics extracted") ]
  else
    let a := fold_left step topics (mk [] [] 0 0 0) in
    avg_confidence <-
      match confidence_scores a with
      | [] => Exc.Ok (AInt 0)
      | cs => r <- PyNum.float_truediv_int (PyNum.sum cs)
                     (Z.of_nat (List.length cs)) ;; Exc.Ok (AFloat r)
      end ;;
    success_rate <-
      (if total_topics >? 0
       then r <- PyNum.truediv (valid_topics a) total_topics ;; Exc.Ok (AFloat r)
       else Exc.Ok (AInt 0)) ;;
    image_coverage <-
      (if total_topics >? 0
       then r <- PyNum.truediv (topics_with_images a) total_topics ;;
            Exc.Ok (AFloat r)
       else Exc.Ok (AInt 0)) ;;
    let range_min :=
      match confidence_scores a with
      | [] => AInt 0
      | c :: cs => AFloat (PyNum.min_list c cs)
      end in
    let range_max :=
      match confidence_scores a with
      | [] => AInt 0
      | c :: cs => AFloat (PyNum.max_list c cs)
      end in
    Exc.Ok [ ("total_topics", PInt total_topics);
             ("total_images", PInt total_images);
             ("valid_topics", PInt (valid_topics a));
             ("topics_with_images", PInt (topics_with_images a));
             ("image_associations", PInt (image_associations a));
             ("success_rate", PAtom success_rate);
             ("image_coverage", PAtom image_coverage);
             ("question_type_distribution", PDict (type_counts a));
             ("average_confidence", PAtom avg_confidence);
             ("confidence_range",
              PDict [ ("min", range_min); ("max", range_max) ]) ].

End Validation.

(** * The fragment of Python's [re] the classifier uses

    Patterns are written as syntax trees; every quantifier in the sources
    ranges over a single character, which makes the backtracking matcher
    structurally recursive.  The matcher follows [re]'s priorities:
    alternatives left to right, greedy quantifiers longest first, lazy
    ones shortest first. *)

Module Re.

Inductive item :=
| Chr (c : ascii)              (* a literal character *)
| Range (lo hi : ascii)        (* lo-hi *)
| Space.                       (* \s *)

(** A one-character matcher: a literal, [.], or a class [[...]]. *)
Inductive atom :=
| Lit (c : ascii)
| Dot
| Class (negated : bool) (items : list item).

Inductive regex :=
| Empty
| Never                        (* a literal outside the modelled code points *)
| One (a : atom)
| Rep (a : atom) (min : nat) (greedy : bool)   (* a*, a+, a{n,}, a*? *)
| Opt (a : atom)                               (* a? *)
| Seq (r1 r2 : regex)
| Alt (r1 r2 : regex)
| Group (r : regex).                           (* ( ... ) *)

(** [str.upper] on one code point below 256, where the capital is one. *)
Definition upper_char (c : ascii) : ascii :=
  let n := nat_of_ascii c in
  if ((97 <=? n) && (n <=? 122)
      || (224 <=? n) && (n <=? 254) && negb (n =? 247))%nat
  then ascii_of_nat (n - 32) else c.

(** [\s] and [str.isspace] on code points below 256. *)
Definition is_space (c : ascii) : bool :=
  let n := nat_of_ascii c in
  ((9 <=? n) && (n <=? 13) || (28 <=? n) && (n <=? 32)
   || (n =? 133) || (n =? 160))%nat.

Definition item_has (i : item) (c : ascii) : bool :=
  match i with
  | Chr x => Ascii.eqb x c
  | Range lo hi =>
      ((nat_of_ascii lo <=? nat_of_ascii c)
       && (nat_of_ascii c <=? nat_of_ascii hi))%nat
  | Space => is_space c
  end.

Definition newline : ascii := ascii_of_nat 10.

(** Does [a] accept [c]?  With [IGNORECASE] a literal is compared after
    lowering both sides and a class item accepts a character whose lower
    or upper case it contains. *)
Definition accepts (ignorecase : bool) (a : atom) (c : ascii) : bool :=
  match a with
  | Lit x =>
      if ignorecase
      then Ascii.eqb (Py.lower_char x) (Py.lower_char c)
      else Ascii.eqb x c
  | Dot => negb (Ascii.eqb c newline)
  | Class negated items =>
      xorb negated
        (existsb (fun i =>
                    item_has i c
                    || ignorecase
                       && (item_has i (Py.lower_char c)
                           || item_has i (upper_char c)))
                 items)
  end.

Section Matcher.

Variable ignorecase : bool.
Variable R : Type.

(** [a{min,}] greedy, then the continuation [k] on the rest. *)
Fixpoint rep_greedy (a : atom) (min : nat) (s : string)
         (k : string -> option R) : option R :=
  let stop := match min with O => k s | S _ => None end in
  match s with
  | String c s' =>
      if accepts ignorecase a c then
        match rep_greedy a (Nat.pred min) s' k with
        | Some r => Some r
        | None => stop
        end
      else stop
  | EmptyString => stop
  end.

(** [a{min,}?] lazy. *)
Fixpoint rep_lazy (a : atom) (min : nat) (s : string)
         (k : string -> option R) : option R :=
  let more :=
    match s with
    | String c s' =>
        if accepts ignorecase a c then rep_lazy a (Nat.pred min) s' k else None
    | EmptyString => None
    end in
  match min with
  | O => match k s with Some r => Some r | None => more end
  | S _ => more
  end.

(** The text consumed between [s] and its suffix [s']. *)
Definition consumed (s s' : string) : string :=
  String.substring 0 (String.length s - String.length s') s.

(** Match [r] at the head of [s]; [cap] is group 1 so far. *)
Fixpoint run (r : regex) (s : string) (cap : option string)
         (k : string -> option string -> option R) : option R :=
  match r with
  | Empty => k s cap
  | Never => None
  | One a =>
      match s with
      | String c s' => if accepts ignorecase a c then k s' cap else None
      | EmptyString => None
      end
  | Rep a min greedy =>
      (if greedy then rep_greedy else rep_lazy) a min s (fun s' => k s' cap)
  | Opt a =>
      match s with
      | String c s' =>
          if accepts ignorecase a c then
            match k s' cap with
            | Some x => Some x
            | None => k s cap
            end
          else k s cap
      | EmptyString => k s cap
      end
  | Seq r1 r2 => run r1 s cap (fun s1 cap1 => run r2 s1 cap1 k)
  | Alt r1 r2 =>
      match run r1 s cap k with
      | Some x => Some x
      | None => run r2 s cap k
      end
  | Group r1 => run r1 s cap (fun s1 _ => k s1 (Some (consumed s s1)))
  end.

End Matcher.

(** A match anchored at the head of [s]: the rest of the text after it
    and group 1. *)
Definition match_here (ignorecase : bool) (r : regex) (s : string)
  : option (string * option string) :=
  run ignorecase _ r s None (fun s' cap => Some (s', cap)).

(** [re.search(r, s)]: the leftmost match; [Some cap] is a match object
    whose [group(1)] is [cap]. *)
Fixpoint search (ignorecase : bool) (r : regex) (s : string)
  : option (option string) :=
  match match_here ignorecase r s with
  | Some (_, cap) => Some cap
  | None =>
      match s with
      | EmptyString => None
      | String _ s' => search ignorecase r s'
      end
  end.

(** [re.findall(r, s)] for a pattern with one group: group 1 of every
    non-overlapping match, left to right.  [skip] counts the characters
    of [s] still covered by the previous match. *)
Fixpoint findall_from (ignorecase : bool) (r : regex) (skip : nat) (s : string)
  : list string :=
  match skip with
  | S n =>
      match s with
      | EmptyString => []
      | String _ s' => findall_from ignorecase r n s'
      end
  | O =>
      match match_here ignorecase r s with
      | Some (rest, cap) =>
          let g := match cap with Some g => g | None => "" end in
          g :: match s with
               | EmptyString => []
               | String _ s' =>
                   findall_from ignorecase r
                     (Nat.pred (String.length s - String.length rest)) s'
               end
      | None =>
          match s with
          | EmptyString => []
          | String _ s' => findall_from ignorecase r O s'
          end
      end
  end.

(** Truth value of what [re.search] returns. *)
Definition found (m : option (option string)) : bool :=
  match m with Some _ => true | None => false end.

Definition findall (ignorecase : bool) (r : regex) (s : string) : list string :=
  findall_from ignorecase r O s.

(** Pattern-writing helpers. *)
Fixpoint lit (s : string) : regex :=
  match s with
  | EmptyString => Empty
  | String c EmptyString => One (Lit c)
  | String c s' => Seq (One (Lit c)) (lit s')
  end.

Fixpoint seq (rs : list regex) : regex :=
  match rs with
  | [] => Empty
  | [r] => r
  | r :: rs' => Seq r (seq rs')
  end.

Definition spaces0 : regex := Rep (Class false [Space]) 0 true.   (* \s* *)
Definition spaces1 : regex := Rep (Class false [Space]) 1 true.   (* \s+ *)
Definition any0 : regex := Rep Dot 0 true.                        (* .*  *)
Definition any0_lazy : regex := Rep Dot 0 false.                  (* .*? *)
Definition range (lo hi : string) : atom :=
  match lo, hi with
  | String l _, String h _ => Class false [Range l h]
  | _, _ => Class false []
  end.
Definition chr (s : string) : atom :=
  match s with
  | String c _ => Lit c
  | EmptyString => Class false []
  end.
Definition not_chr (s : string) : atom :=
  match s with
  | String c _ => Class true [Chr c]
  | EmptyString => Class true []
  end.
Definition not_newline : atom := Class true [Chr newline].        (* [^\n] *)

End Re.

(** * Content Classifier ([EnhancedQuestionClassifier], lines 86-193) *)

Module EnhancedQuestionClassifier.

Import Re.

Record QuestionDetectionResult := mk {
  question_type : string;
  confidence : float;
  extracted_options : list string;
  correct_answer : option string;
  rationale : option string;
  associated_images : list string
}.

(** [self.patterns], in the insertion order of the dictionary. *)
Definition patterns : list (string * list (regex * float)) :=
  [ ("multiple_choice",
     [ (* [A-D]\.\s+[A-Z] *)
       (seq [One (range "A" "D"); lit "."; spaces1; One (range "A" "Z")],
        0.9%float);
       (* \([A-D]\)\s+[A-Z] *)
       (seq [lit "("; One (range "A" "D"); lit ")"; spaces1;
             One (range "A" "Z")], 0.8%float);
       (* (?i)which.*following *)
       (seq [lit "which"; any0; lit "following"], 0.3%float);
       (* (?i)choose.*correct *)
       (seq [lit "choose"; any0; lit "correct"], 0.3%float) ]);
    ("sata",
     [ (* (?i)select all that apply *)
       (lit "select all that apply", 1.0%float);
       (* (?i)choose all.*correct *)
       (seq [lit "choose all"; any0; lit "correct"], 0.9%float);
       (* (?i)mark all.*appropriate *)
       (seq [lit "mark all"; any0; lit "appropriate"], 0.8%float);
       (* U+2610 | U+25A1 | \[\s*\]  (the two box characters lie outside
          the modelled code points) *)
       (Alt Never (Alt Never (seq [lit "["; spaces0; lit "]"])), 0.7%float) ]);
    ("fill_blank",
     [ (* _{3,} *)
       (Rep (chr "_") 3 true, 0.9%float);
       (* \[.*?\] *)
       (seq [lit "["; any0_lazy; lit "]"], 0.8%float);
       (* \(.*?\) *)
       (seq [lit "("; any0_lazy; lit ")"], 0.3%float) ]);
    ("matrix",
     [ (* (?i)match.*column *)
       (seq [lit "match"; any0; lit "column"], 0.9%float);
       (* (?i)drag.*drop *)
       (seq [lit "drag"; any0; lit "drop"], 0.8%float);
       (* (?i)grid *)
       (lit "grid", 0.7%float);
       (* (?i)table *)
       (lit "table", 0.3%float) ]) ].

(** [self.image_indicators]; each carries the inline flag [(?i)]. *)
Definition image_indicators : list regex :=
  [ seq [lit "shown"; any0; lit "image"];
    seq [lit "picture"; any0; lit "shows"];
    seq [lit "photograph"; any0; lit "demonstrates"];
    seq [lit "figure"; any0; lit "illustrates"];
    seq [lit "see"; any0; lit "image"];
    seq [lit "observe"; any0; lit "condition"];
    seq [lit "visual"; any0; lit "examination"] ].

(** [option_patterns] (line 153); compiled without [IGNORECASE]. *)
Definition option_patterns : list regex :=
  [ (* [A-F]\.\s+([^\n]+) *)
    seq [One (range "A" "F"); lit "."; spaces1; Group (Rep not_newline 1 true)];
    (* \([A-F]\)\s+([^\n]+) *)
    seq [lit "("; One (range "A" "F"); lit ")"; spaces1;
         Group (Rep not_newline 1 true)] ].

(** [str.upper] and [str.strip] on the modelled code points. *)
Fixpoint upper (s : string) : string :=
  match s with
  | EmptyString => EmptyString
  | String c s' => String (upper_char c) (upper s')
  end.

Fixpoint lstrip (s : string) : string :=
  match s with
  | String c s' => if is_space c then lstrip s' else s
  | EmptyString => EmptyString
  end.

Fixpoint rstrip (s : string) : string :=
  match s with
  | EmptyString => EmptyString
  | String c s' =>
      match rstrip s' with
      | EmptyString => if is_space c then EmptyString else String c EmptyString
      | t => String c t
      end
  end.

Definition strip (s : string) : string := rstrip (lstrip s).

(** The first pattern of [ps] found in [text], with its group 1. *)
Fixpoint first_search (ps : list regex) (text : string) : option string :=
  match ps with
  | [] => None
  | p :: ps' =>
      match search true p text with
      | Some cap => Some (match cap with Some g => g | None => "" end)
      | None => first_search ps' text
      end
  end.

Definition _extract_answer (text : string) : option string :=
  let patterns :=
    [ (* (?i)correct answer:?\s*([A-F]) *)
      seq [lit "correct answer"; Opt (chr ":"); spaces0;
           Group (One (range "A" "F"))];
      (* (?i)answer:?\s*([A-F]) *)
      seq [lit "answer"; Opt (chr ":"); spaces0; Group (One (range "A" "F"))];
      (* (?i)the answer is\s*([A-F]) *)
      seq [lit "the answer is"; spaces0; Group (One (range "A" "F"))] ] in
  option_map upper (first_search patterns text).

Definition _extract_rationale (text : string) : option string :=
  let sentence := Group (Seq (Rep (not_chr ".") 1 true) (lit ".")) in
  let patterns :=
    [ (* (?i)rationale:?\s*([^.]+\.) *)
      seq [lit "rationale"; Opt (chr ":"); spaces0; sentence];
      (* (?i)explanation:?\s*([^.]+\.) *)
      seq [lit "explanation"; Opt (chr ":"); spaces0; sentence];
      (* (?i)because:?\s*([^.]+\.) *)
      seq [lit "because"; Opt (chr ":"); spaces0; sentence] ] in
  option_map strip (first_search patterns text).

(** The score of one question type (lines 135-145). *)
Definition type_confidence (text : string) (has_images : bool)
           (ps : list (regex * float)) : float :=
  let confidence :=
    fold_left
      (fun confidence pw =>
         if found (search true (fst pw) text)
         then (confidence + snd pw)%float else confidence)
      ps 0.0%float in
  if has_images && existsb (fun p => found (search true p text))
                           image_indicators
  then (confidence + 0.3)%float
  else confidence.

(** The loop over [self.patterns.items()] (lines 134-149). *)
Definition best_match (text : string) (has_images : bool) : string * float :=
  fold_left
    (fun best entry =>
       let confidence := type_confidence text has_images (snd entry) in
       if (snd best <? confidence)%float then (fst entry, confidence) else best)
    patterns ("unknown", 0.0%float).

(** Options of the first format that matches at all (lines 152-158). *)
Fixpoint first_findall (ps : list regex) (text : string) : list string :=
  match ps with
  | [] => []
  | p :: ps' =>
      match findall false p text with
      | [] => first_findall ps' text
      | matches => matches
      end
  end.

Definition classify (text : string) (has_images : bool)
  : QuestionDetectionResult :=
  let '(best_type, best_confidence) := best_match text has_images in
  let options :=
    if String.eqb best_type "multiple_choice" || String.eqb best_type "sata"
    then first_findall option_patterns text
    else [] in
  mk best_type
     (PyNum.min2 best_confidence 1.0%float)
     options
     (_extract_answer text)
     (_extract_rationale text)
     [].

End EnhancedQuestionClassifier.

(** * Region Detector ([PDFImageExtractor], lines 197-254) *)

(** A two-dimensional [numpy] array of 8-bit pixels: its shape and the
    pixel at (row, column). *)
Module Np.

Record ndarray := mk {
  rows : Z;
  cols : Z;
  px : Z -> Z -> Z
}.

(** [np.ones(shape, dtype=np.uint8) * v] *)
Definition full (shape : Z * Z) (v : Z) : ndarray :=
  mk (fst shape) (snd shape) (fun _ _ => v).

(** A slice bound as [slice.indices(n)] normalises it (step 1). *)
Definition bound (n i : Z) : Z :=
  if i <? 0 then Z.max 0 (i + n) else Z.min i n.

Definition in_slice (n lo hi i : Z) : bool :=
  (bound n lo <=? i) && (i <? bound n hi).

(** [a[y1:y2, x1:x2] = v] *)
Definition set_slice (a : ndarray) (y1 y2 x1 x2 v : Z) : ndarray :=
  mk (rows a) (cols a)
     (fun r c =>
        if in_slice (rows a) y1 y2 r && in_slice (cols a) x1 x2 c
        then v else px a r c).

End Np.

(** The OpenCV calls of the detector.  [bitwise_and] is pixel-wise
    conjunction; edge detection, morphology and contour tracing are
    library code, kept abstract. *)
Class OpenCV := {
  contour : Type;
  Canny : Np.ndarray -> Z -> Z -> Np.ndarray;
  dilate : Np.ndarray -> Np.ndarray -> Z -> Np.ndarray;
  erode : Np.ndarray -> Np.ndarray -> Z -> Np.ndarray;
  (** [findContours(edges, RETR_EXTERNAL, CHAIN_APPROX_SIMPLE)[0]] *)
  findContours : Np.ndarray -> list contour;
  (** [boundingRect(c)] = (x, y, w, h) *)
  boundingRect : contour -> Z * Z * Z * Z;
  contourArea : contour -> float
}.

Module PDFImageExtractor.

Definition bitwise_and (a b : Np.ndarray) : Np.ndarray :=
  Np.mk (Np.rows a) (Np.cols a)
        (fun r c => Z.land (Np.px a r c) (Np.px b r c)).

Definition TextBox : Type := Z * Z * Z * Z.

(** One iteration of the loop of [_create_text_mask] (lines 201-209). *)
Definition mask_out (img_shape : Z * Z) (mask : Np.ndarray) (box : TextBox)
  : Np.ndarray :=
  let '(x, y, w, h) := box in
  let padding := 5 in
  let x1 := Z.max 0 (x - padding) in
  let y1 := Z.max 0 (y - padding) in
  let x2 := Z.min (snd img_shape) (x + w + padding) in
  let y2 := Z.min (fst img_shape) (y + h + padding) in
  Np.set_slice mask y1 y2 x1 x2 0.

Definition _create_text_mask (img_shape : Z * Z) (text_boxes : list TextBox)
  : Np.ndarray :=
  fold_left (mask_out img_shape) text_boxes (Np.full img_shape 255).

(** A candidate region (x, y, w, h, confidence). *)
Definition Region : Type := Z * Z * Z * Z * float.

Definition confidence_of (r : Region) : float := snd r.

Section Detector.

Context {cv : OpenCV}.

(** The body of [for contour in contours] (lines 232-250): the candidate
    appended for [c], if any.  The divisions cannot raise: [w] and [h] are
    at least [min_size] and [bbox_area] is positive where they are
    reached, and the sizes [boundingRect] returns are 32-bit, far below
    the range where the conversion to [float] overflows. *)
Definition candidate (c : contour) : option Region :=
  let '(x, y, w, h) := boundingRect c in
  let min_size := 100 in
  let max_ratio := 10%float in
  if (w >=? min_size) && (h >=? min_size) then
    let aspect_ratio :=
      PyNum.max2 (PyNum.int_truediv w h) (PyNum.int_truediv h w) in
    if (aspect_ratio <=? max_ratio)%float then
      let area := contourArea c in
      let bbox_area := w * h in
      if bbox_area >? 0 then
        let confidence := (area / PyNum.of_int bbox_area)%float in
        if (0.3 <=? confidence)%float then Some (x, y, w, h, confidence)
        else None
      else None
    else None
  else None.

(** [for contour in contours: ... image_regions.append(...)] *)
Fixpoint collect (contours : list contour) : list Region :=
  match contours with
  | [] => []
  | c :: rest =>
      match candidate c with
      | Some r => r :: collect rest
      | None => collect rest
      end
  end.

(** [list.sort(key=lambda x: x[4], reverse=True)]: a stable sort into
    descending key order, decided by [<] on the keys alone.  An element
    goes behind the elements whose key is strictly greater and in front
    of the others, so equal keys keep the order of the input. *)
Fixpoint insert_desc (r : Region) (sorted : list Region) : list Region :=
  match sorted with
  | [] => [r]
  | r' :: rest =>
      if (confidence_of r <? confidence_of r')%float
      then r' :: insert_desc r rest
      else r :: r' :: rest
  end.

Definition sort_desc (l : list Region) : list Region :=
  fold_right insert_desc [] l.

Definition _detect_image_like_regions (gray_img text_mask : Np.ndarray)
  : list Region :=
  let masked_img := bitwise_and gray_img text_mask in
  let edges := Canny masked_img 50 150 in
  let kernel := Np.full (5, 5) 1 in
  let edges := dilate edges kernel 2 in
  let edges := erode edges kernel 1 in
  let contours := findContours edges in
  let image_regions := collect contours in
  firstn 10 (sort_desc image_regions).

End Detector.

End PDFImageExtractor.

(** * Further functions of the sources *)


(** ** OCR text boxes ([_detect_text_regions], lines 179-195) *)

Module TextRegions.

Import PDFImageExtractor.

(** What [pytesseract.image_to_data(gray_img, output_type=Output.DICT)]
    returns, as far as the loop reads it: parallel lists.  An entry of
    [conf] is the value of [int(data['conf'][i])], or [None] where
    [int] raises. *)
Record OcrData := mk {
  text : list string;
  conf : list (option Z);
  left : list Z;
  top : list Z;
  width : list Z;
  height : list Z
}.

Definition IndexError : Exc.exn := Exc.mk "IndexError" "list index out of range".
Definition ValueError : Exc.exn :=
  Exc.mk "ValueError" "invalid literal for int() with base 10".

(** [l[i]] *)
Definition getitem {A} (l : list A) (i : nat) : Exc.result A :=
  match nth_error l i with
  | Some v => Exc.Ok v
  | None => Exc.Raise IndexError
  end.

(** The body of [for i in range(len(data['text']))]. *)
Definition row (data : OcrData) (text_boxes : list TextBox) (i : nat)
  : Exc.result (list TextBox) :=
  c <- getitem (conf data) i ;;
  n <- match c with
       | Some n => Exc.Ok n
       | None => Exc.Raise ValueError
       end ;;
  if n >? 30 then
    x <- getitem (left data) i ;;
    y <- getitem (top data) i ;;
    w <- getitem (width data) i ;;
    h <- getitem (height data) i ;;
    if (w >? 10) && (h >? 10)
    then Exc.Ok (text_boxes ++ [(x, y, w, h)])%list
    else Exc.Ok text_boxes
  else Exc.Ok text_boxes.

Definition rows (data : OcrData) : Exc.result (list TextBox) :=
  fold_left (fun acc i => text_boxes <- acc ;; row data text_boxes i)
            (List.seq 0 (List.length (text data))) (Exc.Ok []).

(** [ocr] is the outcome of the call of pytesseract.  Every exception of
    the [try] block ends in [return []]. *)
Definition _detect_text_regions (ocr : Exc.result OcrData) : list TextBox :=
  match (data <- ocr ;; rows data) with
  | Exc.Ok text_boxes => text_boxes
  | Exc.Raise _ => []
  end.

End TextRegions.


(** ** Numbers in file names: [str], [int], [split] and [format] *)

Module PyStr.

Definition digit_char (d : nat) : ascii := ascii_of_nat (48 + d).

(** [str(n)] for [n >= 0]: the decimal digits, most significant first. *)
Fixpoint str_of_nat_fuel (fuel n : nat) : string :=
  match fuel with
  | O => EmptyString
  | S fuel' =>
      ((if (n <? 10)%nat then EmptyString
        else str_of_nat_fuel fuel' (n / 10))
       ++ String (digit_char (n mod 10)) EmptyString)%string
  end.

Definition str_of_nat (n : nat) : string := str_of_nat_fuel (S n) n.

(** [str(n)] and [f"{n}"] for an [int] of at most 4300 digits (beyond
    that CPython refuses the conversion). *)
Definition str (n : Z) : string :=
  if n <? 0 then String "-" (str_of_nat (Z.abs_nat n))
  else str_of_nat (Z.abs_nat n).

(** ['0' * k] *)
Fixpoint zeros (k : nat) : string :=
  match k with
  | O => EmptyString
  | S k' => String "0" (zeros k')
  end.

(** [f"{n:0{width}d}"] for an [int] of at most 4300 digits: the sign
    first, then zeros up to the width. *)
Definition format_0d (width : nat) (n : Z) : string :=
  let digits := str_of_nat (Z.abs_nat n) in
  if n <? 0
  then String "-" (zeros (width - 1 - String.length digits) ++ digits)
  else (zeros (width - String.length digits) ++ digits)%string.

Definition is_digit (c : ascii) : bool :=
  ((48 <=? nat_of_ascii c) && (nat_of_ascii c <=? 57))%nat.

(** The message shows [repr(s)]; written here for a literal without
    quotes or escapes. *)
Definition ValueError (s : string) : Exc.exn :=
  Exc.mk "ValueError"
         ("invalid literal for int() with base 10: '" ++ s ++ "'").

(** CPython converts between [int] and [str] only up to
    [sys.int_info.default_max_str_digits] decimal digits. *)
Definition max_str_digits : nat := 4300.

Definition LimitError (digits : nat) : Exc.exn :=
  Exc.mk "ValueError"
         ("Exceeds the limit (4300 digits) for integer string conversion: "
          ++ "value has " ++ str_of_nat digits
          ++ " digits; use sys.set_int_max_str_digits() to increase the limit").

(** The white space that [int] drops around a literal: the ASCII white
    space of C (tab to carriage return, and the space) and, of the code
    points from 128 on, U+0085 and U+00A0.  The separators U+001C to
    U+001F, which [str.strip] drops, are no white space here. *)
Definition is_int_space (c : ascii) : bool :=
  let n := nat_of_ascii c in
  ((9 <=? n) && (n <=? 13) || (n =? 32) || (n =? 133) || (n =? 160))%nat.

Fixpoint lstrip_int (s : string) : string :=
  match s with
  | String c s' => if is_int_space c then lstrip_int s' else s
  | EmptyString => EmptyString
  end.

Fixpoint rstrip_int (s : string) : string :=
  match s with
  | EmptyString => EmptyString
  | String c s' =>
      match rstrip_int s' with
      | EmptyString =>
          if is_int_space c then EmptyString else String c EmptyString
      | t => String c t
      end
  end.

(** The run of digits at the head of a literal: decimal digits, with
    single underscores allowed between two digits.  The answer is the
    value of the run, the number of its digits (leading zeros count) and
    what follows the run; there is none when the run is empty or an
    underscore is misplaced. *)
Fixpoint scan (s : string) (acc : Z) (digits : nat) (after_digit : bool)
  : option (Z * nat * string) :=
  match s with
  | EmptyString => if after_digit then Some (acc, digits, EmptyString) else None
  | String c s' =>
      if is_digit c
      then scan s' (10 * acc + Z.of_nat (nat_of_ascii c - 48)) (S digits) true
      else if Ascii.eqb c "_"
           then (if after_digit then scan s' acc digits false else None)
           else (if after_digit then Some (acc, digits, s) else None)
  end.

(** [int(s)] on the modelled code points: white space around the
    literal is dropped, then come an optional sign and the digits.  A
    run of more than 4300 digits is refused before the rest of the
    literal is looked at. *)
Definition int (s : string) : Exc.result Z :=
  let t := rstrip_int (lstrip_int s) in
  let '(negative, r) :=
    match t with
    | String "+" r => (false, r)
    | String "-" r => (true, r)
    | _ => (false, t)
    end in
  match scan r 0 0 false with
  | None => Exc.Raise (ValueError s)
  | Some (n, digits, rest) =>
      if (max_str_digits <? digits)%nat then Exc.Raise (LimitError digits)
      else
        match rest with
        | EmptyString => Exc.Ok (if negative then - n else n)
        | _ => Exc.Raise (ValueError s)
        end
  end.

(** [s.split(sep)] for a separator of one character. *)
Fixpoint split (sep : ascii) (s : string) : list string :=
  match s with
  | EmptyString => [EmptyString]
  | String c s' =>
      if Ascii.eqb c sep then EmptyString :: split sep s'
      else match split sep s' with
           | part :: parts => String c part :: parts
           | [] => [String c EmptyString]
           end
  end.

End PyStr.

(** ** The command line's page arguments ([extract_images_cli.py]) *)

Module Cli.

(** The numbers of [range(start, stop)], in order. *)
Definition range (start stop : Z) : list Z :=
  map (fun k => start + Z.of_nat k) (List.seq 0 (Z.to_nat (stop - start))).

(** [sys.maxsize] of a 64-bit build. *)
Definition maxsize : Z := 2 ^ 63 - 1.

Definition OverflowError : Exc.exn :=
  Exc.mk "OverflowError" "Python int too large to convert to C ssize_t".
Definition MemoryError : Exc.exn := Exc.mk "MemoryError" EmptyString.

Definition not_enough (got : nat) : Exc.exn :=
  Exc.mk "ValueError"
         ("not enough values to unpack (expected 2, got "
          ++ PyStr.str_of_nat got ++ ")").
Definition too_many : Exc.exn :=
  Exc.mk "ValueError" "too many values to unpack (expected 2)".

(** [a, b = map(int, parts)]: the parts are converted one at a time
    while they are unpacked; a third part is still converted before the
    unpacking fails. *)
Definition unpack2 (parts : list string) : Exc.result (Z * Z) :=
  match parts with
  | [] => Exc.Raise (not_enough 0)
  | p1 :: rest1 =>
      a <- PyStr.int p1 ;;
      match rest1 with
      | [] => Exc.Raise (not_enough 1)
      | p2 :: rest2 =>
          b <- PyStr.int p2 ;;
          match rest2 with
          | [] => Exc.Ok (a, b)
          | p3 :: _ => _ <- PyStr.int p3 ;; Exc.Raise too_many
          end
      end
  end.

Section Memory.

(** Whether the machine has room for a list of so many numbers. *)
Variable fits : nat -> bool.

(** [list(range(start, stop))]: a range longer than [sys.maxsize] has
    no length, and a list is built only where there is room for it. *)
Definition list_range (start stop : Z) : Exc.result (list Z) :=
  if stop - start >? maxsize then Exc.Raise OverflowError
  else if fits (Z.to_nat (stop - start)) then Exc.Ok (range start stop)
       else Exc.Raise MemoryError.

(** [parse_page_range] (lines 24-30). *)
Definition parse_page_range (page_range : string) : Exc.result (list Z) :=
  if Py.str_in "-" page_range then
    se <- unpack2 (PyStr.split "-" page_range) ;;
    let '(start, end_) := se in
    list_range start (end_ + 1)
  else
    n <- PyStr.int page_range ;; Exc.Ok [n].

End Memory.

(** The page argument that [extract_images_from_pdf] hands to the
    extraction script (lines 58-61); [pdf_pages] is [first :: others]. *)
Definition page_arg (first : Z) (others : list Z) : string :=
  match others with
  | [] => (PyStr.str first ++ "-" ++ PyStr.str first)%string
  | _ =>
      (PyStr.str (fold_left Z.min others first) ++ "-"
       ++ PyStr.str (fold_left Z.max others first))%string
  end.

(** The loop of [extract_page_from_filename] over [enumerate(parts)];
    [rest] holds the parts from the current one on. *)
Fixpoint page_part (rest : list string) : Exc.result (option Z) :=
  match rest with
  | [] => Exc.Ok None
  | part :: rest' =>
      match rest' with
      | next :: _ =>
          if String.eqb part "page"
          then n <- PyStr.int next ;; Exc.Ok (Some n)
          else page_part rest'
      | [] => page_part rest'
      end
  end.

(** [extract_page_from_filename] (lines 191-202): a [ValueError] is
    swallowed and gives [None]. *)
Definition extract_page_from_filename (filename : string) : option Z :=
  if Py.str_in "page_" filename then
    match page_part (PyStr.split "_" filename) with
    | Exc.Ok r => r
    | Exc.Raise _ => None
    end
  else None.

End Cli.

(** ** The extraction script's page range and file names
       ([extract_images_comprehensive.py]) *)

Module Pages.

(** [main], lines 360-368: the [--pages] argument as the 0-based,
    half-open range the extractor works on.  A [ValueError] ends the
    run with exit code 1. *)
Definition page_range_of (pages : string) : Exc.result (Z * Z) :=
  se <- Cli.unpack2 (PyStr.split "-" pages) ;;
  let '(start, end_) := se in
  Exc.Ok (start - 1, end_).

(** [range(start_page, min(end_page, len(self.doc)))] (line 57), the
    0-based pages that are visited. *)
Definition visited (page_range : Z * Z) (doc_len : Z) : list Z :=
  Cli.range (fst page_range) (Z.min (snd page_range) doc_len).

(** The file name of a direct image (line 76) and of a detected region
    (line 155); [hash8] is the first 8 digits of the MD5 digest. *)
Definition direct_filename (page_num img_index : Z) (hash8 : string) : string :=
  ("page_" ++ PyStr.str (page_num + 1) ++ "_img_" ++ PyStr.str (img_index + 1)
   ++ "_" ++ hash8 ++ ".png")%string.

Definition region_filename (page_num region_idx : Z) (hash8 : string) : string :=
  ("page_" ++ PyStr.str (page_num + 1) ++ "_region_"
   ++ PyStr.str (region_idx + 1) ++ "_" ++ hash8 ++ ".png")%string.

End Pages.


(** ** The analysis report ([analyze_extracted_images.py], lines 84-224) *)

Module Analysis.

(** One entry of [detected_regions], as [detect_image_regions] writes it
    (lines 161-172 of [extract_images_comprehensive.py]). *)
Record RegionInfo := mk {
  source : string;
  page : Z;
  region_index : Z;
  filename : string;
  filepath : string;
  bbox : list Z;
  width : Z;
  height : Z;
  confidence : float;
  hash : string
}.

Definition KeyError (key : string) : Exc.exn := Exc.mk "KeyError" key.

(** [d[key]] *)
Definition getitem (d : dict) (key : string) : Exc.result pyval :=
  match Dict.get d key with
  | Some v => Exc.Ok v
  | None => Exc.Raise (KeyError key)
  end.

(** Truth value of a stored value. *)
Definition truthy (v : pyval) : bool :=
  match v with
  | PAtom (ABool b) => b
  | PAtom (AInt n) => negb (n =? 0)
  | PAtom (AFloat x) => negb (x =? 0)%float
  | PAtom (AStr s) => negb (String.eqb s "")
  | PDict d => match d with [] => false | _ => true end
  end.

(** A score as a sort key or in a comparison; scores are [int]s
    wherever the scorer writes one. *)
Definition as_int (v : pyval) : Z :=
  match v with
  | PAtom (AInt n) => n
  | _ => 0
  end.

Definition Entry : Type := RegionInfo * dict.

Record Categories := mkc {
  likely_images : list Entry;
  likely_text : list Entry;
  errors : list Entry
}.

Section Files.

(** The files on disk: [os.path.exists] and [Image.open] with the
    conversion to RGB. *)
Variable exists_ : string -> bool.
Variable open_ : string -> Exc.result Scorer.PILImage.

(** The body of [for region in detected_regions] (lines 103-116). *)
Definition categorise_one (acc : Categories) (region : RegionInfo)
  : Exc.result Categories :=
  let image_path := filepath region in
  if exists_ image_path then
    let analysis := Scorer.analyze_image_content (open_ image_path) in
    if Dict.mem analysis "error" then
      Exc.Ok (mkc (likely_images acc) (likely_text acc)
                  (errors acc ++ [(region, analysis)]))
    else
      likely <- getitem analysis "likely_image" ;;
      if truthy likely then
        Exc.Ok (mkc (likely_images acc ++ [(region, analysis)])
                    (likely_text acc) (errors acc))
      else
        Exc.Ok (mkc (likely_images acc)
                    (likely_text acc ++ [(region, analysis)]) (errors acc))
  else
    Exc.Ok (mkc (likely_images acc) (likely_text acc)
                (errors acc ++ [(region, [("error", PStr "File not found")])])).

Definition categorise (detected_regions : list RegionInfo)
  : Exc.result Categories :=
  fold_left (fun acc region => a <- acc ;; categorise_one a region)
            detected_regions (Exc.Ok (mkc [] [] [])).

(** [list.sort(key=..., reverse=True)] on keys computed beforehand: a
    stable sort into descending order of the keys. *)
Fixpoint insert_by_key (x : Entry * Z) (sorted : list (Entry * Z))
  : list (Entry * Z) :=
  match sorted with
  | [] => [x]
  | y :: rest =>
      if snd x <? snd y then y :: insert_by_key x rest else x :: y :: rest
  end.

Definition sort_by_key (l : list (Entry * Z)) : list Entry :=
  map fst (fold_right insert_by_key [] l).

(** The keys of a list, computed one after the other as [sort] does. *)
Fixpoint keys_of (key : dict -> Exc.result Z) (l : list Entry)
  : Exc.result (list (Entry * Z)) :=
  match l with
  | [] => Exc.Ok []
  | x :: rest =>
      k <- key (snd x) ;;
      ks <- keys_of key rest ;;
      Exc.Ok ((x, k) :: ks)
  end.

(** [x[1]['score']] and [x[1].get('score', 0)] *)
Definition score_key (analysis : dict) : Exc.result Z :=
  v <- getitem analysis "score" ;; Exc.Ok (as_int v).
Definition score_key_or_0 (analysis : dict) : Exc.result Z :=
  Exc.Ok (as_int (Dict.get_default analysis "score" (PInt 0))).

(** The three lists that [analyze_extraction_results] returns (lines
    99-120 and 174-178); the page-by-page breakdown is printed from
    them. *)
Definition analyze_extraction_results (detected_regions : list RegionInfo)
  : Exc.result Categories :=
  c <- categorise detected_regions ;;
  ki <- keys_of score_key (likely_images c) ;;
  kt <- keys_of score_key_or_0 (likely_text c) ;;
  Exc.Ok (mkc (sort_by_key ki) (sort_by_key kt) (errors c)).

(** The loop of [create_filtered_results] (lines 193-210): the entries
    that are copied and listed in the manifest, in order. *)
Fixpoint filtered (min_score : Z) (likely : list Entry)
  : Exc.result (list Entry) :=
  match likely with
  | [] => Exc.Ok []
  | (region, analysis) :: rest =>
      score <- getitem analysis "score" ;;
      if as_int score >=? min_score
      then kept <- filtered min_score rest ;; Exc.Ok ((region, analysis) :: kept)
      else filtered min_score rest
  end.

End Files.

End Analysis.


(** ** The page loop of [detect_image_regions]
       ([extract_images_comprehensive.py], lines 109-177) *)

Module RegionRecords.

Import PDFImageExtractor TextRegions Analysis.

Section Run.

Context {cv : OpenCV}.

(** What the libraries deliver for the 0-based page [page_num]: the gray
    page image, the outcome of OCR on it, the first 8 hex digits of the
    MD5 digest of a crop, and the path of a file name inside the
    directory [detected_regions]. *)
Variable gray_of : Z -> Np.ndarray.
Variable ocr_of : Z -> Exc.result OcrData.
Variable hash8_of : Z -> Region -> string.
Variable path_of : string -> string.

(** The body of [for region_idx, (x, y, w, h, confidence) in
    enumerate(image_regions)] (lines 149-174). *)
Definition region_info (page_num : Z) (region_idx : nat) (region : Region)
  : RegionInfo :=
  let '(x, y, w, h, confidence) := region in
  let region_hash := hash8_of page_num region in
  let filename :=
    Pages.region_filename page_num (Z.of_nat region_idx) region_hash in
  mk "detected_region" (page_num + 1) (Z.of_nat region_idx + 1)
     filename (path_of filename) [x; y; x + w; y + h] w h confidence
     region_hash.

(** [enumerate] from [idx] on. *)
Fixpoint region_infos (page_num : Z) (idx : nat) (image_regions : list Region)
  : list RegionInfo :=
  match image_regions with
  | [] => []
  | region :: rest =>
      region_info page_num idx region :: region_infos page_num (S idx) rest
  end.

(** One page (lines 126-174): OCR, text mask, detection, records. *)
Definition page_regions (page_num : Z) : list RegionInfo :=
  let gray := gray_of page_num in
  let text_boxes := _detect_text_regions (ocr_of page_num) in
  let text_mask := _create_text_mask (Np.rows gray, Np.cols gray) text_boxes in
  let image_regions := _detect_image_like_regions gray text_mask in
  region_infos page_num 0 image_regions.

(** [for i, page_img in enumerate(pages)] with [page_num = start_page + i],
    over the [n_pages] page images that were rendered. *)
Definition detect_image_regions (start_page : Z) (n_pages : nat)
  : list RegionInfo :=
  flat_map (fun i => page_regions (start_page + Z.of_nat i))
           (List.seq 0 n_pages).

End Run.

End RegionRecords.


(** ** From elements to topics ([enhanced_image_extraction.py], lines
       203-246, 310-334, 368-377 and 455-505) *)

Module Pipeline.

Import EnhancedQuestionClassifier.

(** An element dictionary of the API's answer, as far as the image code
    reads it: [metadata.image_base64], [metadata.page_number], [type]
    and the four corner coordinates ([None] where a key is absent). *)
Record ApiElement := mka {
  image_base64 : option string;
  meta_page_number : option Z;
  el_type : option string;
  (** [metadata.coordinates], where present and not empty: x and y of
      [top_left], x and y of [bottom_right] *)
  coordinates : option (option float * option float
                        * option float * option float)
}.

(** A text element: [str(element)] and [element.metadata.page_number]
    ([None] where the attribute is missing). *)
Record Element := mke {
  text : string;
  page_number : option Z
}.

(** [d.get(key, 0)] on a coordinate *)
Definition or_zero (v : option float) : float :=
  match v with Some x => x | None => 0%float end.

Section Extraction.

(** Whether [b64decode], [Image.open] and [image.save] go through for a
    payload; [_extract_subject] (lines 507-523). *)
Variable decodes : string -> bool.
Variable _extract_subject : string -> option string.

(** [extract_and_save_image] (lines 203-246). *)
Definition extract_and_save_image (element : ApiElement) (image_counter : Z)
  : option ExtractedImage.t :=
  match image_base64 element with
  | None => None
  | Some payload =>
      let image_id := ("img_" ++ PyStr.format_0d 4 image_counter)%string in
      let filename := (image_id ++ ".png")%string in
      if decodes payload then
        let page_number :=
          match meta_page_number element with Some p => p | None => 0 end in
        let element_type :=
          match el_type element with Some t => t | None => "Image"%string end in
        let bbox :=
          match coordinates element with
          | Some (x1, y1, x2, y2) =>
              Some [or_zero x1; or_zero y1; or_zero x2; or_zero y2]
          | None => None
          end in
        Some (ExtractedImage.mk image_id filename payload element_type
                                page_number bbox None)
      else None
  end.

(** The image loop of [_extract_with_api] (lines 368-377). *)
Fixpoint api_images (elements : list ApiElement) (image_counter : Z)
  : list ExtractedImage.t :=
  match elements with
  | [] => []
  | element :: rest =>
      match image_base64 element with
      | Some _ =>
          match extract_and_save_image element image_counter with
          | Some extracted_image =>
              extracted_image :: api_images rest (image_counter + 1)
          | None => api_images rest image_counter
          end
      | None => api_images rest image_counter
      end
  end.

(** The body of the loop of [_elements_to_topics] (lines 460-503): the
    topic made of one element, if it is long enough. *)
Definition topic_of (element : Element) (images : list ExtractedImage.t)
           (topic_counter : Z) : option QuestionBlock.t :=
  let element_text := text element in
  if (String.length (strip element_text) <? 50)%nat then None
  else
    let page_num :=
      match page_number element with Some p => p | None => 0 end in
    let page_images :=
      filter (fun img => ExtractedImage.page_number img =? page_num) images in
    let has_images := (0 <? List.length page_images)%nat in
    let classification := classify element_text has_images in
    let subject := _extract_subject element_text in
    let topic_id := ("topic_" ++ PyStr.format_0d 4 topic_counter)%string in
    Some (QuestionBlock.mk (question_type classification)
                           element_text
                           (extracted_options classification)
                           (correct_answer classification)
                           (rationale classification)
                           subject
                           page_num
                           (confidence classification)
                           (Some [])
                           (Some topic_id)).

Fixpoint topics_from (elements : list Element) (images : list ExtractedImage.t)
         (topic_counter : Z) : list QuestionBlock.t :=
  match elements with
  | [] => []
  | element :: rest =>
      match topic_of element images topic_counter with
      | Some topic => topic :: topics_from rest images (topic_counter + 1)
      | None => topics_from rest images topic_counter
      end
  end.

Definition _elements_to_topics (elements : list Element)
           (images : list ExtractedImage.t) : list QuestionBlock.t :=
  topics_from elements images 1.

(** [extract_content_with_images] with an API key (lines 310-334):
    [result_elements] is the API's answer and [elements] what
    [elements_from_dicts] makes of it.  The associator works on the
    image objects of [images], which are returned with the topics. *)
Definition extract_content_with_images
           (result_elements : list ApiElement) (elements : list Element)
  : list QuestionBlock.t * list ExtractedImage.t :=
  let images := api_images result_elements 1 in
  let topics := _elements_to_topics elements images in
  ImageExtractor.associate_images_with_topics topics images.

End Extraction.

End Pipeline.

(* end of further functions *)

(** * Vocabulary of the statements *)

(** The two entries of the scorer's dictionary the claims read. *)
Definition score_entry (d : dict) : option pyval := Dict.get d "score".
Definition likely_entry (d : dict) : option pyval := Dict.get d "likely_image".


(** Binary64 arithmetic: the float 1.0 in the specification format, and
    the invariant of the right shifts of rounding: the mantissa stays at
    most [2^k], and when it is [2^k] nothing has been shifted out. *)
Module F64.

Definition sf_one : spec_float := S754_finite false 4503599627370496 (-52).

Definition capped (mrs : shr_record) (k : Z) : Prop :=
  0 <= shr_m mrs <= 2 ^ k
  /\ (shr_m mrs = 2 ^ k -> shr_r mrs = false /\ shr_s mrs = false).

(** Case analysis on every comparison of exponents and mantissas. *)
Ltac cmp_cases :=
  repeat match goal with
  | H : context [Z.compare ?a ?b] |- _ => destruct (Z.compare_spec a b)
  | |- context [Z.compare ?a ?b] => destruct (Z.compare_spec a b)
  | H : context [Pos.compare_cont Eq ?a ?b] |- _ =>
      change (Pos.compare_cont Eq a b) with (Pos.compare a b) in *;
      destruct (Pos.compare_spec a b)
  | |- context [Pos.compare_cont Eq ?a ?b] =>
      change (Pos.compare_cont Eq a b) with (Pos.compare a b) in *;
      destruct (Pos.compare_spec a b)
  end.

End F64.

(** The detector's vocabulary. *)
Module Detect.

Import PDFImageExtractor.

(** The aspect ratio and the fill ratio as the loop computes them. *)
Definition aspect_ratio (w h : Z) : float :=
  PyNum.max2 (PyNum.int_truediv w h) (PyNum.int_truediv h w).

(** The longer side over the shorter one, as Python divides [int]s. *)
Definition longer_over_shorter (w h : Z) : float :=
  PyNum.int_truediv (Z.max w h) (Z.min w h).

Definition fill_ratio (area : float) (w h : Z) : float :=
  (area / PyNum.of_int (w * h))%float.

(** The contours the detector iterates over. *)
Definition found_contours {cv : OpenCV} (gray_img text_mask : Np.ndarray)
  : list contour :=
  let kernel := Np.full (5, 5) 1 in
  findContours
    (erode (dilate (Canny (bitwise_and gray_img text_mask) 50 150) kernel 2)
           kernel 1).

(** What OpenCV guarantees of a traced contour: its area is not negative
    and not larger than its bounding rectangle. *)
Definition area_within_box {cv : OpenCV} (c : contour) : Prop :=
  let '(x, y, w, h) := boundingRect c in
  (0 <=? contourArea c)%float = true
  /\ (contourArea c <=? PyNum.of_int (w * h))%float = true.

(** [a] is listed before [b]: its confidence is not smaller. *)
Definition not_below (a b : Region) : Prop :=
  (confidence_of b <=? confidence_of a)%float = true.

Definition non_increasing (l : list Region) : Prop := StronglySorted not_below l.

(** A confidence that passed the threshold. *)
Definition passes (r : Region) : Prop :=
  (0.3 <=? confidence_of r)%float = true.

(** An OpenCV whose contour tracing answers with the listed contours,
    each given by its bounding rectangle and its area: the contours of
    one page, as the library would report them.  What the detector does
    with them does not depend on how they were traced. *)
Definition scripted (contours : list (Z * Z * Z * Z * float)) : OpenCV :=
  {| contour := Z * Z * Z * Z * float;
     Canny := fun img _ _ => img;
     dilate := fun img _ _ => img;
     erode := fun img _ _ => img;
     findContours := fun _ => contours;
     boundingRect := fst;
     contourArea := snd |}.

(** A text box padded by 5 pixels covers the pixel at (row, column). *)
Definition padded_covers (box : TextBox) (r c : Z) : Prop :=
  let '(x, y, w, h) := box in
  x - 5 <= c < x + w + 5 /\ y - 5 <= r < y + h + 5.

(** Width and height of the intersection of a region with a padded text
    box (not positive when they are disjoint). *)
Definition overlap (region : Region) (box : TextBox) : Z * Z :=
  let '(x, y, w, h, _) := region in
  let '(bx, by_, bw, bh) := box in
  (Z.min (x + w) (bx + bw + 5) - Z.max x (bx - 5),
   Z.min (y + h) (by_ + bh + 5) - Z.max y (by_ - 5)).

(** Text suppression on the output, as the specification words it: no
    returned rectangle reaches into a padded text box by more than the
    padding. *)
Definition text_suppressed (boxes : list TextBox) (regions : list Region) : Prop :=
  forall region box,
    In region regions -> In box boxes ->
    ~ (5 < fst (overlap region box) /\ 5 < snd (overlap region box)).

End Detect.

Module Assoc.

Import ImageExtractor.

(** The association rule of one topic and one image, as one boolean. *)
Definition page_distance (topic : QuestionBlock.t) (image : ExtractedImage.t) : Z :=
  Z.abs (ExtractedImage.page_number image - QuestionBlock.page_number topic).

Definition associates (topic : QuestionBlock.t) (image : ExtractedImage.t) : bool :=
  (page_distance topic image =? 0)
  || (page_distance topic image =? 1)
     && _topic_mentions_visuals (QuestionBlock.content topic).


(** [topic.images] holds the reference [i]. *)
Definition holds (topic : QuestionBlock.t) (i : nat) : Prop :=
  match QuestionBlock.images topic with
  | Some l => In i l
  | None => False
  end.

(** What one pass of the inner loop does to one image. *)
Definition mark (topic : QuestionBlock.t) (image : ExtractedImage.t)
  : ExtractedImage.t :=
  if associates topic image
  then ExtractedImage.set_associated_topic_id image (QuestionBlock.topic_id topic)
  else image.

(** The [topic_id] of the last topic of the list that takes the image. *)
Fixpoint last_assoc (topics : list QuestionBlock.t) (image : ExtractedImage.t)
  : option (option string) :=
  match topics with
  | [] => None
  | topic :: later =>
      match last_assoc later image with
      | Some tid => Some tid
      | None =>
          if associates topic image
          then Some (QuestionBlock.topic_id topic) else None
      end
  end.

Definition fresh (image : ExtractedImage.t) : Prop :=
  ExtractedImage.associated_topic_id image = None.

(** The image store after the topics [topics], one image at a time. *)
Definition final (topics : list QuestionBlock.t) (image : ExtractedImage.t)
  : ExtractedImage.t :=
  fold_left (fun im t => mark t im) topics image.

Definition set_opt (image : ExtractedImage.t) (o : option (option string))
  : ExtractedImage.t :=
  match o with
  | Some tid => ExtractedImage.set_associated_topic_id image tid
  | None => image
  end.

(** Bidirectional consistency of a state (topics, image store): a
    back-reference that is set names a topic of the state, and every
    topic it names holds the image. *)
Definition consistent (st : list QuestionBlock.t * list ExtractedImage.t) : Prop :=
  forall i image tid,
    nth_error (snd st) i = Some image ->
    ExtractedImage.associated_topic_id image = Some tid ->
    (exists topic, In topic (fst st) /\ QuestionBlock.topic_id topic = Some tid)
    /\ (forall topic, In topic (fst st) ->
                      QuestionBlock.topic_id topic = Some tid -> holds topic i).

End Assoc.

(** * Example data *)

Module Examples.

Definition image_on (page : Z) (tid : option string) : ExtractedImage.t :=
  ExtractedImage.mk "img_0001" "img_0001.png" "" "Image" page None tid.

Definition topic_on (page : Z) (content : string) (tid : string)
  : QuestionBlock.t :=
  QuestionBlock.mk "unknown" content [] None None None page 0%float
                   (Some []) (Some tid).

(** A topic on page 5 that mentions a rash, one on page 5 that mentions
    nothing visual, and images on pages 5, 6 and 7. *)
Definition rash_topic : QuestionBlock.t :=
  topic_on 5 "The client presents with a RASH on both arms." "topic_0001".
Definition plain_topic : QuestionBlock.t :=
  topic_on 5 "Calculate the drip rate for the infusion." "topic_0002".
Definition three_images : list ExtractedImage.t :=
  [ image_on 5 None; image_on 6 None; image_on 7 None ].

(** An image that arrives with a back-reference already set, far from
    the only topic. *)
Definition stale_topics : list QuestionBlock.t :=
  [ topic_on 1 "Calculate the drip rate for the infusion." "topic_0001" ].
Definition stale_images : list ExtractedImage.t :=
  [ image_on 3 (Some "topic_0001") ].

(** The two regions of the specification's scoring example, as PIL
    reports them: 300 x 200 with variance 2500 and brightness 100, and
    200 x 25 with variance 100 and brightness 250. *)
Definition diagram : Scorer.PILImage :=
  Scorer.mk (300, 200) [2500; 2500; 2500]%float [100; 100; 100]%float.
Definition text_strip : Scorer.PILImage :=
  Scorer.mk (200, 25) [100; 100; 100]%float [250; 250; 250]%float.

(** What [Image.open] raises on a file that is no image. *)
Definition decode_error : Exc.exn :=
  Exc.mk "UnidentifiedImageError" "cannot identify image file 'page_1_region_1.png'".

(** The classifier's example text, and the same text with one option per
    line. *)
Definition sata_text : string := "Select all that apply: A. Fever B. Cough".
Definition sata_lines : string :=
  "Select all that apply:" ++ String Re.newline "A. Fever"
  ++ String Re.newline "B. Cough".

(** A page of 1100 rows and 850 columns on which contour tracing finds
    the outline of a diagram, a sparse outline, a narrow one and a half
    filled one; OCR reads one label inside the diagram. *)
Definition page_shape : Z * Z := (1100, 850).
Definition page : Np.ndarray := Np.full page_shape 255.
Definition page_contours : list (Z * Z * Z * Z * float) :=
  [ (50, 50, 400, 300, 119301%float);
    (500, 700, 300, 120, 9000%float);
    (10, 900, 60, 200, 11000%float);
    (100, 400, 200, 200, 20000%float) ].
Definition label_box : PDFImageExtractor.TextBox := (200, 150, 120, 40).
Definition diagram_region : PDFImageExtractor.Region :=
  (50, 50, 400, 300, Detect.fill_ratio 119301 400 300).

End Examples.

(** * Further vocabulary and examples *)

(** Two records that agree on every field the associator must leave
    alone. *)
Module Frame.

Definition same_topic (t t' : QuestionBlock.t) : Prop :=
  QuestionBlock.question_type t' = QuestionBlock.question_type t
  /\ QuestionBlock.content t' = QuestionBlock.content t
  /\ QuestionBlock.options t' = QuestionBlock.options t
  /\ QuestionBlock.correct_answer t' = QuestionBlock.correct_answer t
  /\ QuestionBlock.rationale t' = QuestionBlock.rationale t
  /\ QuestionBlock.subject t' = QuestionBlock.subject t
  /\ QuestionBlock.page_number t' = QuestionBlock.page_number t
  /\ QuestionBlock.confidence_score t' = QuestionBlock.confidence_score t
  /\ QuestionBlock.topic_id t' = QuestionBlock.topic_id t.

Definition same_image (im im' : ExtractedImage.t) : Prop :=
  ExtractedImage.image_id im' = ExtractedImage.image_id im
  /\ ExtractedImage.filename im' = ExtractedImage.filename im
  /\ ExtractedImage.base64_data im' = ExtractedImage.base64_data im
  /\ ExtractedImage.element_type im' = ExtractedImage.element_type im
  /\ ExtractedImage.page_number im' = ExtractedImage.page_number im
  /\ ExtractedImage.bbox im' = ExtractedImage.bbox im.

End Frame.


(** Reading the validation report. *)
Module Report.

(** The sum of the counts of a histogram. *)
Fixpoint hist_total (d : list (string * atom)) : Z :=
  match d with
  | [] => 0
  | (_, AInt n) :: d' => n + hist_total d'
  | _ :: d' => hist_total d'
  end.

(** [topic.subject and topic.confidence_score > 0.3] *)
Definition is_valid (topic : QuestionBlock.t) : bool :=
  Py.truthy_str (QuestionBlock.subject topic)
  && (0.3 <? QuestionBlock.confidence_score topic)%float.

(** The number of image references a topic holds. *)
Definition image_count (topic : QuestionBlock.t) : nat :=
  match QuestionBlock.images topic with
  | Some l => List.length l
  | None => 0%nat
  end.

Definition has_images (topic : QuestionBlock.t) : bool :=
  negb (Nat.eqb (image_count topic) 0).

(** A float between 0 and 1. *)
Definition unit_float (r : float) : Prop :=
  (0 <=? r)%float = true /\ (r <=? 1)%float = true.

(** A spec float that is a zero or a finite number. *)
Definition SF_finite (x : spec_float) : bool :=
  match x with
  | S754_zero _ | S754_finite _ _ _ => true
  | _ => false
  end.

End Report.


(** Further sample data. *)
Module Samples.

(** Three topics as they leave the associator: the first holds two
    image references, the third has a subject and a high confidence. *)
Definition validated_topics : list QuestionBlock.t :=
  [ QuestionBlock.set_images Examples.rash_topic [0; 1]%nat;
    Examples.plain_topic;
    QuestionBlock.mk "multiple_choice" "Which rhythm is shown? A. Sinus B. Flutter"
                     ["Sinus"; "Flutter"] (Some "A") None (Some "CARDIOLOGY")
                     9 0.9%float (Some [2%nat]) (Some "topic_0003") ].

End Samples.


(** The words a pattern can consume, as a predicate on the pattern. *)
Module ReSpec.

Import Re.

Fixpoint all_chars (p : ascii -> bool) (w : string) : bool :=
  match w with
  | EmptyString => true
  | String c w' => p c && all_chars p w'
  end.

Fixpoint Lang (ignorecase : bool) (r : regex) (w : string) : Prop :=
  match r with
  | Empty => w = EmptyString
  | Never => False
  | One a => exists c, w = String c EmptyString /\ accepts ignorecase a c = true
  | Rep a min _ =>
      all_chars (accepts ignorecase a) w = true /\ (min <= String.length w)%nat
  | Opt a =>
      w = EmptyString
      \/ exists c, w = String c EmptyString /\ accepts ignorecase a c = true
  | Seq r1 r2 =>
      exists w1 w2,
        w = (w1 ++ w2)%string /\ Lang ignorecase r1 w1 /\ Lang ignorecase r2 w2
  | Alt r1 r2 => Lang ignorecase r1 w \/ Lang ignorecase r2 w
  | Group r1 => Lang ignorecase r1 w
  end.

(** The rest of a line: nothing, or what starts with a newline. *)
Definition at_line_end (s : string) : Prop :=
  s = EmptyString \/ exists rest, s = String newline rest.

(** Any character but a full stop; any character but a line break. *)
Definition not_dot (c : ascii) : bool := negb (Ascii.eqb "." c).
Definition not_nl (c : ascii) : bool := negb (Ascii.eqb newline c).

End ReSpec.


(** Reading the OCR rows and the text boxes. *)
Module TextSpec.

Import PDFImageExtractor TextRegions.

(** Row [i] of the OCR data is complete, has a confidence above 30 and
    a size above 10 x 10, and [box] is its rectangle. *)
Definition read_from (data : OcrData) (i : nat) (box : TextBox) : Prop :=
  exists n x y w h,
    nth_error (conf data) i = Some (Some n) /\ 30 < n
    /\ nth_error (left data) i = Some x /\ nth_error (top data) i = Some y
    /\ nth_error (width data) i = Some w /\ nth_error (height data) i = Some h
    /\ box = (x, y, w, h) /\ 10 < w /\ 10 < h.

(** OCR failed, or one of the rows the loop visits has a confidence that
    is missing or is no number. *)
Definition unreadable (ocr : Exc.result OcrData) : Prop :=
  (exists e, ocr = Exc.Raise e)
  \/ exists data i,
      ocr = Exc.Ok data /\ (i < List.length (text data))%nat
      /\ (nth_error (conf data) i = None
          \/ nth_error (conf data) i = Some None).

(** The far edges of the padded box are not negative (OCR reports boxes
    on the page). *)
Definition on_page (box : TextBox) : Prop :=
  let '(x, y, w, h) := box in 0 <= x + w + 5 /\ 0 <= y + h + 5.

End TextSpec.

Module OcrSamples.

(** Three OCR rows: a word, a speck that is too small, and a guess of
    low confidence. *)
Definition three_rows : TextRegions.OcrData :=
  TextRegions.mk ["Figure"; "."; "l"]
                 [Some 91; Some 88; Some 12]
                 [200; 10; 500] [150; 10; 40] [120; 4; 30] [40; 4; 30].

(** The same rows with a confidence that [int] cannot read. *)
Definition broken_rows : TextRegions.OcrData :=
  TextRegions.mk ["Figure"; "."; "l"]
                 [Some 91; None; Some 12]
                 [200; 10; 500] [150; 10; 40] [120; 4; 30] [40; 4; 30].

End OcrSamples.


(** Reading the entries of the analysis report. *)
Module AnalysisSpec.

Import Analysis.

(** The score of an entry, 0 where the analysis has none. *)
Definition entry_score (e : Entry) : Z :=
  as_int (Dict.get_default (snd e) "score" (PInt 0)).

(** An entry of [likely_images]: no error, [likely_image] is true and
    the score lies between 45 and 80. *)
Definition is_likely (e : Entry) : Prop :=
  Dict.mem (snd e) "error" = false
  /\ likely_entry (snd e) = Some (PBool true)
  /\ exists n, score_entry (snd e) = Some (PInt n) /\ 45 <= n <= 80.

(** An entry of [likely_text]: no error, [likely_image] is false and
    the score is at most 40. *)
Definition is_text (e : Entry) : Prop :=
  Dict.mem (snd e) "error" = false
  /\ likely_entry (snd e) = Some (PBool false)
  /\ exists n, score_entry (snd e) = Some (PInt n) /\ 0 <= n <= 40.

Definition is_error (e : Entry) : Prop := Dict.mem (snd e) "error" = true.

Definition by_score_desc (l : list Entry) : Prop :=
  StronglySorted (fun a b => entry_score b <= entry_score a) l.

(** Files for the examples: every path exists; [diagram.png] decodes to
    the diagram of the scoring example, [strip.png] to its text strip,
    anything else is no image. *)
Definition sample_open (path : string) : Exc.result Scorer.PILImage :=
  if String.eqb path "diagram.png" then Exc.Ok Examples.diagram
  else if String.eqb path "strip.png" then Exc.Ok Examples.text_strip
  else Exc.Raise Examples.decode_error.

Definition sample_region (path : string) (index : Z) : RegionInfo :=
  mk "detected_region" 89 index path path [0; 0; 300; 200] 300 200
     0.5%float "75617085".

Definition sample_regions : list RegionInfo :=
  [ sample_region "strip.png" 1; sample_region "diagram.png" 2;
    sample_region "broken.png" 3 ].

End AnalysisSpec.


(** Numbers that [int] and [str] convert. *)
Module NumSpec.

(** The smallest number that needs more than 4300 decimal digits. *)
Definition int_limit : Z := 10 ^ Z.of_nat PyStr.max_str_digits.

End NumSpec.

(* end of further vocabulary *)

(** * Properties of the Image-Topic Associator *)

Section AssociatorFacts.

Import ImageExtractor Assoc.

Lemma associates_set_id (topic : QuestionBlock.t) (image : ExtractedImage.t) tid :
  associates topic (ExtractedImage.set_associated_topic_id image tid)
  = associates topic image.
Proof. reflexivity. Qed.

Lemma associates_set_images (topic : QuestionBlock.t) l image :
  associates (QuestionBlock.set_images topic l) image = associates topic image.
Proof. reflexivity. Qed.

Lemma associates_mark t topic image :
  associates topic (mark t image) = associates topic image.
Proof. unfold mark. now destruct (associates t image). Qed.

(** The loop body branches exactly on [associates]. *)
Lemma scan_images_cons topic idx image rest :
  scan_images topic idx (image :: rest)
  = ( (if associates topic image then [idx] else []) ++ fst (scan_images topic (S idx) rest),
      mark topic image :: snd (scan_images topic (S idx) rest) )%list.
Proof.
  cbn [scan_images]. unfold mark, associates, page_distance.
  destruct (scan_images topic (S idx) rest) as [ti rest'].
  destruct (Z.abs _ =? 0); [reflexivity|].
  cbn [orb]. destruct (_ && _); reflexivity.
Qed.

Lemma scan_images_store topic images : forall idx,
  snd (scan_images topic idx images) = map (mark topic) images.
Proof.
  induction images as [|image rest IH]; intros idx; [reflexivity|].
  rewrite scan_images_cons. cbn [snd map]. now rewrite IH.
Qed.

(** The references collected are the positions of the images taken. *)
Lemma scan_images_refs topic images : forall idx i,
  In i (fst (scan_images topic idx images)) <->
  exists image,
    (idx <= i)%nat /\ nth_error images (i - idx) = Some image
    /\ associates topic image = true.
Proof.
  induction images as [|image rest IH]; intros idx i.
  - cbn. split; [tauto|]. intros (im & _ & H & _).
    now destruct (i - idx)%nat.
  - rewrite scan_images_cons. cbn [fst]. rewrite in_app_iff, IH. split.
    + intros [H | (im & Hle & Hn & Ha)].
      * destruct (associates topic image) eqn:E; [|contradiction].
        destruct H as [<- | []]. exists image.
        rewrite Nat.sub_diag. auto.
      * exists im. split; [lia|]. split; [|exact Ha].
        replace (i - idx)%nat with (S (i - S idx)) by lia. exact Hn.
    + intros (im & Hle & Hn & Ha).
      destruct (Nat.eq_dec i idx) as [-> | Hne].
      * rewrite Nat.sub_diag in Hn. injection Hn as ->.
        rewrite Ha. left. now left.
      * right. exists im. split; [lia|]. split; [|exact Ha].
        replace (i - idx)%nat with (S (i - S idx)) in Hn by lia. exact Hn.
Qed.

(** The references depend on the images through [associates] only, which
    the marking leaves alone. *)
Lemma scan_images_refs_mark t topic images : forall idx,
  fst (scan_images topic idx (map (mark t) images))
  = fst (scan_images topic idx images).
Proof.
  induction images as [|image rest IH]; intros idx; [reflexivity|].
  cbn [map]. rewrite !scan_images_cons. cbn [fst].
  now rewrite associates_mark, IH.
Qed.

Lemma scan_images_set_images topic l images : forall idx,
  scan_images (QuestionBlock.set_images topic l) idx images
  = scan_images topic idx images.
Proof.
  induction images as [|image rest IH]; intros idx; [reflexivity|].
  rewrite !scan_images_cons, IH. reflexivity.
Qed.

Lemma associates_final topics : forall topic image,
  associates topic (final topics image) = associates topic image.
Proof.
  induction topics as [|t ts IH]; intros topic image; [reflexivity|].
  unfold final in *. cbn [fold_left]. now rewrite IH, associates_mark.
Qed.

Lemma scan_images_refs_final topics topic images idx :
  fst (scan_images topic idx (map (final topics) images))
  = fst (scan_images topic idx images).
Proof.
  revert images. induction topics as [|t ts IH]; intros images.
  - unfold final. cbn. now rewrite map_id.
  - replace (map (final (t :: ts)) images)
      with (map (final ts) (map (mark t) images))
      by (rewrite map_map; reflexivity).
    now rewrite IH, scan_images_refs_mark.
Qed.

(** The whole call in closed form. *)
Lemma associate_closed_form topics : forall images,
  associate_images_with_topics topics images
  = ( map (fun t => QuestionBlock.set_images t (fst (scan_images t 0 images)))
          topics,
      map (final topics) images ).
Proof.
  induction topics as [|t ts IH]; intros images.
  - unfold final. cbn. now rewrite map_id.
  - cbn [associate_images_with_topics].
    pose proof (scan_images_store t images 0%nat) as Hs.
    destruct (scan_images t 0 images) as [ti images1] eqn:E.
    cbn [snd] in Hs. subst images1. rewrite IH. cbn [map].
    rewrite E. cbn [fst]. f_equal.
    + f_equal. apply map_ext. intros t'.
      now rewrite scan_images_refs_mark.
    + rewrite map_map. reflexivity.
Qed.

Lemma last_assoc_mark t topics image :
  last_assoc topics (mark t image) = last_assoc topics image.
Proof.
  induction topics as [|t' ts IH]; [reflexivity|].
  cbn [last_assoc]. now rewrite IH, associates_mark.
Qed.

(** The last topic that takes an image decides its back-reference. *)
Lemma final_last_assoc topics : forall image,
  final topics image = set_opt image (last_assoc topics image).
Proof.
  induction topics as [|t ts IH]; intros image; [reflexivity|].
  unfold final in *. cbn [fold_left last_assoc].
  rewrite IH, last_assoc_mark.
  destruct (last_assoc ts image) as [tid|]; unfold mark;
    destruct (associates t image); reflexivity.
Qed.

Lemma last_assoc_set_opt topics image o :
  last_assoc topics (set_opt image o) = last_assoc topics image.
Proof.
  induction topics as [|t ts IH]; [reflexivity|].
  cbn [last_assoc]. rewrite IH.
  now destruct o.
Qed.

Lemma last_assoc_set_images (f : QuestionBlock.t -> list nat) topics image :
  last_assoc (map (fun t => QuestionBlock.set_images t (f t)) topics) image
  = last_assoc topics image.
Proof.
  induction topics as [|t ts IH]; [reflexivity|].
  cbn [map last_assoc]. now rewrite IH.
Qed.

(** A back-reference found by [last_assoc] names a topic of the list that
    takes the image, and no later topic takes it. *)
Lemma last_assoc_some topics image tid :
  last_assoc topics image = Some tid ->
  exists k topic,
    nth_error topics k = Some topic
    /\ QuestionBlock.topic_id topic = tid
    /\ associates topic image = true
    /\ forall k' topic', (k < k')%nat -> nth_error topics k' = Some topic' ->
                         associates topic' image = false.
Proof.
  induction topics as [|t ts IH]; [discriminate|].
  cbn [last_assoc]. destruct (last_assoc ts image) as [tid'|] eqn:E.
  - intros [= ->]. destruct (IH eq_refl) as (k & topic & Hk & Hid & Ha & Hlast).
    exists (S k), topic. repeat split; auto.
    intros [|k'] topic' Hlt Hn; [lia|]. apply (Hlast k'); [lia|exact Hn].
  - destruct (associates t image) eqn:Ha; [|discriminate].
    intros [= <-]. exists 0%nat, t. repeat split; auto.
    intros [|k'] topic' Hlt Hn; [lia|]. cbn in Hn.
    clear -E Hn. revert k' Hn.
    induction ts as [|t' ts' IH']; intros k' Hn; [now destruct k'|].
    cbn [last_assoc] in E.
    destruct (last_assoc ts' image) eqn:E'; [discriminate|].
    destruct (associates t' image) eqn:Ha'; [discriminate|].
    destruct k' as [|k']; cbn in Hn.
    + now injection Hn as <-.
    + now apply (IH' eq_refl k').
Qed.

Lemma last_assoc_none topics image :
  last_assoc topics image = None ->
  forall topic, In topic topics -> associates topic image = false.
Proof.
  induction topics as [|t ts IH]; [intros _ ? []|].
  cbn [last_assoc]. destruct (last_assoc ts image) eqn:E; [discriminate|].
  destruct (associates t image) eqn:Ha; [discriminate|].
  intros _ topic [<- | Hin]; auto.
Qed.


End AssociatorFacts.

Section AssociatorClaims.

Import ImageExtractor Assoc.



(** The three cases of the specification's example: same page, adjacent
    page with and without a keyword, and two pages away. *)
Example associate_examples :
  map QuestionBlock.images
      (fst (associate_images_with_topics
              [Examples.rash_topic; Examples.plain_topic]
              Examples.three_images))
  = [ Some [0; 1]%nat; Some [0]%nat ].
Proof. vm_compute. reflexivity. Qed.

(** C2, as stated, fails: an image that enters with a back-reference
    and is taken by no topic keeps it, and the topic it names does not
    hold the image. *)
Lemma stale_back_reference :
  NoDup (map QuestionBlock.topic_id Examples.stale_topics)
  /\ ~ consistent (associate_images_with_topics
                     Examples.stale_topics Examples.stale_images).
Proof.
  split.
  - repeat constructor. intros [].
  - intros H.
    destruct (H 0%nat (Examples.image_on 3 (Some "topic_0001")) "topic_0001"
                eq_refl eq_refl) as [_ Hall].
    apply (Hall (QuestionBlock.set_images
                   (Examples.topic_on
                      1 "Calculate the drip rate for the infusion."
                      "topic_0001") [])).
    + left. reflexivity.
    + reflexivity.
Qed.

(** C2, amended.  For topics with distinct ids and images that enter
    without a back-reference, the state the associator leaves is
    consistent: an [associated_topic_id] that is set names a topic of the
    result, and the topic it names holds the image.  Whatever the input,
    an image taken by several topics ends with the id of the last of them
    in list order. *)
Theorem associate_consistent :
  forall topics images,
    NoDup (map QuestionBlock.topic_id topics) ->
    Forall fresh images ->
    consistent (associate_images_with_topics topics images)
    /\ (forall i image k topic,
          nth_error images i = Some image ->
          nth_error topics k = Some topic ->
          associates topic image = true ->
          (forall k' topic', (k < k')%nat -> nth_error topics k' = Some topic' ->
                             associates topic' image = false) ->
          exists image',
            nth_error (snd (associate_images_with_topics topics images)) i
            = Some image'
            /\ ExtractedImage.associated_topic_id image'
               = QuestionBlock.topic_id topic).
Proof.
  intros topics images Hnd Hfresh. rewrite associate_closed_form. split.
  - intros i image' tid Hi Hset. cbn [fst snd] in *.
    rewrite nth_error_map in Hi.
    destruct (nth_error images i) as [image|] eqn:Hn; [|discriminate].
    injection Hi as <-. rewrite final_last_assoc in Hset.
    assert (Hf : fresh image).
    { rewrite Forall_forall in Hfresh. apply Hfresh.
      eapply nth_error_In; eassumption. }
    destruct (last_assoc topics image) as [tid0|] eqn:Hl;
      [|cbn in Hset; unfold fresh in Hf; congruence].
    cbn in Hset. subst tid0.
    destruct (last_assoc_some _ _ _ Hl) as (k & topic & Hk & Hid & Ha & _).
    assert (Hheld : holds (QuestionBlock.set_images topic
                             (fst (scan_images topic 0 images))) i).
    { unfold holds. cbn. rewrite scan_images_refs, Nat.sub_0_r.
      exists image. repeat split; [lia | exact Hn | exact Ha]. }
    split.
    + exists (QuestionBlock.set_images topic (fst (scan_images topic 0 images))).
      split; [|exact Hid].
      apply in_map_iff. exists topic. split; [reflexivity|].
      eapply nth_error_In; eassumption.
    + intros topic' Hin Hid'.
      apply in_map_iff in Hin. destruct Hin as (t' & <- & Hin').
      cbn in Hid'.
      destruct (In_nth_error _ _ Hin') as (k' & Hk').
      assert (k' = k) as ->.
      { apply (proj1 (NoDup_nth_error _) Hnd).
        - rewrite length_map. apply nth_error_Some. congruence.
        - rewrite !nth_error_map, Hk, Hk'. cbn. congruence. }
      assert (t' = topic) as -> by congruence.
      exact Hheld.
  - intros i image k topic Hi Hk Ha Hlast. cbn [snd].
    exists (final topics image). split; [now rewrite nth_error_map, Hi|].
    rewrite final_last_assoc.
    destruct (last_assoc topics image) as [tid|] eqn:Hl.
    + destruct (last_assoc_some _ _ _ Hl) as (k0 & t0 & Hk0 & Hid0 & Ha0 & Hlast0).
      cbn. destruct (Nat.lt_trichotomy k k0) as [Hlt | [-> | Hgt]].
      * rewrite (Hlast k0 t0 Hlt Hk0) in Ha0. discriminate.
      * congruence.
      * rewrite (Hlast0 k topic Hgt Hk) in Ha. discriminate.
    + apply nth_error_In in Hk.
      rewrite (last_assoc_none _ _ Hl topic Hk) in Ha. discriminate.
Qed.

Lemma associate_consistent_witness :
  consistent (associate_images_with_topics
                [Examples.rash_topic; Examples.plain_topic]
                Examples.three_images)
  /\ (forall i image k topic,
        nth_error Examples.three_images i = Some image ->
        nth_error [Examples.rash_topic; Examples.plain_topic] k = Some topic ->
        associates topic image = true ->
        (forall k' topic', (k < k')%nat ->
           nth_error [Examples.rash_topic; Examples.plain_topic] k' = Some topic' ->
           associates topic' image = false) ->
        exists image',
          nth_error (snd (associate_images_with_topics
                            [Examples.rash_topic; Examples.plain_topic]
                            Examples.three_images)) i
          = Some image'
          /\ ExtractedImage.associated_topic_id image'
             = QuestionBlock.topic_id topic).
Proof.
  apply (associate_consistent [Examples.rash_topic; Examples.plain_topic]
                              Examples.three_images).
  - repeat constructor; simpl; intuition discriminate.
  - repeat constructor.
Defined.

(** The same image taken by both topics of page 5 ends with the id of
    the second one, and both topics hold it. *)
Example last_topic_wins :
  map ExtractedImage.associated_topic_id
      (snd (associate_images_with_topics
              [Examples.rash_topic; Examples.plain_topic]
              Examples.three_images))
  = [ Some "topic_0002"; Some "topic_0001"; None ].
Proof. vm_compute. reflexivity. Qed.

(** C10.  Running the associator a second time on the state the first
    run left changes neither a topic's [images] list nor an image's
    [associated_topic_id]. *)
Theorem associate_idempotent :
  forall topics images,
    let st := associate_images_with_topics topics images in
    associate_images_with_topics (fst st) (snd st) = st.
Proof.
  intros topics images st. subst st.
  rewrite (associate_closed_form topics images). cbn [fst snd].
  rewrite associate_closed_form. f_equal.
  - rewrite map_map. apply map_ext. intros t.
    rewrite scan_images_set_images, scan_images_refs_final. reflexivity.
  - rewrite map_map. apply map_ext. intros image.
    rewrite !final_last_assoc.
    rewrite last_assoc_set_images, last_assoc_set_opt.
    destruct (last_assoc topics image); reflexivity.
Qed.

End AssociatorClaims.

(** * Properties of the Image Quality Scorer *)

Section ScorerClaims.

Import Scorer.

Lemma analyze_entries img st :
  statistics img = Exc.Ok st ->
  let '(area, variance, brightness, aspect_ratio) := st in
  let score := score_of area variance brightness aspect_ratio in
  score_entry (analyze_image_content (Exc.Ok img)) = Some (PInt score)
  /\ likely_entry (analyze_image_content (Exc.Ok img)) = Some (PBool (score >? 40)).
Proof.
  intros Hst. destruct st as [[[area variance] brightness] aspect_ratio].
  unfold analyze_image_content, analyze. cbn [Exc.bind].
  destruct (size img) as [width height]. rewrite Hst. cbn [Exc.bind].
  split; reflexivity.
Qed.

Lemma analyze_failure img e :
  statistics img = Exc.Raise e ->
  analyze_image_content (Exc.Ok img)
  = [ ("error", PStr (Exc.msg e)); ("likely_image", PBool false) ].
Proof.
  intros Hst. unfold analyze_image_content, analyze. cbn [Exc.bind].
  destruct (size img) as [width height]. rewrite Hst. reflexivity.
Qed.

(** C5.  A region with area 60000, mean variance 2500, aspect ratio 1.5
    and mean brightness 100 gets score 80 and [likely_image = true]; one
    with area 5000, variance 100, aspect ratio 8 and brightness 250 gets
    score 0 and [likely_image = false]; and for every input
    [likely_image] is true exactly when there is a score and it exceeds
    40. *)
Theorem scorer_examples_and_threshold :
  (forall img,
      statistics img = Exc.Ok (60000, 2500%float, 100%float, 1.5%float) ->
      score_entry (analyze_image_content (Exc.Ok img)) = Some (PInt 80)
      /\ likely_entry (analyze_image_content (Exc.Ok img)) = Some (PBool true))
  /\ (forall img,
         statistics img = Exc.Ok (5000, 100%float, 250%float, 8%float) ->
         score_entry (analyze_image_content (Exc.Ok img)) = Some (PInt 0)
         /\ likely_entry (analyze_image_content (Exc.Ok img)) = Some (PBool false))
  /\ (forall opened,
         likely_entry (analyze_image_content opened) = Some (PBool true)
         <-> exists score,
             score_entry (analyze_image_content opened) = Some (PInt score)
             /\ 40 < score).
Proof.
  split; [|split].
  - intros img Hst. exact (analyze_entries img _ Hst).
  - intros img Hst. exact (analyze_entries img _ Hst).
  - intros [img | e].
    + destruct (statistics img) as [st | e] eqn:Hst.
      * pose proof (analyze_entries img st Hst) as H.
        destruct st as [[[area variance] brightness] aspect_ratio].
        cbv zeta in H. destruct H as [Hs Hl]. rewrite Hs, Hl. split.
        -- intros [= H]. eexists. split; [reflexivity|].
           apply Z.gtb_lt in H. lia.
        -- intros (score & [= <-] & Hgt). do 2 f_equal.
           unfold PBool. do 2 f_equal. apply Z.gtb_lt. lia.
      * rewrite (analyze_failure img e Hst). split.
        -- discriminate.
        -- intros (score & H & _). discriminate.
    + split.
      * discriminate.
      * intros (score & H & _). discriminate.
Qed.

Lemma scorer_examples_witness :
  (score_entry (analyze_image_content (Exc.Ok Examples.diagram)) = Some (PInt 80)
   /\ likely_entry (analyze_image_content (Exc.Ok Examples.diagram))
      = Some (PBool true))
  /\ (score_entry (analyze_image_content (Exc.Ok Examples.text_strip))
      = Some (PInt 0)
      /\ likely_entry (analyze_image_content (Exc.Ok Examples.text_strip))
         = Some (PBool false)).
Proof.
  split.
  - apply (proj1 scorer_examples_and_threshold Examples.diagram).
    vm_compute. reflexivity.
  - apply (proj1 (proj2 scorer_examples_and_threshold) Examples.text_strip).
    vm_compute. reflexivity.
Defined.

(** C6, as stated, fails: the dictionary returned after a decode error
    has no score at all, so its score is not 0. *)
Lemma decode_error_has_no_score :
  score_entry (analyze_image_content (Exc.Raise Examples.decode_error))
  <> Some (PInt 0).
Proof. vm_compute. discriminate. Qed.

(** C6, amended.  When decoding fails the scorer returns, without
    raising, the dictionary that holds the error message and
    [likely_image = false]; that dictionary has no [score] entry, so a
    caller that reads the score with the default 0, as the report does
    with [analysis.get('score', 0)], reads 0. *)
Theorem decode_error_result :
  forall e,
    analyze_image_content (Exc.Raise e)
    = [ ("error", PStr (Exc.msg e)); ("likely_image", PBool false) ]
    /\ likely_entry (analyze_image_content (Exc.Raise e)) = Some (PBool false)
    /\ score_entry (analyze_image_content (Exc.Raise e)) = None
    /\ Dict.get_default (analyze_image_content (Exc.Raise e)) "score" (PInt 0)
       = PInt 0.
Proof. intros e. repeat split. Qed.

End ScorerClaims.

(** * Properties of the Validation Aggregator *)

Section ValidationClaims.

Import Validation.

Lemma truediv_not_zero_division a b :
  b <> 0 -> PyNum.truediv a b <> Exc.Raise Exc.ZeroDivisionError.
Proof.
  intros Hb. unfold PyNum.truediv.
  destruct (Z.eqb_spec b 0) as [|_]; [contradiction|].
  destruct (is_infinity _); discriminate.
Qed.

Lemma float_truediv_not_zero_division x n :
  n <> 0 -> PyNum.float_truediv_int x n <> Exc.Raise Exc.ZeroDivisionError.
Proof.
  intros Hn. unfold PyNum.float_truediv_int.
  destruct (Z.eqb_spec n 0) as [|_]; [contradiction|].
  destruct (is_infinity _); discriminate.
Qed.

Lemma bind_not_zero_division {A B} (r : Exc.result A) (k : A -> Exc.result B) :
  r <> Exc.Raise Exc.ZeroDivisionError ->
  (forall a, k a <> Exc.Raise Exc.ZeroDivisionError) ->
  Exc.bind r k <> Exc.Raise Exc.ZeroDivisionError.
Proof.
  intros Hr Hk. destruct r as [a|e]; cbn; [apply Hk|].
  intros [= ->]. now apply Hr.
Qed.

(** No input at all makes the aggregator divide by zero: every division
    is reached with a divisor that is a positive length. *)
Lemma validation_never_divides_by_zero topics images :
  enhanced_validation topics images <> Exc.Raise Exc.ZeroDivisionError.
Proof.
  unfold enhanced_validation.
  destruct (Z.eqb_spec (Z.of_nat (List.length topics)) 0) as [|Hn];
    [discriminate|].
  set (a := fold_left step topics _).
  assert (Hpos : (Z.of_nat (List.length topics) >? 0) = true)
    by (apply Z.gtb_lt; lia).
  rewrite Hpos.
  apply bind_not_zero_division.
  - destruct (confidence_scores a) as [|c cs]; [discriminate|].
    apply bind_not_zero_division; [|discriminate].
    apply float_truediv_not_zero_division. cbn [List.length]. lia.
  - intros avg. apply bind_not_zero_division.
    + apply bind_not_zero_division; [|discriminate].
      now apply truediv_not_zero_division.
    + intros rate. apply bind_not_zero_division; [|discriminate].
      apply bind_not_zero_division; [|discriminate].
      now apply truediv_not_zero_division.
Qed.

(** C9.  On an empty topic list, whatever the images, the aggregator
    returns the error marker as an ordinary value and no division is
    reached; and on no input does it raise a division by zero. *)
Theorem validation_empty_topics :
  (forall images,
      enhanced_validation [] images
      = Exc.Ok [ ("error", PStr "No topics extracted") ])
  /\ (forall topics images,
         enhanced_validation topics images <> Exc.Raise Exc.ZeroDivisionError).
Proof.
  split.
  - intros images. reflexivity.
  - exact validation_never_divides_by_zero.
Qed.

End ValidationClaims.

(** * Properties of the Content Classifier *)

Section ClassifierClaims.

Import EnhancedQuestionClassifier.

(** C7, as stated, fails: on the one-line example the option pattern
    takes the rest of the line after the first label as one option. *)
Lemma sata_example_options_differ :
  ~ (question_type (classify Examples.sata_text false) = "sata"
     /\ extracted_options (classify Examples.sata_text false)
        = ["Fever"; "Cough"]).
Proof. vm_compute. intros [_ H]. discriminate. Qed.

(** C7, amended.  The example text classifies as [sata] and its options
    are the single string that follows the first label up to the end of
    the line; with one option per line the options are Fever and
    Cough. *)
Theorem sata_example :
  question_type (classify Examples.sata_text false) = "sata"
  /\ extracted_options (classify Examples.sata_text false) = ["Fever B. Cough"]
  /\ question_type (classify Examples.sata_lines false) = "sata"
  /\ extracted_options (classify Examples.sata_lines false) = ["Fever"; "Cough"].
Proof. vm_compute. repeat split. Qed.

End ClassifierClaims.

(** * Facts of binary64 arithmetic

    The primitive operations are specified by the standard library's
    [FloatAxioms] in terms of [SpecFloat]; the order facts and the bound
    on a quotient below are derived from that specification. *)

Section Float64Facts.

Import F64.

Lemma SFcompare_antisym x y :
  SFcompare y x = option_map CompOpp (SFcompare x y).
Proof.
  destruct x as [sx|sx| |sx mx ex], y as [sy|sy| |sy my ey]; cbn;
    try reflexivity; try (destruct sx; reflexivity);
    try (destruct sy; reflexivity); try (destruct sx, sy; reflexivity).
  destruct sx, sy; cbn; try reflexivity;
    rewrite (Z.compare_antisym ex ey);
    destruct (ex ?= ey) eqn:E; cbn; try reflexivity;
    rewrite (Pos.compare_cont_antisym mx my Eq); reflexivity.
Qed.

(** Two floats that are numbers (each bounded below by something) are
    comparable. *)
Lemma leb_total (c d a b : float) :
  (c <=? a)%float = true -> (d <=? b)%float = true ->
  (a <? b)%float = false -> (b <=? a)%float = true.
Proof.
  rewrite !leb_spec, ltb_spec. unfold SFleb, SFltb.
  rewrite (SFcompare_antisym (Prim2SF a) (Prim2SF b)).
  destruct (SFcompare (Prim2SF a) (Prim2SF b)) as [[| |]|] eqn:E; cbn;
    try reflexivity; try discriminate.
  intros Ha Hb _.
  destruct (Prim2SF a) as [sa|sa| |sa ma ea], (Prim2SF b) as [sb|sb| |sb mb eb];
    cbn in E; try discriminate.
  all: try (destruct (Prim2SF c); discriminate).
  all: try (destruct (Prim2SF d); discriminate).
Qed.

Lemma leb_not_ltb (a b : float) :
  (b <=? a)%float = true -> (a <? b)%float = false.
Proof.
  rewrite leb_spec, ltb_spec. unfold SFleb, SFltb.
  rewrite (SFcompare_antisym (Prim2SF b) (Prim2SF a)).
  destruct (SFcompare (Prim2SF b) (Prim2SF a)) as [[| |]|]; cbn;
    try discriminate; reflexivity.
Qed.

Lemma ltb_leb (a b : float) :
  (a <? b)%float = true -> (a <=? b)%float = true.
Proof.
  rewrite leb_spec, ltb_spec. unfold SFleb, SFltb.
  destruct (SFcompare _ _) as [[| |]|]; try discriminate; reflexivity.
Qed.

Lemma SFleb_trans x y z :
  SFleb x y = true -> SFleb y z = true -> SFleb x z = true.
Proof.
  unfold SFleb.
  destruct x as [sx|sx| |sx mx ex], y as [sy|sy| |sy my ey],
           z as [sz|sz| |sz mz ez];
    cbn; try discriminate; try reflexivity;
    try (destruct sx; cbn; try discriminate; try reflexivity);
    try (destruct sy; cbn; try discriminate; try reflexivity);
    try (destruct sz; cbn; try discriminate; try reflexivity).
  all: intros H1 H2; cmp_cases; subst; cbn in *;
    try discriminate; try reflexivity; try lia.
Qed.

Lemma leb_trans (a b c : float) :
  (a <=? b)%float = true -> (b <=? c)%float = true -> (a <=? c)%float = true.
Proof. rewrite !leb_spec. apply SFleb_trans. Qed.

Lemma Prim2SF_zero : Prim2SF 0 = S754_zero false.
Proof. reflexivity. Qed.

Lemma Prim2SF_one : Prim2SF 1 = sf_one.
Proof. reflexivity. Qed.

Lemma Prim2SF_threshold : Prim2SF 0.3 = S754_finite false 5404319552844595 (-54).
Proof. reflexivity. Qed.

Lemma leb_zero_of_threshold (a : float) :
  (0.3 <=? a)%float = true -> (0 <=? a)%float = true.
Proof.
  rewrite !leb_spec, Prim2SF_zero, Prim2SF_threshold.
  destruct (Prim2SF a) as [sa|sa| |sa ma ea]; cbn;
    try discriminate; try reflexivity;
    destruct sa; cbn; try discriminate; reflexivity.
Qed.

Lemma fexp_eq e : fexp prec emax e = Z.max (e - 53) (-1074).
Proof. reflexivity. Qed.

Lemma digits2_pos_bounds p :
  2 ^ (Zpos (digits2_pos p) - 1) <= Zpos p < 2 ^ Zpos (digits2_pos p).
Proof.
  induction p as [p IH|p IH|]; cbn [digits2_pos].
  - rewrite Pos2Z.inj_succ, Z.pow_succ_r by lia.
    replace (Z.succ (Zpos (digits2_pos p)) - 1)
      with (Z.succ (Zpos (digits2_pos p) - 1)) by lia.
    rewrite Z.pow_succ_r by lia. lia.
  - rewrite Pos2Z.inj_succ, Z.pow_succ_r by lia.
    replace (Z.succ (Zpos (digits2_pos p)) - 1)
      with (Z.succ (Zpos (digits2_pos p) - 1)) by lia.
    rewrite Z.pow_succ_r by lia. lia.
  - cbn. lia.
Qed.

Lemma Zdigits2_le m k :
  0 <= k -> 0 <= m <= 2 ^ k -> 0 <= Zdigits2 m <= k + 1.
Proof.
  intros Hk [Hm0 Hm]. destruct m as [|p|p]; cbn; [lia| |lia].
  pose proof (digits2_pos_bounds p) as [Hlo _].
  assert (H : 2 ^ (Zpos (digits2_pos p) - 1) <= 2 ^ k) by lia.
  apply Z.pow_le_mono_r_iff in H; lia.
Qed.

Lemma shr_1_capped mrs k : 1 <= k -> capped mrs k -> capped (shr_1 mrs) (k - 1).
Proof.
  intros Hk [[H0 Hle] Hex].
  assert (Hp : 2 ^ k = 2 * 2 ^ (k - 1)).
  { replace k with (Z.succ (k - 1)) at 1 by lia. apply Z.pow_succ_r. lia. }
  assert (Hpos : 0 < 2 ^ (k - 1)) by (apply Z.pow_pos_nonneg; lia).
  destruct mrs as [m r s]. cbn [shr_m shr_r shr_s] in *.
  destruct m as [|[p|p|]|p]; cbn [shr_1 shr_m shr_r shr_s];
    unfold capped; cbn [shr_m shr_r shr_s].
  - split; [lia|]. intros; lia.
  - split; [lia|]. intros; lia.
  - split; [lia|]. intros Hq. destruct Hex as [-> ->]; [lia|]. auto.
  - split; [lia|]. intros; lia.
  - lia.
Qed.

Lemma iter_capped p : forall mrs k,
  Zpos p <= k -> capped mrs k -> capped (iter_pos shr_1 p mrs) (k - Zpos p).
Proof.
  induction p as [p IH|p IH|]; intros mrs k Hk Hc; cbn [iter_pos].
  - replace (k - Zpos p~1) with (k - 1 - Zpos p - Zpos p) by lia.
    apply IH; [lia|]. apply IH; [lia|]. apply shr_1_capped; [lia|assumption].
  - replace (k - Zpos p~0) with (k - Zpos p - Zpos p) by lia.
    apply IH; [lia|]. apply IH; [lia|]. assumption.
  - apply shr_1_capped; [lia|assumption].
Qed.

Lemma round_capped mrs k :
  capped mrs k ->
  0 <= round_nearest_even (shr_m mrs) (loc_of_shr_record mrs) <= 2 ^ k.
Proof.
  intros [[H0 Hle] Hex]. destruct mrs as [m [|] [|]]; cbn in *.
  - assert (m <> 2 ^ k) by (intros E; destruct (Hex E); discriminate). lia.
  - assert (m <> 2 ^ k) by (intros E; destruct (Hex E); discriminate).
    destruct (Z.even m); lia.
  - lia.
  - lia.
Qed.

Lemma shr_fexp_capped m e l :
  e <= -52 -> 0 <= m <= 2 ^ (- e) -> (m = 2 ^ (- e) -> l = loc_Exact) ->
  capped (fst (shr_fexp prec emax m e l)) (- snd (shr_fexp prec emax m e l))
  /\ snd (shr_fexp prec emax m e l) <= -52.
Proof.
  intros He Hm Hex. unfold shr_fexp. rewrite fexp_eq.
  pose proof (Zdigits2_le m (- e) ltac:(lia) Hm) as Hd.
  assert (Hc : capped (shr_record_of_loc m l) (- e)).
  { split.
    - destruct l as [|[| |]]; cbn; lia.
    - intros E. rewrite Hex; [cbn; auto|].
      destruct l as [|[| |]]; cbn in E; exact E. }
  set (n := Z.max (Zdigits2 m + e - 53) (-1074) - e) in *.
  assert (Hn : n <= -52 - e) by lia.
  unfold shr. destruct n as [|p|p] eqn:En; cbn [fst snd].
  - split; [assumption|lia].
  - split; [|lia].
    replace (- (e + Zpos p)) with (- e - Zpos p) by lia.
    apply iter_capped; [lia|assumption].
  - split; [assumption|lia].
Qed.

(** Rounding a value of at most 1 gives at most 1.0. *)
Lemma round_le_one q e l :
  e <= -52 -> 0 <= q <= 2 ^ (- e) -> (q = 2 ^ (- e) -> l = loc_Exact) ->
  SFleb (binary_round_aux prec emax false q e l) sf_one = true.
Proof.
  intros He Hq Hex. unfold binary_round_aux.
  pose proof (shr_fexp_capped q e l He Hq Hex) as [Hc1 He1].
  destruct (shr_fexp prec emax q e l) as [mrs1 e1]. cbn [fst snd] in *.
  pose proof (round_capped _ _ Hc1) as Hm2.
  set (m2 := round_nearest_even _ _) in *.
  pose proof (shr_fexp_capped m2 e1 loc_Exact He1 Hm2 (fun _ => eq_refl))
    as [Hc3 He3].
  destruct (shr_fexp prec emax m2 e1 loc_Exact) as [mrs3 e3].
  cbn [fst snd] in *. destruct Hc3 as [[H0 Hle] _].
  destruct (shr_m mrs3) as [|m3|m3] eqn:Em; [reflexivity| |lia].
  replace (e3 <=? emax - prec) with true
    by (symmetry; apply Z.leb_le; unfold emax, prec; lia).
  unfold SFleb, sf_one. cbn [SFcompare].
  destruct (Z.compare_spec e3 (-52)) as [Heq | Hlt | Hgt]; [|reflexivity|lia].
  subst e3.
  destruct (Pos.compare_cont Eq m3 4503599627370496) eqn:E; try reflexivity.
  apply (proj1 (Pos.compare_gt_iff m3 4503599627370496%positive)) in E.
  replace (2 ^ (- -52)) with 4503599627370496 in Hle by reflexivity.
  lia.
Qed.

Lemma bounded_inv m e :
  bounded prec emax m e = true ->
  Z.max (Zpos (digits2_pos m) + e - 53) (-1074) = e /\ e <= 971.
Proof.
  unfold bounded, canonical_mantissa. rewrite fexp_eq.
  intros H. apply andb_prop in H. destruct H as [H1 H2].
  apply Z.eqb_eq in H1. apply Z.leb_le in H2.
  unfold emax, prec in H2. lia.
Qed.

Lemma SFleb_finite_inv mx ex my ey :
  SFleb (S754_finite false mx ex) (S754_finite false my ey) = true ->
  ex < ey \/ (ex = ey /\ (mx <= my)%positive).
Proof.
  unfold SFleb. cbn [SFcompare].
  destruct (Z.compare_spec ex ey) as [-> | Hlt | Hgt].
  - intros H. right. split; [reflexivity|].
    destruct (Pos.compare_cont Eq mx my) eqn:E; try discriminate.
    + apply (proj1 (Pos.compare_eq_iff mx my)) in E. subst. apply Pos.le_refl.
    + apply (proj1 (Pos.compare_lt_iff mx my)) in E. now apply Pos.lt_le_incl.
  - intros _. now left.
  - discriminate.
Qed.

Lemma new_location_zero n : new_location n 0 = loc_Exact.
Proof.
  unfold new_location, new_location_even, new_location_odd.
  destruct (Z.even n); reflexivity.
Qed.

(** The integer quotient the division rounds: for [x <= y] it is at
    most [2^(-e)], and exact when it reaches that. *)
Lemma div_core_le_one mx ex my ey :
  bounded prec emax mx ex = true ->
  bounded prec emax my ey = true ->
  SFleb (S754_finite false mx ex) (S754_finite false my ey) = true ->
  let '(q, e, l) := SFdiv_core_binary prec emax (Zpos mx) ex (Zpos my) ey in
  e <= -52 /\ 0 <= q <= 2 ^ (- e) /\ (q = 2 ^ (- e) -> l = loc_Exact).
Proof.
  intros Hbx Hby Hle.
  apply bounded_inv in Hbx. apply bounded_inv in Hby.
  apply SFleb_finite_inv in Hle.
  destruct Hbx as [Hcx _], Hby as [Hcy _].
  pose proof (digits2_pos_bounds mx) as [Hx1 Hx2].
  pose proof (digits2_pos_bounds my) as [Hy1 Hy2].
  unfold SFdiv_core_binary. cbn [Zdigits2]. rewrite fexp_eq.
  set (d1 := Zpos (digits2_pos mx)) in *.
  set (d2 := Zpos (digits2_pos my)) in *.
  assert (Hd1 : 1 <= d1) by (unfold d1; lia).
  assert (Hd2 : 1 <= d2) by (unfold d2; lia).
  assert (HD : d1 + ex - (d2 + ey) <= 0).
  { destruct Hle as [Hlt | [-> Hm]]; [lia|].
    assert (H : 2 ^ (d1 - 1) < 2 ^ d2) by lia.
    apply Z.pow_lt_mono_r_iff in H; lia. }
  set (e' := Z.min (Z.max (d1 + ex - (d2 + ey) - 53) (-1074)) (ex - ey)).
  assert (He' : e' <= -53) by (unfold e'; lia).
  assert (He'' : e' <= ex - ey) by (unfold e'; lia).
  set (s := ex - ey - e').
  assert (Hs : 0 <= s) by (unfold s; lia).
  set (m' := match s with
             | Zpos _ => Z.shiftl (Zpos mx) s
             | 0 => Zpos mx
             | Zneg _ => 0
             end).
  assert (Hm' : m' = Zpos mx * 2 ^ s).
  { unfold m'. destruct s as [|p|p] eqn:Es.
    - cbn. lia.
    - apply Z.shiftl_mul_pow2. lia.
    - lia. }
  set (U := 2 ^ (ey - ex)).
  set (T := 2 ^ s).
  assert (HT : 0 < T) by (apply Z.pow_pos_nonneg; lia).
  assert (HU : Zpos mx <= Zpos my * U).
  { destruct Hle as [Hlt | [-> Hm]].
    - assert (Hd1' : d1 <= 53) by lia. assert (Hd2' : d2 = 53) by lia.
      assert (Hp1 : 2 ^ d1 <= 2 ^ 53) by (apply Z.pow_le_mono_r; lia).
      assert (Hp2 : 2 ^ 1 <= U) by (apply Z.pow_le_mono_r; lia).
      replace (d2 - 1) with 52 in Hy1 by lia.
      change (2 ^ 1) with 2 in *. change (2 ^ 52) with 4503599627370496 in *.
      change (2 ^ 53) with 9007199254740992 in *. nia.
    - unfold U. rewrite Z.sub_diag. change (2 ^ 0) with 1.
      apply Pos2Z.pos_le_pos in Hm. lia. }
  assert (Hpow : 2 ^ (- e') = U * T).
  { unfold U, T. rewrite <- Z.pow_add_r by lia. f_equal. unfold s. lia. }
  pose proof (Z_div_mod m' (Zpos my) ltac:(lia)) as Hdiv.
  destruct (Z.div_eucl m' (Zpos my)) as [q r].
  destruct Hdiv as [Hq Hr].
  rewrite Hpow.
  assert (Hqle : q <= U * T) by nia.
  assert (Hq0 : 0 <= q) by nia.
  split; [lia|]. split; [lia|].
  intros ->. assert (r = 0) by nia. subst r. apply new_location_zero.
Qed.

Lemma SFdiv_le_one mx ex my ey :
  bounded prec emax mx ex = true ->
  bounded prec emax my ey = true ->
  SFleb (S754_finite false mx ex) (S754_finite false my ey) = true ->
  SFleb (SFdiv prec emax (S754_finite false mx ex) (S754_finite false my ey))
        sf_one = true.
Proof.
  intros Hbx Hby Hle. cbn [SFdiv xorb].
  pose proof (div_core_le_one mx ex my ey Hbx Hby Hle) as H.
  destruct (SFdiv_core_binary prec emax (Zpos mx) ex (Zpos my) ey) as [[q e] l].
  destruct H as (He & Hq & Hex). now apply round_le_one.
Qed.

(** A quotient [x / y] of floats with [0 <= x <= y] that passed the
    threshold is at most 1. *)
Lemma div_le_one (x y : float) :
  (0 <=? x)%float = true -> (x <=? y)%float = true ->
  (0.3 <=? x / y)%float = true -> (x / y <=? 1)%float = true.
Proof.
  rewrite !leb_spec, div_spec, Prim2SF_zero, Prim2SF_one, Prim2SF_threshold.
  pose proof (Prim2SF_valid x) as Hvx. pose proof (Prim2SF_valid y) as Hvy.
  unfold SF64div.
  destruct (Prim2SF x) as [sx|sx| |sx mx ex], (Prim2SF y) as [sy|sy| |sy my ey];
    cbn [valid_binary] in *; try discriminate;
    try (destruct sx; cbn; discriminate);
    try (destruct sx, sy; cbn; discriminate).
  destruct sx; [cbn; discriminate|].
  destruct sy; [cbn; discriminate|].
  intros _ Hle _. now apply SFdiv_le_one.
Qed.

(** ** Correctly rounded quotients of integers *)

Lemma fexp_mono a b : a <= b -> fexp prec emax a <= fexp prec emax b.
Proof. rewrite !fexp_eq. lia. Qed.

Lemma fexp_ge e : -1074 <= fexp prec emax e.
Proof. rewrite fexp_eq. lia. Qed.

(** The number of binary digits is determined by the enclosing powers of two. *)
Lemma Zdigits2_unique n k :
  1 <= k -> 2 ^ (k - 1) <= n < 2 ^ k -> Zdigits2 n = k.
Proof.
  intros Hk [Hlo Hhi].
  assert (0 < 2 ^ (k - 1)) by (apply Z.pow_pos_nonneg; lia).
  destruct n as [|p|p]; [lia| |lia]. cbn.
  pose proof (digits2_pos_bounds p) as [Hl Hh].
  set (d := Zpos (digits2_pos p)) in *.
  assert (1 <= d) by (unfold d; lia).
  assert (H1 : 2 ^ (k - 1) < 2 ^ d) by lia.
  assert (H2 : 2 ^ (d - 1) < 2 ^ k) by lia.
  apply Z.pow_lt_mono_r_iff in H1; [|lia|lia].
  apply Z.pow_lt_mono_r_iff in H2; [|lia|lia]. lia.
Qed.

Lemma Zdigits2_bounds n :
  0 < n -> 1 <= Zdigits2 n /\ 2 ^ (Zdigits2 n - 1) <= n < 2 ^ Zdigits2 n.
Proof.
  destruct n as [|p|p]; try lia. intros _. cbn [Zdigits2].
  split; [lia|apply digits2_pos_bounds].
Qed.

Lemma Zdigits2_nonneg n : 0 <= Zdigits2 n.
Proof. destruct n; cbn; lia. Qed.

Lemma Zdigits2_mono m n : 0 <= m <= n -> Zdigits2 m <= Zdigits2 n.
Proof.
  intros [H0 Hle]. destruct (Z.eq_dec m 0) as [-> | Hm].
  - cbn. apply Zdigits2_nonneg.
  - destruct (Zdigits2_bounds m ltac:(lia)) as (Hd & Hl & Hh).
    destruct (Zdigits2_bounds n ltac:(lia)) as (Hd' & Hl' & Hh').
    assert (H : 2 ^ (Zdigits2 m - 1) < 2 ^ Zdigits2 n) by lia.
    apply Z.pow_lt_mono_r_iff in H; lia.
Qed.

Lemma Zdigits2_ge n k : 0 <= k -> 2 ^ k <= n -> k + 1 <= Zdigits2 n.
Proof.
  intros Hk Hn.
  assert (0 < 2 ^ k) by (apply Z.pow_pos_nonneg; lia).
  destruct (Zdigits2_bounds n ltac:(lia)) as (Hd & Hl & Hh).
  assert (H1 : 2 ^ k < 2 ^ Zdigits2 n) by lia.
  apply Z.pow_lt_mono_r_iff in H1; lia.
Qed.

(** One right shift drops one digit. *)
Lemma shr_1_digits mrs :
  0 <= shr_m mrs ->
  0 <= shr_m (shr_1 mrs)
  /\ Zdigits2 (shr_m (shr_1 mrs)) = Z.max 0 (Zdigits2 (shr_m mrs) - 1).
Proof.
  destruct mrs as [m r s]. cbn [shr_m]. intros Hm.
  destruct m as [|[p|p|]|p]; cbn [shr_1 shr_m Zdigits2 digits2_pos]; try lia.
Qed.

Lemma iter_shr_digits p : forall mrs,
  0 <= shr_m mrs ->
  0 <= shr_m (iter_pos shr_1 p mrs)
  /\ Zdigits2 (shr_m (iter_pos shr_1 p mrs))
     = Z.max 0 (Zdigits2 (shr_m mrs) - Zpos p).
Proof.
  induction p as [p IH|p IH|]; intros mrs Hm; cbn [iter_pos].
  - destruct (shr_1_digits mrs Hm) as [H1 D1].
    destruct (IH _ H1) as [H2 D2]. destruct (IH _ H2) as [H3 D3].
    split; [exact H3|]. rewrite D3, D2, D1. lia.
  - destruct (IH _ Hm) as [H2 D2]. destruct (IH _ H2) as [H3 D3].
    split; [exact H3|]. rewrite D3, D2. lia.
  - apply shr_1_digits. exact Hm.
Qed.

(** [shr_fexp] brings a mantissa with enough digits to its canonical
    exponent. *)
Lemma shr_fexp_canonical m e l :
  0 <= m -> e <= fexp prec emax (Zdigits2 m + e) ->
  let r := shr_fexp prec emax m e l in
  snd r = fexp prec emax (Zdigits2 m + e)
  /\ 0 <= shr_m (fst r)
  /\ Zdigits2 (shr_m (fst r)) = Z.max 0 (Zdigits2 m - (snd r - e))
  /\ (snd r = e -> shr_m (fst r) = m).
Proof.
  intros Hm He. unfold shr_fexp, shr.
  assert (Hrec : shr_m (shr_record_of_loc m l) = m)
    by (destruct l as [|[| |]]; reflexivity).
  destruct (fexp prec emax (Zdigits2 m + e) - e) as [|p|p] eqn:En; cbn [fst snd].
  - rewrite Hrec. pose proof (Zdigits2_nonneg m). repeat split; lia.
  - destruct (iter_shr_digits p (shr_record_of_loc m l) ltac:(rewrite Hrec; lia))
      as [H0 D]. rewrite Hrec in D.
    repeat split; lia.
  - lia.
Qed.

Lemma round_nearest_even_bounds m l :
  m <= round_nearest_even m l <= m + 1.
Proof. destruct l as [|[| |]]; cbn; try lia. destruct (Z.even m); lia. Qed.

(** The two shifts of [binary_round_aux], for a mantissa with enough
    digits: the exponents reached and the digits kept. *)
Lemma round_shape q e l :
  0 <= q -> e <= fexp prec emax (Zdigits2 q + e) ->
  let r1 := shr_fexp prec emax q e l in
  let m2 := round_nearest_even (shr_m (fst r1)) (loc_of_shr_record (fst r1)) in
  let r3 := shr_fexp prec emax m2 (snd r1) loc_Exact in
  snd r1 = fexp prec emax (Zdigits2 q + e)
  /\ 0 <= shr_m (fst r1) <= m2
  /\ Zdigits2 (shr_m (fst r1)) = Z.max 0 (Zdigits2 q - (snd r1 - e))
  /\ snd r1 <= snd r3
  /\ 0 <= shr_m (fst r3)
  /\ snd r3 = fexp prec emax (Zdigits2 m2 + snd r1)
  /\ Zdigits2 (shr_m (fst r3)) = Z.max 0 (Zdigits2 m2 - (snd r3 - snd r1))
  /\ (snd r3 = snd r1 -> shr_m (fst r3) = m2).
Proof.
  intros Hq He r1 m2 r3.
  destruct (shr_fexp_canonical q e l Hq He) as (E1 & H1 & D1 & _).
  fold r1 in E1, H1, D1.
  pose proof (round_nearest_even_bounds (shr_m (fst r1)) (loc_of_shr_record (fst r1)))
    as Hm2. fold m2 in Hm2.
  assert (Hpre : snd r1 <= fexp prec emax (Zdigits2 m2 + snd r1)).
  { pose proof (Zdigits2_mono (shr_m (fst r1)) m2 ltac:(lia)) as Hmono.
    pose proof (fexp_ge (Zdigits2 m2 + snd r1)) as Hge.
    destruct (Z_le_gt_dec (snd r1 - e) (Zdigits2 q)) as [Hle | Hgt].
    - assert (Zdigits2 (shr_m (fst r1)) + snd r1 = Zdigits2 q + e) by lia.
      pose proof (fexp_mono (Zdigits2 (shr_m (fst r1)) + snd r1)
                            (Zdigits2 m2 + snd r1) ltac:(lia)).
      rewrite H in *. lia.
    - rewrite E1 in Hgt. rewrite fexp_eq in Hgt, E1. lia. }
  destruct (shr_fexp_canonical m2 (snd r1) loc_Exact ltac:(lia) Hpre)
    as (E3 & H3 & D3 & X3).
  fold r3 in E3, H3, D3, X3.
  repeat split; try assumption; try lia.
Qed.

Lemma round_valid s q e l :
  0 <= q -> e <= fexp prec emax (Zdigits2 q + e) ->
  valid_binary (binary_round_aux prec emax s q e l) = true.
Proof.
  intros Hq He. pose proof (round_shape q e l Hq He) as H.
  unfold binary_round_aux.
  destruct (shr_fexp prec emax q e l) as [mrs1 e1]. cbn [fst snd] in H.
  set (m2 := round_nearest_even _ _) in *.
  destruct (shr_fexp prec emax m2 e1 loc_Exact) as [mrs3 e3]. cbn [fst snd] in H.
  destruct H as (E1 & Hm1 & D1 & Hle & H3 & E3 & D3 & _).
  destruct (shr_m mrs3) as [|m3|m3] eqn:Em; [reflexivity| |lia].
  destruct (Z.leb_spec e3 (emax - prec)) as [Hb|Hb]; [|reflexivity].
  cbn [valid_binary]. unfold bounded, canonical_mantissa.
  apply andb_true_intro. split; [|now apply Z.leb_le].
  apply Z.eqb_eq. cbn [Zdigits2] in D3.
  replace (Zpos (digits2_pos m3) + e3) with (Zdigits2 m2 + e1) by lia.
  now rewrite <- E3.
Qed.

Lemma compare_cont_gt p q :
  Pos.compare_cont Eq p q = Gt -> (q < p)%positive.
Proof. intros H. apply Pos.gt_lt. exact H. Qed.

(** Rounding a value of at least 1 gives at least 1.0. *)
Lemma round_ge_one q e l :
  0 <= q -> e <= fexp prec emax (Zdigits2 q + e) -> 1 <= Zdigits2 q + e ->
  SFleb sf_one (binary_round_aux prec emax false q e l) = true.
Proof.
  intros Hq He Hv. pose proof (round_shape q e l Hq He) as H.
  unfold binary_round_aux.
  destruct (shr_fexp prec emax q e l) as [mrs1 e1]. cbn [fst snd] in H.
  set (m2 := round_nearest_even _ _) in *.
  destruct (shr_fexp prec emax m2 e1 loc_Exact) as [mrs3 e3]. cbn [fst snd] in H.
  destruct H as (E1 & Hm1 & D1 & Hle & H3 & E3 & D3 & X3).
  rewrite fexp_eq in E1, E3.
  assert (Hd1 : Zdigits2 (shr_m mrs1) = 53) by lia.
  assert (Hpos1 : 0 < shr_m mrs1).
  { destruct (shr_m mrs1); cbn in Hd1; lia. }
  destruct (Zdigits2_bounds _ Hpos1) as (_ & Hlo1 & _).
  rewrite Hd1 in Hlo1. change (2 ^ (53 - 1)) with 4503599627370496 in Hlo1.
  pose proof (Zdigits2_mono (shr_m mrs1) m2 ltac:(lia)) as Hmono.
  assert (Hd3 : Zdigits2 (shr_m mrs3) = 53) by lia.
  destruct (shr_m mrs3) as [|m3|m3] eqn:Em; [cbn in Hd3; lia| |lia].
  destruct (Z.leb_spec e3 (emax - prec)) as [Hb|Hb]; [|reflexivity].
  unfold SFleb, sf_one. cbn [SFcompare].
  destruct (Z.compare_spec (-52) e3) as [Heq | Hlt | Hgt]; [|reflexivity|lia].
  subst e3. assert (He1 : e1 = -52) by lia.
  assert (Hm3 : Zpos m3 = m2) by (apply X3; lia).
  destruct (Pos.compare_cont Eq 4503599627370496 m3) eqn:E; try reflexivity.
  apply compare_cont_gt in E. apply Pos2Z.pos_lt_pos in E.
  clearbody m2. clear - Hlo1 Hm1 Hm3 E. lia.
Qed.

(** The integer quotient behind [a / b] on two positive [int]s. *)
Lemma int_div_core w h :
  0 < w -> 0 < h ->
  let '(q, e, l) := SFdiv_core_binary prec emax w 0 h 0 in
  0 <= q
  /\ e <= fexp prec emax (Zdigits2 q + e)
  /\ (w <= h ->
      e <= -52 /\ q <= 2 ^ (- e) /\ (q = 2 ^ (- e) -> l = loc_Exact))
  /\ (h <= w -> 1 <= Zdigits2 q + e).
Proof.
  intros Hw Hh. unfold SFdiv_core_binary.
  destruct (Zdigits2_bounds w Hw) as (Hd1 & Hw1 & Hw2).
  destruct (Zdigits2_bounds h Hh) as (Hd2 & Hh1 & Hh2).
  set (d1 := Zdigits2 w) in *. set (d2 := Zdigits2 h) in *.
  rewrite !Z.add_0_r, Z.sub_0_r.
  set (e' := Z.min (fexp prec emax (d1 - d2)) 0).
  replace (0 - e') with (- e') by lia.
  assert (He0 : e' <= 0) by (unfold e'; lia).
  set (s := - e').
  set (m' := match s with
             | Zpos _ => Z.shiftl w s
             | 0 => w
             | Zneg _ => 0
             end).
  assert (Hm' : m' = w * 2 ^ s).
  { unfold m'. destruct s as [|p|p] eqn:Es.
    - cbn. lia.
    - apply Z.shiftl_mul_pow2. lia.
    - lia. }
  assert (HT : 0 < 2 ^ s) by (apply Z.pow_pos_nonneg; lia).
  pose proof (Z_div_mod m' h ltac:(lia)) as Hdiv.
  destruct (Z.div_eucl m' h) as [q r]. destruct Hdiv as [Hq Hr].
  assert (Hq0 : 0 <= q) by nia.
  split; [exact Hq0|]. split; [|split].
  - (* enough digits *)
    pose proof (fexp_ge (Zdigits2 q + e')) as Hge.
    destruct (Z_le_gt_dec e' (-1074)) as [Hlow | Hhigh]; [lia|].
    assert (Hfe : e' <= d1 - d2 - 53) by (unfold e' in *; rewrite fexp_eq in *; lia).
    assert (Hk : 0 <= d1 - 1 + s - d2) by lia.
    assert (Hqk : 2 ^ (d1 - 1 + s - d2) <= q).
    { assert (Hp : 2 ^ (d1 - 1) * 2 ^ s = 2 ^ (d1 - 1 + s - d2) * 2 ^ d2).
      { rewrite <- !Z.pow_add_r by lia. f_equal. lia. }
      assert (0 < 2 ^ (d1 - 1 + s - d2)) by (apply Z.pow_pos_nonneg; lia).
      nia. }
    pose proof (Zdigits2_ge q _ Hk Hqk) as Hdq.
    pose proof (fexp_mono (d1 - d2 - 53 + 53) (Zdigits2 q + e') ltac:(lia)) as Hm.
    rewrite fexp_eq in Hm. rewrite fexp_eq. lia.
  - intros Hle.
    assert (Hdd : d1 <= d2).
    { pose proof (Zdigits2_mono w h ltac:(lia)). assumption. }
    assert (He' : e' <= -53) by (unfold e'; rewrite fexp_eq; lia).
    replace (- e') with s by reflexivity.
    assert (Hqle : q <= 2 ^ s) by nia.
    split; [lia|]. split; [exact Hqle|].
    intros ->. assert (r = 0) by nia. subst r. apply new_location_zero.
  - intros Hle.
    assert (Hqs : 2 ^ s <= q) by nia.
    pose proof (Zdigits2_ge q s ltac:(lia) Hqs). lia.
Qed.

Lemma int_truediv_le_one w h :
  0 < w <= h -> (PyNum.int_truediv w h <=? 1)%float = true.
Proof.
  intros [Hw Hle]. assert (Hh : 0 < h) by lia.
  pose proof (int_div_core w h Hw Hh) as H.
  unfold PyNum.int_truediv.
  destruct w as [|pw|pw]; try lia. destruct h as [|ph|ph]; try lia.
  cbn [Z.abs Z.ltb Z.compare xorb].
  destruct (SFdiv_core_binary prec emax (Zpos pw) 0 (Zpos ph) 0) as [[q e] l].
  destruct H as (Hq & Hpre & Hup & _). destruct (Hup Hle) as (He & Hqle & Hex).
  rewrite leb_spec, Prim2SF_one, Prim2SF_SF2Prim by now apply round_valid.
  apply round_le_one; auto.
Qed.

Lemma int_truediv_ge_one w h :
  0 < h <= w -> (1 <=? PyNum.int_truediv w h)%float = true.
Proof.
  intros [Hh Hle]. assert (Hw : 0 < w) by lia.
  pose proof (int_div_core w h Hw Hh) as H.
  unfold PyNum.int_truediv.
  destruct w as [|pw|pw]; try lia. destruct h as [|ph|ph]; try lia.
  cbn [Z.abs Z.ltb Z.compare xorb].
  destruct (SFdiv_core_binary prec emax (Zpos pw) 0 (Zpos ph) 0) as [[q e] l].
  destruct H as (Hq & Hpre & _ & Hlow).
  rewrite leb_spec, Prim2SF_one, Prim2SF_SF2Prim by now apply round_valid.
  apply round_ge_one; auto.
Qed.

Lemma compare_cont_eq p q : Pos.compare_cont Eq p q = Eq -> p = q.
Proof. intros H. now apply Pos.compare_eq. Qed.

(** Two floats of at least 1 that are each at most the other are the
    same float. *)
Lemma leb_antisym_from_one (a b : float) :
  (1 <=? a)%float = true -> (a <=? b)%float = true -> (b <=? a)%float = true ->
  a = b.
Proof.
  rewrite !leb_spec, Prim2SF_one. intros H1 Hab Hba.
  apply Prim2SF_inj. revert H1 Hab Hba. unfold SFleb, sf_one.
  destruct (Prim2SF a) as [sa|sa| |sa ma ea], (Prim2SF b) as [sb|sb| |sb mb eb];
    cbn [SFcompare]; try discriminate;
    try (destruct sa; discriminate); try (destruct sb; discriminate);
    try (destruct sa, sb; try discriminate; reflexivity).
  destruct sa; [discriminate|]. destruct sb; [discriminate|].
  intros _.
  destruct (Z.compare_spec ea eb) as [-> | Hlt | Hgt].
  - rewrite Z.compare_refl.
    destruct (Pos.compare_cont Eq ma mb) eqn:E1; try discriminate.
    + apply compare_cont_eq in E1. now subst.
    + intros _. pose proof (Pos.compare_cont_antisym ma mb Eq) as A.
      cbn [CompOpp] in A. rewrite <- A, E1. discriminate.
  - intros _. rewrite Z.compare_antisym.
    destruct (Z.compare_spec ea eb); try lia. discriminate.
  - discriminate.
Qed.

Lemma leb_total_upper (c d a b : float) :
  (a <=? c)%float = true -> (d <=? b)%float = true ->
  (a <? b)%float = false -> (b <=? a)%float = true.
Proof.
  rewrite !leb_spec, ltb_spec. unfold SFleb, SFltb.
  rewrite (SFcompare_antisym (Prim2SF a) (Prim2SF b)).
  destruct (SFcompare (Prim2SF a) (Prim2SF b)) as [[| |]|] eqn:E; cbn;
    try reflexivity; try discriminate.
  intros Ha Hb _.
  destruct (Prim2SF a) as [sa|sa| |sa ma ea], (Prim2SF b) as [sb|sb| |sb mb eb];
    cbn in E; try discriminate.
  all: try (destruct (Prim2SF c); discriminate).
  all: try (destruct (Prim2SF d); discriminate).
Qed.

End Float64Facts.

(** * Properties of the Region Detector *)

Section DetectorFacts.

Import PDFImageExtractor Detect.

Context {cv : OpenCV}.

(** What the loop body guarantees of the candidate it appends. *)
Lemma candidate_some c r :
  candidate c = Some r ->
  exists x y w h,
    boundingRect c = (x, y, w, h)
    /\ r = (x, y, w, h, fill_ratio (contourArea c) w h)
    /\ 100 <= w /\ 100 <= h
    /\ (aspect_ratio w h <=? 10)%float = true
    /\ passes r.
Proof.
  unfold candidate, passes, fill_ratio, aspect_ratio.
  destruct (boundingRect c) as [[[x y] w] h].
  destruct (Z.geb_spec w 100) as [Hw|]; [|discriminate].
  destruct (Z.geb_spec h 100) as [Hh|]; [|discriminate].
  cbn [andb].
  destruct (_ <=? 10)%float eqn:Hasp; [|discriminate].
  destruct (w * h >? 0); [|discriminate].
  destruct (0.3 <=? _)%float eqn:Hconf; [|discriminate].
  intros [= <-]. exists x, y, w, h. cbn [confidence_of snd]. auto 10.
Qed.

Lemma collect_In r contours :
  In r (collect contours) <-> exists c, In c contours /\ candidate c = Some r.
Proof.
  induction contours as [|c rest IH]; cbn [collect].
  - split; [intros []|intros (c & [] & _)].
  - destruct (candidate c) as [r0|] eqn:E; cbn [In]; rewrite IH; split.
    + intros [<- | (c' & Hin & Hc)]; [exists c|exists c']; auto.
    + intros (c' & [<- | Hin] & Hc); [left; congruence|right; eauto].
    + intros (c' & Hin & Hc). eauto.
    + intros (c' & [<- | Hin] & Hc); [congruence|eauto].
Qed.

Lemma insert_desc_In x r l : In x (insert_desc r l) <-> x = r \/ In x l.
Proof.
  induction l as [|r' rest IH]; cbn [insert_desc In].
  - intuition.
  - destruct (_ <? _)%float; cbn [In]; [rewrite IH|]; intuition.
Qed.

Lemma sort_desc_In x l : In x (sort_desc l) <-> In x l.
Proof.
  unfold sort_desc. induction l as [|r rest IH]; cbn [fold_right In].
  - reflexivity.
  - rewrite insert_desc_In, IH. intuition.
Qed.

Lemma not_below_trans a b c : not_below a b -> not_below b c -> not_below a c.
Proof. unfold not_below. intros Hab Hbc. eapply leb_trans; eassumption. Qed.

(** Inserting into a sorted list of passed candidates keeps it sorted. *)
Lemma insert_desc_sorted r l :
  passes r -> Forall passes l ->
  non_increasing l -> non_increasing (insert_desc r l).
Proof.
  unfold non_increasing, passes. intros Hr Hl Hs.
  induction Hs as [|r' rest Hs IH Hall]; cbn [insert_desc].
  - repeat constructor.
  - apply Forall_cons_iff in Hl. destruct Hl as [Hr' Hrest].
    destruct (confidence_of r <? confidence_of r')%float eqn:Hlt.
    + constructor; [now apply IH|].
      apply Forall_forall. intros x Hx.
      apply (proj1 (insert_desc_In _ _ _)) in Hx.
      destruct Hx as [-> | Hx].
      * now apply ltb_leb.
      * rewrite Forall_forall in Hall. now apply Hall.
    + assert (Hge : not_below r r')
        by (unfold not_below; eapply leb_total; eassumption).
      constructor; [now constructor|].
      constructor; [exact Hge|].
      apply Forall_forall. intros x Hx. rewrite Forall_forall in Hall.
      eapply not_below_trans; [exact Hge|now apply Hall].
Qed.

Lemma sort_desc_sorted l : Forall passes l -> non_increasing (sort_desc l).
Proof.
  induction l as [|r rest IH]; intros Hl.
  - constructor.
  - change (sort_desc (r :: rest)) with (insert_desc r (sort_desc rest)).
    apply Forall_cons_iff in Hl. destruct Hl as [Hr Hrest].
    apply insert_desc_sorted; auto.
    apply Forall_forall. intros x Hx.
    apply (proj1 (sort_desc_In _ _)) in Hx.
    rewrite Forall_forall in Hrest. now apply Hrest.
Qed.

Lemma firstn_sorted n : forall l, non_increasing l -> non_increasing (firstn n l).
Proof.
  unfold non_increasing. induction n as [|n IH]; intros l Hs; cbn [firstn].
  - constructor.
  - destruct Hs as [|r rest Hs Hall]; constructor; auto.
    apply Forall_forall. intros x Hx.
    rewrite Forall_forall in Hall. apply Hall.
    rewrite <- (firstn_skipn n rest). apply in_or_app. now left.
Qed.

Lemma collect_passes contours : Forall passes (collect contours).
Proof.
  apply Forall_forall. intros r Hr. apply (proj1 (collect_In _ _)) in Hr.
  destruct Hr as (c & _ & Hc). apply candidate_some in Hc.
  destruct Hc as (x & y & w & h & _ & _ & _ & _ & _ & Hp). exact Hp.
Qed.

(** The aspect ratio the loop computes is the longer side over the
    shorter one. *)
Lemma aspect_ratio_longer_over_shorter w h :
  0 < w -> 0 < h -> aspect_ratio w h = longer_over_shorter w h.
Proof.
  intros Hw Hh. unfold aspect_ratio, longer_over_shorter, PyNum.max2.
  destruct (Z_lt_le_dec w h) as [Hlt | Hge].
  - rewrite Z.max_r, Z.min_l by lia.
    destruct (PyNum.int_truediv w h <? PyNum.int_truediv h w)%float eqn:E;
      [reflexivity|].
    pose proof (int_truediv_le_one w h ltac:(lia)) as Ha.
    pose proof (int_truediv_ge_one h w ltac:(lia)) as Hb.
    pose proof (leb_total_upper _ _ _ _ Ha Hb E) as Hba.
    assert (H1a : (1 <=? PyNum.int_truediv w h)%float = true)
      by (eapply leb_trans; eassumption).
    apply leb_antisym_from_one; auto. eapply leb_trans; eassumption.
  - rewrite Z.max_l, Z.min_r by lia.
    pose proof (int_truediv_ge_one w h ltac:(lia)) as Ha.
    pose proof (int_truediv_le_one h w ltac:(lia)) as Hb.
    rewrite (leb_not_ltb (PyNum.int_truediv w h) (PyNum.int_truediv h w));
      [reflexivity|].
    eapply leb_trans; eassumption.
Qed.

Lemma firstn_subset {A} n (l : list A) x : In x (firstn n l) -> In x l.
Proof.
  intros Hx. rewrite <- (firstn_skipn n l). apply in_or_app. now left.
Qed.

Lemma detect_unfold gray_img text_mask :
  _detect_image_like_regions gray_img text_mask
  = firstn 10 (sort_desc (collect (found_contours gray_img text_mask))).
Proof. reflexivity. Qed.

End DetectorFacts.

Section DetectorClaims.

Import PDFImageExtractor Detect.

(** X30.  Every candidate region the detector returns has width and
    height of at least 100, an aspect ratio (the larger of w/h and h/w,
    which is the longer side over the shorter one) of at most 10, and a
    confidence that is the fill ratio of one of the contours found,
    contour area over w*h: it is at least 0.3, hence not below 0.3 and
    not negative.  The detector passes the ratio on without a clamp of
    its own: the confidence is at most 1 whenever the area that the
    library reports for the contour lies within the bounding rectangle
    it reports. *)
Theorem detected_regions_pass_filters :
  forall (cv : OpenCV) gray_img text_mask x y w h confidence,
    In (x, y, w, h, confidence)
       (_detect_image_like_regions gray_img text_mask) ->
    100 <= w /\ 100 <= h
    /\ aspect_ratio w h = longer_over_shorter w h
    /\ (longer_over_shorter w h <=? 10)%float = true
    /\ (0.3 <=? confidence)%float = true
    /\ (confidence <? 0.3)%float = false
    /\ (0 <=? confidence)%float = true
    /\ exists c,
        In c (found_contours gray_img text_mask)
        /\ boundingRect c = (x, y, w, h)
        /\ confidence = fill_ratio (contourArea c) w h
        /\ (area_within_box c -> (confidence <=? 1)%float = true).
Proof.
  intros cv gray_img text_mask x y w h confidence Hin.
  rewrite detect_unfold in Hin.
  apply firstn_subset in Hin.
  apply (proj1 (sort_desc_In _ _)) in Hin.
  apply (proj1 (collect_In _ _)) in Hin.
  destruct Hin as (c & Hc & Hcand). apply candidate_some in Hcand.
  destruct Hcand as (x' & y' & w' & h' & Hrect & [= -> -> -> -> ->]
                     & Hw & Hh & Hasp & Hp).
  unfold passes in Hp. cbn [confidence_of snd] in Hp.
  pose proof (aspect_ratio_longer_over_shorter w' h' ltac:(lia) ltac:(lia))
    as Hratio.
  repeat split; auto.
  - now rewrite <- Hratio.
  - now apply leb_not_ltb.
  - now apply leb_zero_of_threshold.
  - exists c. repeat split; auto.
    unfold area_within_box. rewrite Hrect. intros [H0 Hle].
    unfold fill_ratio in *. now apply div_le_one.
Qed.

(** C4.  The detector returns at most 10 candidate regions, in
    non-increasing order of confidence. *)
Theorem detected_regions_capped_and_sorted :
  forall (cv : OpenCV) gray_img text_mask,
    (List.length (_detect_image_like_regions gray_img text_mask) <= 10)%nat
    /\ non_increasing (_detect_image_like_regions gray_img text_mask).
Proof.
  intros cv gray_img text_mask. rewrite detect_unfold. split.
  - apply firstn_le_length.
  - apply firstn_sorted, sort_desc_sorted, collect_passes.
Qed.

Lemma detected_regions_witness :
  100 <= 400 /\ 100 <= 300
  /\ aspect_ratio 400 300 = longer_over_shorter 400 300
  /\ (longer_over_shorter 400 300 <=? 10)%float = true
  /\ (0.3 <=? fill_ratio 119301 400 300)%float = true
  /\ (fill_ratio 119301 400 300 <? 0.3)%float = false
  /\ (0 <=? fill_ratio 119301 400 300)%float = true
  /\ exists c,
      In c (found_contours (cv := scripted Examples.page_contours)
              Examples.page
              (_create_text_mask Examples.page_shape [Examples.label_box]))
      /\ boundingRect (OpenCV := scripted Examples.page_contours) c
         = (50, 50, 400, 300)
      /\ fill_ratio 119301 400 300
         = fill_ratio (contourArea (OpenCV := scripted Examples.page_contours) c)
                      400 300
      /\ (area_within_box (cv := scripted Examples.page_contours) c ->
          (fill_ratio 119301 400 300 <=? 1)%float = true).
Proof.
  apply (detected_regions_pass_filters
           (scripted Examples.page_contours) Examples.page
           (_create_text_mask Examples.page_shape [Examples.label_box])
           50 50 400 300 (fill_ratio 119301 400 300)).
  vm_compute. left. reflexivity.
Defined.

(** The example page: the sparse and the narrow outline are dropped and
    the two survivors come out by descending fill ratio. *)
Example detected_regions_example :
  map (fun r => fst r)
      (_detect_image_like_regions (cv := scripted Examples.page_contours)
         Examples.page
         (_create_text_mask Examples.page_shape [Examples.label_box]))
  = [ (50, 50, 400, 300); (100, 400, 200, 200) ].
Proof. vm_compute. reflexivity. Qed.

(** The ratio is passed on as the library's numbers give it: were a
    contour reported with twice the area of its rectangle, its region
    would come out with a confidence of 2. *)
Example fill_ratio_is_passed_on :
  _detect_image_like_regions (cv := scripted [(0, 0, 100, 100, 20000%float)])
    Examples.page (_create_text_mask Examples.page_shape [])
  = [ (0, 0, 100, 100, 2%float) ].
Proof. vm_compute. reflexivity. Qed.

(** C8, as stated, fails: the rectangle returned for the diagram's
    outline contains the whole padded label, 130 by 50 pixels of it.
    The loop never compares a rectangle with the text boxes. *)
Lemma text_suppression_fails_on_output :
  ~ text_suppressed
      [Examples.label_box]
      (_detect_image_like_regions (cv := scripted Examples.page_contours)
         Examples.page
         (_create_text_mask Examples.page_shape [Examples.label_box])).
Proof.
  intros H.
  apply (H Examples.diagram_region Examples.label_box).
  - vm_compute. left. reflexivity.
  - left. reflexivity.
  - vm_compute. split; reflexivity.
Qed.

Lemma mask_out_keeps_shape img_shape mask box :
  Np.rows (mask_out img_shape mask box) = Np.rows mask
  /\ Np.cols (mask_out img_shape mask box) = Np.cols mask.
Proof. destruct box as [[[x y] w] h]. split; reflexivity. Qed.

Lemma mask_out_keeps_zero img_shape mask box r c :
  Np.px mask r c = 0 -> Np.px (mask_out img_shape mask box) r c = 0.
Proof.
  destruct box as [[[x y] w] h]. cbn. intros ->. now destruct (_ && _).
Qed.

Lemma mask_out_covers img_shape mask box r c :
  Np.rows mask = fst img_shape -> Np.cols mask = snd img_shape ->
  0 <= r < fst img_shape -> 0 <= c < snd img_shape ->
  padded_covers box r c ->
  Np.px (mask_out img_shape mask box) r c = 0.
Proof.
  destruct box as [[[x y] w] h]. intros Hrows Hcols Hr Hc [Hx Hy].
  cbn. rewrite Hrows, Hcols.
  replace (Np.in_slice (fst img_shape) (Z.max 0 (y - 5))
             (Z.min (fst img_shape) (y + h + 5)) r) with true.
  - replace (Np.in_slice (snd img_shape) (Z.max 0 (x - 5))
               (Z.min (snd img_shape) (x + w + 5)) c) with true; [reflexivity|].
    symmetry. unfold Np.in_slice, Np.bound. apply andb_true_intro.
    destruct (Z.ltb_spec (Z.max 0 (x - 5)) 0),
             (Z.ltb_spec (Z.min (snd img_shape) (x + w + 5)) 0);
      split; try apply Z.leb_le; try apply Z.ltb_lt; lia.
  - symmetry. unfold Np.in_slice, Np.bound. apply andb_true_intro.
    destruct (Z.ltb_spec (Z.max 0 (y - 5)) 0),
             (Z.ltb_spec (Z.min (fst img_shape) (y + h + 5)) 0);
      split; try apply Z.leb_le; try apply Z.ltb_lt; lia.
Qed.

Lemma fold_mask_out img_shape r c text_boxes : forall mask,
  Np.rows mask = fst img_shape -> Np.cols mask = snd img_shape ->
  0 <= r < fst img_shape -> 0 <= c < snd img_shape ->
  (Np.px mask r c = 0 \/ exists box, In box text_boxes /\ padded_covers box r c) ->
  Np.px (fold_left (mask_out img_shape) text_boxes mask) r c = 0.
Proof.
  induction text_boxes as [|b rest IH]; intros mask Hrows Hcols Hr Hc H;
    cbn [fold_left].
  - destruct H as [H | (box & [] & _)]. exact H.
  - destruct (mask_out_keeps_shape img_shape mask b) as [Hr' Hc'].
    apply IH; try congruence.
    destruct H as [H | (box & [<- | Hin] & Hcov)].
    + left. now apply mask_out_keeps_zero.
    + left. now apply mask_out_covers.
    + right. eauto.
Qed.

(** C8, amended.  Text suppression holds on the detector's input: every
    pixel of the page that lies inside a text box padded by 5 pixels is
    zero in the mask, and so in the masked image that edge detection
    receives, whatever the page shows there. *)
Theorem text_mask_suppresses :
  forall img_shape text_boxes gray_img box r c,
    In box text_boxes ->
    0 <= r < fst img_shape -> 0 <= c < snd img_shape ->
    padded_covers box r c ->
    Np.px (_create_text_mask img_shape text_boxes) r c = 0
    /\ Np.px (bitwise_and gray_img (_create_text_mask img_shape text_boxes)) r c
       = 0.
Proof.
  intros img_shape text_boxes gray_img box r c Hin Hr Hc Hcov.
  assert (Hmask : Np.px (_create_text_mask img_shape text_boxes) r c = 0).
  { unfold _create_text_mask. apply fold_mask_out; auto. right. eauto. }
  split; [exact Hmask|].
  cbn. rewrite Hmask. apply Z.land_0_r.
Qed.

Lemma text_mask_suppresses_witness :
  Np.px (_create_text_mask Examples.page_shape [Examples.label_box]) 160 250 = 0
  /\ Np.px (bitwise_and Examples.page
              (_create_text_mask Examples.page_shape [Examples.label_box]))
           160 250 = 0.
Proof.
  apply (text_mask_suppresses Examples.page_shape [Examples.label_box]
                              Examples.page Examples.label_box 160 250).
  - left. reflexivity.
  - vm_compute. split; [discriminate|reflexivity].
  - vm_compute. split; [discriminate|reflexivity].
  - vm_compute. repeat split; discriminate.
Defined.

End DetectorClaims.

(** * Further properties *)

Section AssociatorFrame.

Import ImageExtractor Assoc Frame.

Lemma scan_images_refs_sorted topic images : forall idx,
  StronglySorted lt (fst (scan_images topic idx images))
  /\ Forall (fun i => idx <= i < idx + List.length images)%nat
            (fst (scan_images topic idx images)).
Proof.
  induction images as [|image rest IH]; intros idx.
  - cbn. split; constructor.
  - rewrite scan_images_cons. cbn [fst List.length].
    destruct (IH (S idx)) as [Hs Hb].
    assert (Hb' : Forall (fun i => idx <= i < idx + S (List.length rest))%nat
                         (fst (scan_images topic (S idx) rest))).
    { eapply Forall_impl; [|exact Hb]. cbn. intros; lia. }
    destruct (associates topic image); cbn [app].
    + split.
      * constructor; [exact Hs|].
        eapply Forall_impl; [|exact Hb]. cbn. intros; lia.
      * constructor; [lia|exact Hb'].
    + split; assumption.
Qed.

Lemma last_assoc_all_false topics image :
  (forall topic, In topic topics -> associates topic image = false) ->
  last_assoc topics image = None.
Proof.
  induction topics as [|t ts IH]; intros H; [reflexivity|].
  cbn [last_assoc]. rewrite IH by (intros; apply H; now right).
  now rewrite (H t (or_introl eq_refl)).
Qed.

(** X1.  The associator touches nothing but [images] on a topic and
    [associated_topic_id] on an image: both lists keep their length and
    order, every other field is as it was, and every returned topic has
    a list (never [None]) in [images]. *)
Theorem associate_frame :
  forall topics images,
    let st := associate_images_with_topics topics images in
    List.length (fst st) = List.length topics
    /\ List.length (snd st) = List.length images
    /\ (forall k t t',
           nth_error topics k = Some t -> nth_error (fst st) k = Some t' ->
           same_topic t t' /\ QuestionBlock.images t' <> None)
    /\ (forall i im im',
           nth_error images i = Some im -> nth_error (snd st) i = Some im' ->
           same_image im im').
Proof.
  intros topics images st. subst st. rewrite associate_closed_form.
  cbn [fst snd]. rewrite !length_map. repeat split.
  all: try (rewrite nth_error_map in H0; rewrite H in H0; cbn in H0;
            injection H0 as <-).
  all: try reflexivity.
  - discriminate.
  - rewrite final_last_assoc. now destruct (last_assoc topics im).
  - rewrite final_last_assoc. now destruct (last_assoc topics im).
  - rewrite final_last_assoc. now destruct (last_assoc topics im).
  - rewrite final_last_assoc. now destruct (last_assoc topics im).
  - rewrite final_last_assoc. now destruct (last_assoc topics im).
  - rewrite final_last_assoc. now destruct (last_assoc topics im).
Qed.

(** X2.  The references a topic ends up with are positions of the image
    list, in increasing order: no image is listed twice and the order of
    the image list is kept. *)
Theorem associate_refs_sorted :
  forall topics images k t' l,
    nth_error (fst (associate_images_with_topics topics images)) k = Some t' ->
    QuestionBlock.images t' = Some l ->
    StronglySorted lt l /\ Forall (fun i => (i < List.length images)%nat) l.
Proof.
  intros topics images k t' l Hk Hl.
  rewrite associate_closed_form in Hk. cbn [fst] in Hk.
  rewrite nth_error_map in Hk.
  destruct (nth_error topics k) as [t|]; [|discriminate].
  injection Hk as <-. cbn in Hl. injection Hl as <-.
  destruct (scan_images_refs_sorted t images 0%nat) as [Hs Hb].
  split; [exact Hs|]. eapply Forall_impl; [|exact Hb]. cbn. intros; lia.
Qed.

Lemma associate_refs_sorted_witness :
  StronglySorted lt [0; 1]%nat
  /\ Forall (fun i => (i < List.length Examples.three_images)%nat) [0; 1]%nat.
Proof.
  apply (associate_refs_sorted
           [Examples.rash_topic; Examples.plain_topic] Examples.three_images
           0%nat
           (QuestionBlock.set_images Examples.rash_topic [0; 1]%nat)
           [0; 1]%nat); reflexivity.
Defined.

(** X3.  What the run leaves in an image's back-reference: an image that no
    topic takes is exactly as it entered; any other image carries the id
    of a topic of the list that takes it, and nothing else changed. *)
Theorem associate_back_reference :
  forall topics images i image,
    nth_error images i = Some image ->
    exists image',
      nth_error (snd (associate_images_with_topics topics images)) i
      = Some image'
      /\ ((forall topic, In topic topics -> associates topic image = false)
          /\ image' = image
          \/ exists topic,
              In topic topics /\ associates topic image = true
              /\ image' = ExtractedImage.set_associated_topic_id
                            image (QuestionBlock.topic_id topic)).
Proof.
  intros topics images i image Hi. rewrite associate_closed_form. cbn [snd].
  exists (final topics image). split; [now rewrite nth_error_map, Hi|].
  rewrite final_last_assoc.
  destruct (last_assoc topics image) as [tid|] eqn:Hl.
  - right. destruct (last_assoc_some _ _ _ Hl) as (k & topic & Hk & Hid & Ha & _).
    exists topic. repeat split; auto.
    + eapply nth_error_In; eassumption.
    + cbn. now rewrite Hid.
  - left. split; [|reflexivity]. now apply last_assoc_none.
Qed.

Lemma associate_back_reference_witness :
  exists image',
    nth_error (snd (associate_images_with_topics
                      [Examples.rash_topic; Examples.plain_topic]
                      Examples.three_images)) 2
    = Some image'
    /\ ((forall topic,
            In topic [Examples.rash_topic; Examples.plain_topic] ->
            associates topic (Examples.image_on 7 None) = false)
        /\ image' = Examples.image_on 7 None
        \/ exists topic,
            In topic [Examples.rash_topic; Examples.plain_topic]
            /\ associates topic (Examples.image_on 7 None) = true
            /\ image' = ExtractedImage.set_associated_topic_id
                          (Examples.image_on 7 None)
                          (QuestionBlock.topic_id topic)).
Proof.
  apply (associate_back_reference
           [Examples.rash_topic; Examples.plain_topic] Examples.three_images
           2%nat (Examples.image_on 7 None)).
  reflexivity.
Defined.

End AssociatorFrame.


Section ScorerFacts.

Import Scorer.

Lemma score_of_range area variance brightness aspect_ratio :
  0 <= score_of area variance brightness aspect_ratio <= 80
  /\ (score_of area variance brightness aspect_ratio) mod 5 = 0.
Proof.
  unfold score_of.
  destruct (area >? 50000), (area >? 20000), (area >? 10000),
    (2000 <? variance)%float, (1000 <? variance)%float,
    (500 <? variance)%float, (aspect_ratio <? 3)%float,
    (aspect_ratio <? 5)%float,
    ((50 <? brightness)%float && (brightness <? 200)%float)%bool;
    cbn; split; (lia || reflexivity).
Qed.

Lemma analyze_cases opened :
  (exists img area variance brightness aspect_ratio,
      opened = Exc.Ok img
      /\ statistics img = Exc.Ok (area, variance, brightness, aspect_ratio)
      /\ analyze_image_content opened
         = [ ("width", PInt (fst (size img)));
             ("height", PInt (snd (size img)));
             ("area", PInt area);
             ("variance", PFloat variance);
             ("brightness", PFloat brightness);
             ("aspect_ratio", PFloat aspect_ratio);
             ("score", PInt (score_of area variance brightness aspect_ratio));
             ("likely_image",
              PBool (score_of area variance brightness aspect_ratio >? 40)) ])
  \/ (exists m,
         analyze_image_content opened
         = [ ("error", PStr m); ("likely_image", PBool false) ]).
Proof.
  destruct opened as [img | e].
  - destruct (statistics img) as [[[[area variance] brightness] aspect_ratio] | e]
      eqn:Hst.
    + left. exists img, area, variance, brightness, aspect_ratio.
      repeat split; auto.
      unfold analyze_image_content, analyze. cbn [Exc.bind].
      destruct (size img) as [width height]. rewrite Hst. reflexivity.
    + right. exists (Exc.msg e). now apply analyze_failure.
  - right. exists (Exc.msg e). reflexivity.
Qed.

(** X4.  The score, when the scorer reports one, is an integer between 0 and
    80 and a multiple of 5; so an image that is reported as likely has a
    score of at least 45. *)
Theorem score_range :
  forall opened s,
    score_entry (analyze_image_content opened) = Some s ->
    exists n,
      s = PInt n /\ 0 <= n <= 80 /\ n mod 5 = 0
      /\ (likely_entry (analyze_image_content opened) = Some (PBool true)
          -> 45 <= n).
Proof.
  intros opened s Hs.
  destruct (analyze_cases opened)
    as [(img & area & variance & brightness & aspect_ratio & _ & _ & E)
       | (m & E)]; rewrite E in *; [|cbv in Hs; discriminate].
  change (Some (PInt (score_of area variance brightness aspect_ratio)) = Some s)
    in Hs.
  injection Hs as <-. eexists. split; [reflexivity|].
  destruct (score_of_range area variance brightness aspect_ratio) as [Hr Hm].
  repeat split; try tauto.
  intros [= Hl]. apply Z.gtb_lt in Hl.
  set (n := score_of area variance brightness aspect_ratio) in *.
  apply Z.mod_divide in Hm; [|lia]. destruct Hm as [k ->]. lia.
Qed.

Lemma score_range_witness :
  exists n,
    PInt 80 = PInt n /\ 0 <= n <= 80 /\ n mod 5 = 0
    /\ (likely_entry (analyze_image_content (Exc.Ok Examples.diagram))
        = Some (PBool true) -> 45 <= n).
Proof.
  apply (score_range (Exc.Ok Examples.diagram) (PInt 80)).
  vm_compute. reflexivity.
Defined.

(** X5.  An image with a side of length 0 makes the aspect ratio a division
    by zero; the scorer catches it and answers with the error
    dictionary, which has no score and says [likely_image = False]. *)
Theorem zero_side_is_an_error :
  forall img,
    Z.min (fst (size img)) (snd (size img)) = 0 ->
    exists m,
      analyze_image_content (Exc.Ok img)
      = [ ("error", PStr m); ("likely_image", PBool false) ].
Proof.
  intros img Hmin.
  destruct (statistics img) as [st | e] eqn:Hst.
  - exfalso. unfold statistics in Hst.
    destruct (size img) as [width height]. cbn [fst snd] in Hmin.
    destruct (PyNum.mean (stat_var img)); [|discriminate].
    destruct (PyNum.mean (stat_mean img)); [|discriminate].
    cbn [Exc.bind] in Hst. unfold PyNum.truediv in Hst.
    rewrite Hmin in Hst. discriminate.
  - exists (Exc.msg e). now apply analyze_failure.
Qed.

Lemma zero_side_is_an_error_witness :
  exists m,
    analyze_image_content
      (Exc.Ok (mk (40, 0) [0; 0; 0]%float [255; 255; 255]%float))
    = [ ("error", PStr m); ("likely_image", PBool false) ].
Proof.
  apply (zero_side_is_an_error
           (mk (40, 0) [0; 0; 0]%float [255; 255; 255]%float)).
  reflexivity.
Defined.

(** X6.  The aspect ratio the scorer reports for an image with positive sides
    is the longer side over the shorter one and therefore never below 1,
    also after rounding to a float. *)
Theorem aspect_ratio_at_least_one :
  forall img r,
    0 < fst (size img) -> 0 < snd (size img) ->
    Dict.get (analyze_image_content (Exc.Ok img)) "aspect_ratio"
    = Some (PFloat r) ->
    (1 <=? r)%float = true.
Proof.
  intros img r Hw Hh Hr.
  destruct (analyze_cases (Exc.Ok img))
    as [(img' & area & variance & brightness & aspect_ratio & [= <-] & Hst & E)
       | (m & E)]; rewrite E in Hr; [|cbv in Hr; discriminate].
  change (Some (PFloat aspect_ratio) = Some (PFloat r)) in Hr.
  injection Hr as <-.
  unfold statistics in Hst. destruct (size img) as [width height].
  cbn [fst snd] in Hw, Hh.
  destruct (PyNum.mean (stat_var img)); [|discriminate].
  destruct (PyNum.mean (stat_mean img)); [|discriminate].
  cbn [Exc.bind] in Hst. unfold PyNum.truediv in Hst.
  destruct (Z.min width height =? 0); [discriminate|].
  destruct (is_infinity _); [discriminate|].
  cbn [Exc.bind] in Hst. injection Hst as _ _ _ <-.
  apply int_truediv_ge_one. lia.
Qed.

Lemma aspect_ratio_at_least_one_witness : (1 <=? 1.5)%float = true.
Proof.
  apply (aspect_ratio_at_least_one Examples.diagram 1.5%float).
  - reflexivity.
  - reflexivity.
  - vm_compute. reflexivity.
Defined.

(** X7.  A long thin region of low contrast is never reported as likely,
    whatever its size and brightness: with a mean variance of at most
    500 and an aspect ratio of at least 5 the score stays at 40 or
    below. *)
Theorem thin_flat_strip_is_not_likely :
  forall img area variance brightness aspect_ratio,
    statistics img = Exc.Ok (area, variance, brightness, aspect_ratio) ->
    (variance <=? 500)%float = true ->
    (5 <=? aspect_ratio)%float = true ->
    likely_entry (analyze_image_content (Exc.Ok img)) = Some (PBool false).
Proof.
  intros img area variance brightness aspect_ratio Hst Hv Hr.
  pose proof (analyze_entries img _ Hst) as H. cbv zeta in H.
  destruct H as [_ ->]. do 2 f_equal. unfold PBool. do 2 f_equal.
  assert (H500 : (500 <? variance)%float = false) by now apply leb_not_ltb.
  assert (H1000 : (1000 <? variance)%float = false).
  { apply leb_not_ltb. eapply leb_trans; [exact Hv|reflexivity]. }
  assert (H2000 : (2000 <? variance)%float = false).
  { apply leb_not_ltb. eapply leb_trans; [exact Hv|reflexivity]. }
  assert (H5 : (aspect_ratio <? 5)%float = false) by now apply leb_not_ltb.
  assert (H3 : (aspect_ratio <? 3)%float = false).
  { apply leb_not_ltb. eapply leb_trans; [|exact Hr]. reflexivity. }
  unfold score_of. rewrite H500, H1000, H2000, H5, H3.
  destruct (area >? 50000), (area >? 20000), (area >? 10000),
    ((50 <? brightness)%float && (brightness <? 200)%float)%bool;
    reflexivity.
Qed.

Lemma thin_flat_strip_is_not_likely_witness :
  likely_entry (analyze_image_content (Exc.Ok Examples.text_strip))
  = Some (PBool false).
Proof.
  apply (thin_flat_strip_is_not_likely
           Examples.text_strip 5000 100%float 250%float 8%float);
    vm_compute; reflexivity.
Defined.

End ScorerFacts.


Section ValidationFacts.

Import Validation Report.

Lemma get_set {V} (d : list (string * V)) k v k' :
  Dict.get (Dict.set d k v) k'
  = if String.eqb k k' then Some v else Dict.get d k'.
Proof.
  induction d as [|[k0 v0] d IH]; cbn; [reflexivity|].
  destruct (String.eqb_spec k0 k) as [->|Hne]; cbn.
  - destruct (String.eqb k k'); reflexivity.
  - rewrite IH. destruct (String.eqb_spec k0 k') as [->|Hne'].
    + destruct (String.eqb_spec k k') as [->|_]; [contradiction|reflexivity].
    + reflexivity.
Qed.

Lemma keys_set {V} (d : list (string * V)) k v :
  map fst (Dict.set d k v)
  = if Dict.mem d k then map fst d else (map fst d ++ [k])%list.
Proof.
  unfold Dict.mem. induction d as [|[k0 v0] d IH]; cbn; [reflexivity|].
  destruct (String.eqb k0 k); cbn; [reflexivity|].
  rewrite IH. destruct (Dict.get d k); reflexivity.
Qed.

Lemma get_none_keys {V} (d : list (string * V)) k :
  Dict.get d k = None -> ~ In k (map fst d).
Proof.
  induction d as [|[k0 v0] d IH]; cbn; [tauto|].
  destruct (String.eqb_spec k0 k) as [->|Hne]; [discriminate|].
  intros H [E|Hin]; [contradiction|]. now apply IH.
Qed.

Lemma hist_total_set d k :
  hist_total (Dict.set d k (AInt (count_of d k + 1))) = hist_total d + 1.
Proof.
  unfold count_of. induction d as [|[k0 v0] d IH]; cbn; [lia|].
  destruct (String.eqb k0 k) eqn:E; cbn.
  - destruct v0; lia.
  - destruct v0; rewrite IH; lia.
Qed.

(** What the loop leaves in the accumulators, from any start. *)
Lemma fold_step topics : forall a,
  let b := fold_left step topics a in
  confidence_scores b
  = (confidence_scores a ++ map QuestionBlock.confidence_score topics)%list
  /\ valid_topics b
     = valid_topics a + Z.of_nat (List.length (filter is_valid topics))
  /\ topics_with_images b
     = topics_with_images a + Z.of_nat (List.length (filter has_images topics))
  /\ image_associations b
     = image_associations a + Z.of_nat (list_sum (map image_count topics))
  /\ (forall q,
         count_of (type_counts b) q
         = count_of (type_counts a) q
           + Z.of_nat (count_occ string_dec
                                 (map QuestionBlock.question_type topics) q))
  /\ hist_total (type_counts b)
     = hist_total (type_counts a) + Z.of_nat (List.length topics)
  /\ (NoDup (map fst (type_counts a)) -> NoDup (map fst (type_counts b))).
Proof.
  induction topics as [|t ts IH]; intros a.
  - cbn. rewrite app_nil_r.
    split; [|split; [|split; [|split; [|split; [|split]]]]];
      try lia; auto; intros; lia.
  - cbn [fold_left]. specialize (IH (step a t)). cbv zeta in IH.
    destruct IH as (Hc & Hv & Hw & Hi & Hq & Hh & Hn).
    set (b := fold_left step ts (step a t)) in *.
    assert (Ec : confidence_scores (step a t)
                 = (confidence_scores a ++ [QuestionBlock.confidence_score t])%list).
    { unfold step. destruct (QuestionBlock.images t) as [[|]|]; reflexivity. }
    assert (Ev : valid_topics (step a t)
                 = if is_valid t then valid_topics a + 1 else valid_topics a).
    { unfold step. destruct (QuestionBlock.images t) as [[|]|]; reflexivity. }
    assert (Et : type_counts (step a t)
                 = Dict.set (type_counts a) (QuestionBlock.question_type t)
                     (AInt (count_of (type_counts a)
                                     (QuestionBlock.question_type t) + 1))).
    { unfold step. destruct (QuestionBlock.images t) as [[|]|]; reflexivity. }
    assert (Ew : topics_with_images (step a t)
                 = if has_images t then topics_with_images a + 1
                   else topics_with_images a).
    { unfold step, has_images, image_count.
      destruct (QuestionBlock.images t) as [[|]|]; reflexivity. }
    assert (Ei : image_associations (step a t)
                 = image_associations a + Z.of_nat (image_count t)).
    { unfold step, image_count.
      destruct (QuestionBlock.images t) as [[|]|];
        cbn [image_associations List.length]; lia. }
    cbv zeta. split; [|split; [|split; [|split; [|split; [|split]]]]].
    + rewrite Hc, Ec, <- app_assoc. reflexivity.
    + rewrite Hv, Ev. cbn [filter]. destruct (is_valid t); cbn [List.length]; lia.
    + rewrite Hw, Ew. cbn [filter].
      destruct (has_images t); cbn [List.length]; lia.
    + rewrite Hi, Ei.
      change (list_sum (map image_count (t :: ts)))
        with (image_count t + list_sum (map image_count ts))%nat.
      lia.
    + intros q. rewrite Hq, Et. unfold count_of at 1.
      rewrite get_set. cbn [map count_occ].
      destruct (string_dec (QuestionBlock.question_type t) q) as [->|Hne].
      * rewrite String.eqb_refl. lia.
      * destruct (String.eqb_spec (QuestionBlock.question_type t) q);
          [contradiction|]. fold (count_of (type_counts a) q). lia.
    + rewrite Hh, Et, hist_total_set. cbn [List.length]. lia.
    + intros Hnd. apply Hn. rewrite Et, keys_set. unfold Dict.mem.
      destruct (Dict.get (type_counts a) (QuestionBlock.question_type t)) eqn:G;
        [exact Hnd|].
      apply NoDup_app; [exact Hnd|constructor; [tauto|constructor]|].
      intros x Hx [<-|[]]. now apply (get_none_keys _ _ G).
Qed.

Lemma filter_length_le {A} (f : A -> bool) (l : list A) :
  (List.length (filter f l) <= List.length l)%nat.
Proof. induction l as [|x l IH]; cbn; [lia|]. destruct (f x); cbn; lia. Qed.

Lemma has_images_sum topics :
  (List.length (filter has_images topics)
   <= list_sum (map image_count topics))%nat.
Proof.
  induction topics as [|t ts IH]; [cbn; lia|].
  change (list_sum (map image_count (t :: ts)))
    with (image_count t + list_sum (map image_count ts))%nat.
  cbn [filter]. unfold has_images at 1.
  destruct (image_count t); cbn [Nat.eqb negb List.length]; lia.
Qed.

(** The shape of a successful report. *)
Lemma validation_report topics images d :
  enhanced_validation topics images = Exc.Ok d ->
  topics <> [] ->
  let a := fold_left step topics (mk [] [] 0 0 0) in
  exists avg rate coverage lo hi,
    d = [ ("total_topics", PInt (Z.of_nat (List.length topics)));
          ("total_images", PInt (Z.of_nat (List.length images)));
          ("valid_topics", PInt (valid_topics a));
          ("topics_with_images", PInt (topics_with_images a));
          ("image_associations", PInt (image_associations a));
          ("success_rate", PAtom rate);
          ("image_coverage", PAtom coverage);
          ("question_type_distribution", PDict (type_counts a));
          ("average_confidence", PAtom avg);
          ("confidence_range", PDict [ ("min", lo); ("max", hi) ]) ]
    /\ PyNum.truediv (valid_topics a) (Z.of_nat (List.length topics))
       = Exc.Ok match rate with AFloat r => r | _ => 0%float end
    /\ PyNum.truediv (topics_with_images a) (Z.of_nat (List.length topics))
       = Exc.Ok match coverage with AFloat r => r | _ => 0%float end
    /\ (exists r, rate = AFloat r) /\ (exists r, coverage = AFloat r).
Proof.
  intros H Hne a. unfold enhanced_validation in H. fold a in H.
  destruct (Z.eqb_spec (Z.of_nat (List.length topics)) 0) as [E|_].
  { destruct topics; [contradiction|cbn in E; lia]. }
  assert (Hpos : (Z.of_nat (List.length topics) >? 0) = true).
  { apply Z.gtb_lt. destruct topics; [contradiction|cbn [List.length]; lia]. }
  rewrite Hpos in H.
  match type of H with
  | Exc.bind ?c _ = _ => destruct c as [avg|e]; [|discriminate]
  end.
  cbn [Exc.bind] in H.
  destruct (PyNum.truediv (valid_topics a) _) as [r1|e]; [|discriminate].
  cbn [Exc.bind] in H.
  destruct (PyNum.truediv (topics_with_images a) _) as [r2|e]; [|discriminate].
  cbn [Exc.bind] in H. injection H as <-.
  eexists avg, (AFloat r1), (AFloat r2), _, _.
  repeat split; eauto.
Qed.

(** X8.  The counters of the report count what their names say: the valid
    topics are those with a non-empty subject and a confidence above
    0.3, [topics_with_images] counts the topics that hold at least one
    image reference and [image_associations] all the references; so
    neither count of topics exceeds [total_topics], and there are at
    least as many associations as topics with images. *)
Theorem validation_counts :
  forall topics images d,
    enhanced_validation topics images = Exc.Ok d ->
    topics <> [] ->
    exists valid with_images associations,
      Dict.get d "total_topics" = Some (PInt (Z.of_nat (List.length topics)))
      /\ Dict.get d "total_images" = Some (PInt (Z.of_nat (List.length images)))
      /\ Dict.get d "valid_topics" = Some (PInt valid)
      /\ Dict.get d "topics_with_images" = Some (PInt with_images)
      /\ Dict.get d "image_associations" = Some (PInt associations)
      /\ valid = Z.of_nat (List.length (filter is_valid topics))
      /\ with_images = Z.of_nat (List.length (filter has_images topics))
      /\ associations = Z.of_nat (list_sum (map image_count topics))
      /\ 0 <= valid <= Z.of_nat (List.length topics)
      /\ 0 <= with_images <= Z.of_nat (List.length topics)
      /\ with_images <= associations.
Proof.
  intros topics images d H Hne.
  destruct (validation_report topics images d H Hne)
    as (avg & rate & coverage & lo & hi & -> & _).
  destruct (fold_step topics (mk [] [] 0 0 0)) as (_ & Hv & Hw & Hi & _).
  cbn [valid_topics topics_with_images image_associations] in Hv, Hw, Hi.
  pose proof (filter_length_le is_valid topics).
  pose proof (filter_length_le has_images topics).
  pose proof (has_images_sum topics).
  do 3 eexists. repeat split; try reflexivity; try lia.
Qed.

Lemma validation_counts_witness :
  exists d,
    enhanced_validation Samples.validated_topics Examples.three_images
    = Exc.Ok d
    /\ exists valid with_images associations,
      Dict.get d "total_topics"
      = Some (PInt (Z.of_nat (List.length Samples.validated_topics)))
      /\ Dict.get d "total_images"
         = Some (PInt (Z.of_nat (List.length Examples.three_images)))
      /\ Dict.get d "valid_topics" = Some (PInt valid)
      /\ Dict.get d "topics_with_images" = Some (PInt with_images)
      /\ Dict.get d "image_associations" = Some (PInt associations)
      /\ valid = Z.of_nat (List.length (filter is_valid Samples.validated_topics))
      /\ with_images
         = Z.of_nat (List.length (filter has_images Samples.validated_topics))
      /\ associations
         = Z.of_nat (list_sum (map image_count Samples.validated_topics))
      /\ 0 <= valid <= Z.of_nat (List.length Samples.validated_topics)
      /\ 0 <= with_images <= Z.of_nat (List.length Samples.validated_topics)
      /\ with_images <= associations.
Proof.
  eexists. split; [vm_compute; reflexivity|].
  apply (validation_counts Samples.validated_topics Examples.three_images).
  - vm_compute. reflexivity.
  - discriminate.
Defined.

(** X9.  The histogram of question types is exact: every type is listed
    once, with the number of topics of that type (0 for a type that is
    not listed), and the counts add up to [total_topics]. *)
Theorem validation_histogram :
  forall topics images d,
    enhanced_validation topics images = Exc.Ok d ->
    topics <> [] ->
    exists dist,
      Dict.get d "question_type_distribution" = Some (PDict dist)
      /\ NoDup (map fst dist)
      /\ (forall q,
             count_of dist q
             = Z.of_nat (count_occ string_dec
                                   (map QuestionBlock.question_type topics) q))
      /\ hist_total dist = Z.of_nat (List.length topics).
Proof.
  intros topics images d H Hne.
  destruct (validation_report topics images d H Hne)
    as (avg & rate & coverage & lo & hi & -> & _).
  destruct (fold_step topics (mk [] [] 0 0 0)) as (_ & _ & _ & _ & Hq & Hh & Hn).
  cbn [type_counts] in Hq, Hh, Hn.
  eexists. repeat split; try reflexivity.
  - apply Hn. constructor.
  - intros q. rewrite Hq. reflexivity.
  - rewrite Hh. reflexivity.
Qed.

Lemma validation_histogram_witness :
  exists d,
    enhanced_validation Samples.validated_topics Examples.three_images
    = Exc.Ok d
    /\ exists dist,
      Dict.get d "question_type_distribution" = Some (PDict dist)
      /\ NoDup (map fst dist)
      /\ (forall q,
             count_of dist q
             = Z.of_nat (count_occ string_dec
                           (map QuestionBlock.question_type
                                Samples.validated_topics) q))
      /\ hist_total dist = Z.of_nat (List.length Samples.validated_topics).
Proof.
  eexists. split; [vm_compute; reflexivity|].
  apply (validation_histogram Samples.validated_topics Examples.three_images).
  - vm_compute. reflexivity.
  - discriminate.
Defined.

End ValidationFacts.


Section ValidationRates.

Import Validation Report F64.

Lemma Zdigits2_succ m : 0 <= m -> Zdigits2 (m + 1) <= Zdigits2 m + 1.
Proof.
  intros Hm. destruct (Z.eq_dec m 0) as [->|Hne]; [cbn; lia|].
  destruct (Zdigits2_bounds m ltac:(lia)) as (Hd & Hl & Hh).
  pose proof (Zdigits2_le (m + 1) (Zdigits2 m) ltac:(lia) ltac:(lia)). lia.
Qed.

(** Rounding a non-negative number below [2 ^ 1023] gives a zero or a
    finite float, never an infinity. *)
Lemma round_finite s q e l :
  0 <= q -> e <= fexp prec emax (Zdigits2 q + e) -> Zdigits2 q + e <= 1023 ->
  SF_finite (binary_round_aux prec emax s q e l) = true.
Proof.
  intros Hq He Hd. pose proof (round_shape q e l Hq He) as H.
  unfold binary_round_aux.
  destruct (shr_fexp prec emax q e l) as [mrs1 e1]. cbn [fst snd] in H.
  pose proof (round_nearest_even_bounds (shr_m mrs1) (loc_of_shr_record mrs1))
    as Hm2.
  set (m2 := round_nearest_even _ _) in *.
  destruct (shr_fexp prec emax m2 e1 loc_Exact) as [mrs3 e3]. cbn [fst snd] in H.
  destruct H as (E1 & Hm1 & D1 & Hle & H3 & E3 & D3 & _).
  destruct (shr_m mrs3) as [|m3|m3] eqn:Em; [reflexivity| |lia].
  destruct (Z.leb_spec e3 (emax - prec)) as [Hb|Hb]; [reflexivity|].
  exfalso. change (emax - prec) with 971 in Hb.
  pose proof (Zdigits2_succ (shr_m mrs1) ltac:(lia)) as Hs.
  pose proof (Zdigits2_mono m2 (shr_m mrs1 + 1) ltac:(lia)) as Hmono.
  rewrite fexp_eq in E1, E3. clearbody m2. lia.
Qed.

Lemma round_nonneg q e l :
  0 <= q -> e <= fexp prec emax (Zdigits2 q + e) ->
  SFleb (S754_zero false) (binary_round_aux prec emax false q e l) = true.
Proof.
  intros Hq He. pose proof (round_shape q e l Hq He) as H.
  unfold binary_round_aux.
  destruct (shr_fexp prec emax q e l) as [mrs1 e1]. cbn [fst snd] in H.
  set (m2 := round_nearest_even _ _) in *.
  destruct (shr_fexp prec emax m2 e1 loc_Exact) as [mrs3 e3]. cbn [fst snd] in H.
  destruct H as (_ & _ & _ & _ & H3 & _).
  destruct (shr_m mrs3) as [|m3|m3]; [reflexivity| |lia].
  destruct (e3 <=? emax - prec); reflexivity.
Qed.

Lemma unit_not_infinity x : unit_float x -> is_infinity x = false.
Proof.
  unfold unit_float, is_infinity.
  rewrite eqb_spec, abs_spec, !leb_spec, Prim2SF_zero, Prim2SF_one.
  change (Prim2SF infinity) with (S754_infinity false).
  destruct (Prim2SF x) as [s|[|]| |s m e]; intros [H0 H1].
  - reflexivity.
  - discriminate H0.
  - discriminate H1.
  - discriminate H0.
  - reflexivity.
Qed.

Lemma finite_not_infinity r :
  valid_binary r = true -> SF_finite r = true -> is_infinity (SF2Prim r) = false.
Proof.
  intros Hv Hf. unfold is_infinity.
  rewrite eqb_spec, abs_spec, Prim2SF_SF2Prim by exact Hv.
  change (Prim2SF infinity) with (S754_infinity false).
  destruct r as [s|s| |s m e]; try discriminate; reflexivity.
Qed.

Lemma int_truediv_unit a b :
  0 <= a <= b -> 0 < b -> unit_float (PyNum.int_truediv a b).
Proof.
  intros [Ha Hab] Hb. destruct (Z.eq_dec a 0) as [->|Hne].
  - unfold PyNum.int_truediv. destruct (Z.ltb_spec b 0); [lia|].
    split; reflexivity.
  - split; [|apply int_truediv_le_one; lia].
    pose proof (int_div_core a b ltac:(lia) Hb) as H.
    unfold PyNum.int_truediv.
    destruct a as [|pa|pa]; try lia. destruct b as [|pb|pb]; try lia.
    cbn [Z.abs Z.ltb Z.compare xorb].
    destruct (SFdiv_core_binary prec emax (Zpos pa) 0 (Zpos pb) 0) as [[q e] l].
    destruct H as (Hq & Hpre & _).
    rewrite leb_spec, Prim2SF_zero, Prim2SF_SF2Prim by now apply round_valid.
    now apply round_nonneg.
Qed.

Lemma truediv_unit a b :
  0 <= a <= b -> 0 < b ->
  exists r, PyNum.truediv a b = Exc.Ok r /\ unit_float r.
Proof.
  intros Ha Hb. pose proof (int_truediv_unit a b Ha Hb) as Hu.
  exists (PyNum.int_truediv a b). split; [|exact Hu].
  unfold PyNum.truediv. destruct (Z.eqb_spec b 0); [lia|].
  now rewrite (unit_not_infinity _ Hu).
Qed.

Lemma iter_xO_digits d : forall m,
  Zpos (digits2_pos (Pos.iter xO m d)) = Zpos (digits2_pos m) + Zpos d.
Proof.
  induction d as [|d IH] using Pos.peano_ind; intros m.
  - cbn. lia.
  - rewrite Pos.iter_succ. cbn [digits2_pos]. rewrite Pos2Z.inj_succ, IH. lia.
Qed.

(** [float(n)] is finite for a positive [n] below [2 ^ 1023]. *)
Lemma of_int_finite n :
  0 < n < 2 ^ 1023 -> is_infinity (PyNum.of_int n) = false.
Proof.
  intros [Hpos Hlt]. unfold PyNum.of_int.
  destruct n as [|p|p]; try lia. cbn [binary_normalize]. unfold binary_round.
  assert (Hd : Zpos (digits2_pos p) <= 1023).
  { pose proof (digits2_pos_bounds p) as [Hl _].
    assert (H : 2 ^ (Zpos (digits2_pos p) - 1) < 2 ^ 1023) by lia.
    apply Z.pow_lt_mono_r_iff in H; lia. }
  assert (H : let '(mz, ez) :=
                shl_align p 0 (fexp prec emax (Zpos (digits2_pos p) + 0)) in
              ez <= fexp prec emax (Zdigits2 (Zpos mz) + ez)
              /\ Zdigits2 (Zpos mz) + ez <= 1023).
  { unfold shl_align. rewrite Z.sub_0_r.
    destruct (fexp prec emax (Zpos (digits2_pos p) + 0)) as [|x|x] eqn:E;
      cbn [Zdigits2]; rewrite fexp_eq in *.
    - lia.
    - lia.
    - rewrite iter_xO_digits. lia. }
  destruct (shl_align p 0 _) as [mz ez]. destruct H as [H1 H2].
  apply finite_not_infinity.
  - apply round_valid; [lia|exact H1].
  - apply round_finite; [lia|exact H1|exact H2].
Qed.

(** X10.  For a non-empty list of fewer than [2 ^ 1023] topics the aggregator
    raises nothing: it returns a report, and the [success_rate] and the
    [image_coverage] of that report are floats between 0 and 1. *)
Theorem validation_rates :
  forall topics images,
    topics <> [] ->
    Z.of_nat (List.length topics) < 2 ^ 1023 ->
    exists d rate coverage,
      enhanced_validation topics images = Exc.Ok d
      /\ Dict.get d "success_rate" = Some (PFloat rate)
      /\ unit_float rate
      /\ Dict.get d "image_coverage" = Some (PFloat coverage)
      /\ unit_float coverage.
Proof.
  intros topics images Hne Hlt.
  assert (Hn : 0 < Z.of_nat (List.length topics)).
  { destruct topics; [contradiction|cbn [List.length]; lia]. }
  destruct (fold_step topics (mk [] [] 0 0 0)) as (Hc & Hv & Hw & _).
  cbn [confidence_scores valid_topics topics_with_images app] in Hc, Hv, Hw.
  pose proof (filter_length_le is_valid topics) as Lv.
  pose proof (filter_length_le has_images topics) as Lw.
  unfold enhanced_validation.
  set (a := fold_left step topics (mk [] [] 0 0 0)) in *.
  destruct (Z.eqb_spec (Z.of_nat (List.length topics)) 0) as [|_]; [lia|].
  rewrite (proj2 (Z.gtb_lt _ _) Hn).
  destruct (truediv_unit (valid_topics a) (Z.of_nat (List.length topics))
              ltac:(lia) Hn) as (rate & -> & Hrate).
  destruct (truediv_unit (topics_with_images a) (Z.of_nat (List.length topics))
              ltac:(lia) Hn) as (coverage & -> & Hcov).
  assert (Havg : exists r,
             match confidence_scores a with
             | [] => Exc.Ok (AInt 0)
             | _ :: _ =>
                 Exc.bind
                   (PyNum.float_truediv_int
                      (PyNum.sum (confidence_scores a))
                      (Z.of_nat (List.length (confidence_scores a))))
                   (fun r => Exc.Ok (AFloat r))
             end = Exc.Ok r).
  { rewrite Hc. destruct topics as [|t ts]; [contradiction|].
    cbn [map]. rewrite <- (length_map QuestionBlock.confidence_score) in Hn, Hlt.
    cbn [map] in Hn, Hlt. unfold PyNum.float_truediv_int.
    destruct (Z.eqb_spec (Z.of_nat (List.length
               (QuestionBlock.confidence_score t
                :: map QuestionBlock.confidence_score ts))) 0); [lia|].
    rewrite of_int_finite by lia. cbn [Exc.bind]. eauto. }
  destruct Havg as [avg Eavg].
  match goal with
  | |- context [Exc.bind ?c _] =>
      match c with
      | match confidence_scores a with _ => _ end =>
          replace c with (@Exc.Ok atom avg)
      end
  end.
  2: { rewrite <- Eavg. destruct (confidence_scores a); reflexivity. }
  cbn [Exc.bind]. do 3 eexists.
  split; [reflexivity|]. split; [reflexivity|]. split; [exact Hrate|].
  split; [reflexivity|exact Hcov].
Qed.

Lemma validation_rates_witness :
  exists d rate coverage,
    enhanced_validation Samples.validated_topics Examples.three_images
    = Exc.Ok d
    /\ Dict.get d "success_rate" = Some (PFloat rate)
    /\ unit_float rate
    /\ Dict.get d "image_coverage" = Some (PFloat coverage)
    /\ unit_float coverage.
Proof.
  apply (validation_rates Samples.validated_topics Examples.three_images).
  - discriminate.
  - vm_compute. reflexivity.
Defined.

End ValidationRates.


Section AssociateThenValidate.

Import ImageExtractor Assoc Validation Report.

Lemma scan_images_count topic images : forall idx,
  List.length (fst (scan_images topic idx images))
  = List.length (filter (associates topic) images).
Proof.
  induction images as [|image rest IH]; intros idx; [reflexivity|].
  rewrite scan_images_cons. cbn [fst filter]. rewrite length_app, IH.
  destruct (associates topic image); reflexivity.
Qed.

Lemma filter_nonempty_existsb {A} (f : A -> bool) (l : list A) :
  negb (Nat.eqb (List.length (filter f l)) 0) = existsb f l.
Proof.
  induction l as [|x l IH]; [reflexivity|]. cbn [filter existsb].
  destruct (f x); [reflexivity|exact IH].
Qed.

(** X11.  Validating what the associator returns: [image_associations] is the
    number of pairs of a topic and an image that the association rule
    joins, [topics_with_images] the number of topics that the rule joins
    with at least one image, and [total_images] the number of images
    that went in. *)
Theorem validation_after_association :
  forall topics images d,
    enhanced_validation (fst (associate_images_with_topics topics images))
                        (snd (associate_images_with_topics topics images))
    = Exc.Ok d ->
    topics <> [] ->
    Dict.get d "image_associations"
    = Some (PInt (Z.of_nat
                    (list_sum
                       (map (fun t => List.length (filter (associates t) images))
                            topics))))
    /\ Dict.get d "topics_with_images"
       = Some (PInt (Z.of_nat
                       (List.length
                          (filter (fun t => existsb (associates t) images)
                                  topics))))
    /\ Dict.get d "total_topics" = Some (PInt (Z.of_nat (List.length topics)))
    /\ Dict.get d "total_images" = Some (PInt (Z.of_nat (List.length images))).
Proof.
  intros topics images d H Hne.
  assert (Hne' : fst (associate_images_with_topics topics images) <> []).
  { rewrite associate_closed_form. cbn [fst].
    destruct topics; [contradiction|discriminate]. }
  destruct (validation_report _ _ d H Hne')
    as (avg & rate & coverage & lo & hi & -> & _).
  match goal with
  | |- context [fold_left step ?l ?a0] =>
      destruct (fold_step l a0) as (_ & _ & Hw & Hi & _)
  end.
  cbn [topics_with_images image_associations] in Hw, Hi.
  change (Dict.get _ "image_associations") with
    (Some (PInt (image_associations
                   (fold_left step
                      (fst (associate_images_with_topics topics images))
                      (mk [] [] 0 0 0))))).
  change (Dict.get _ "topics_with_images") with
    (Some (PInt (topics_with_images
                   (fold_left step
                      (fst (associate_images_with_topics topics images))
                      (mk [] [] 0 0 0))))).
  change (Dict.get _ "total_topics") with
    (Some (PInt (Z.of_nat (List.length
                   (fst (associate_images_with_topics topics images)))))).
  change (Dict.get _ "total_images") with
    (Some (PInt (Z.of_nat (List.length
                   (snd (associate_images_with_topics topics images)))))).
  rewrite Hw, Hi, !Z.add_0_l. rewrite associate_closed_form. cbn [fst snd].
  rewrite !length_map, map_map.
  assert (E1 : map (fun t => image_count
                      (QuestionBlock.set_images t (fst (scan_images t 0 images))))
                   topics
               = map (fun t => List.length (filter (associates t) images)) topics).
  { apply map_ext. intros t. unfold image_count. cbn.
    apply scan_images_count. }
  assert (E2 : forall l : list QuestionBlock.t,
             List.length
               (filter has_images
                  (map (fun t => QuestionBlock.set_images t
                                   (fst (scan_images t 0 images))) l))
             = List.length (filter (fun t => existsb (associates t) images) l)).
  { induction l as [|t l IH]; [reflexivity|]. cbn [map filter].
    replace (has_images (QuestionBlock.set_images t (fst (scan_images t 0 images))))
      with (existsb (associates t) images).
    - destruct (existsb (associates t) images); cbn [List.length]; now rewrite IH.
    - unfold has_images, image_count. cbn [QuestionBlock.images QuestionBlock.set_images].
      rewrite scan_images_count. symmetry. apply filter_nonempty_existsb. }
  rewrite E1, E2. repeat split; reflexivity.
Qed.

Lemma validation_after_association_witness :
  exists d,
    enhanced_validation
      (fst (associate_images_with_topics
              [Examples.rash_topic; Examples.plain_topic] Examples.three_images))
      (snd (associate_images_with_topics
              [Examples.rash_topic; Examples.plain_topic] Examples.three_images))
    = Exc.Ok d
    /\ Dict.get d "image_associations"
       = Some (PInt (Z.of_nat
                       (list_sum
                          (map (fun t => List.length
                                           (filter (associates t)
                                                   Examples.three_images))
                               [Examples.rash_topic; Examples.plain_topic]))))
    /\ Dict.get d "topics_with_images"
       = Some (PInt (Z.of_nat
                       (List.length
                          (filter (fun t => existsb (associates t)
                                                    Examples.three_images)
                                  [Examples.rash_topic; Examples.plain_topic]))))
    /\ Dict.get d "total_topics" = Some (PInt 2)
    /\ Dict.get d "total_images" = Some (PInt 3).
Proof.
  eexists. split; [vm_compute; reflexivity|].
  apply (validation_after_association
           [Examples.rash_topic; Examples.plain_topic] Examples.three_images).
  - vm_compute. reflexivity.
  - discriminate.
Defined.

End AssociateThenValidate.


(** * The matcher consumes only words of its pattern *)

Section MatcherFacts.

Import Re ReSpec.

Variable ignorecase : bool.

Lemma append_assoc (a b c : string) : ((a ++ b) ++ c = a ++ (b ++ c))%string.
Proof. induction a as [|x a IH]; cbn; [reflexivity|now rewrite IH]. Qed.

Lemma append_nil_r (a : string) : (a ++ "")%string = a.
Proof. induction a as [|x a IH]; cbn; [reflexivity|now rewrite IH]. Qed.

Lemma length_append (a b : string) :
  String.length (a ++ b) = (String.length a + String.length b)%nat.
Proof. induction a as [|x a IH]; cbn; [reflexivity|now rewrite IH]. Qed.

Lemma substring_prefix (w s : string) :
  String.substring 0 (String.length w) (w ++ s) = w.
Proof.
  induction w as [|c w IH]; cbn.
  - destruct s; reflexivity.
  - now rewrite IH.
Qed.

Lemma consumed_append (w s : string) : consumed (w ++ s) s = w.
Proof.
  unfold consumed. rewrite length_append.
  replace (String.length w + String.length s - String.length s)%nat
    with (String.length w) by lia.
  apply substring_prefix.
Qed.

Lemma rep_greedy_sound {R} a (k : string -> option R) x : forall s min,
  rep_greedy ignorecase R a min s k = Some x ->
  exists w s',
    s = (w ++ s')%string
    /\ all_chars (accepts ignorecase a) w = true
    /\ (min <= String.length w)%nat
    /\ k s' = Some x.
Proof.
  induction s as [|c s IH]; intros min H; cbn [rep_greedy] in H.
  - destruct min; [|discriminate]. exists ""%string, ""%string. auto.
  - destruct (accepts ignorecase a c) eqn:Ea.
    + destruct (rep_greedy ignorecase R a (Nat.pred min) s k) as [y|] eqn:Er.
      * injection H as ->. destruct (IH _ Er) as (w & s' & -> & Hw & Hm & Hk).
        exists (String c w), s'. cbn. rewrite Ea, Hw. repeat split; auto. lia.
      * destruct min; [|discriminate].
        exists ""%string, (String c s). auto.
    + destruct min; [|discriminate]. exists ""%string, (String c s). auto.
Qed.

Lemma rep_lazy_sound {R} a (k : string -> option R) x : forall s min,
  rep_lazy ignorecase R a min s k = Some x ->
  exists w s',
    s = (w ++ s')%string
    /\ all_chars (accepts ignorecase a) w = true
    /\ (min <= String.length w)%nat
    /\ k s' = Some x.
Proof.
  induction s as [|c s IH]; intros min H.
  - destruct min; cbn in H; [|discriminate].
    destruct (k ""%string) eqn:Ek; [|discriminate]. injection H as ->.
    exists ""%string, ""%string. auto.
  - assert (Hmore :
        (if accepts ignorecase a c
         then rep_lazy ignorecase R a (Nat.pred min) s k else None) = Some x ->
        exists w s',
          String c s = (w ++ s')%string
          /\ all_chars (accepts ignorecase a) w = true
          /\ (min <= String.length w)%nat /\ k s' = Some x).
    { destruct (accepts ignorecase a c) eqn:Ea; [|discriminate]. intros Hr.
      destruct (IH _ Hr) as (w & s' & -> & Hw & Hm & Hk).
      exists (String c w), s'. cbn. rewrite Ea, Hw. repeat split; auto. lia. }
    destruct min; cbn [rep_lazy] in H.
    + destruct (k (String c s)) eqn:Ek.
      * injection H as ->. exists ""%string, (String c s). auto.
      * apply Hmore. exact H.
    + apply Hmore. exact H.
Qed.

(** Whatever continuation the matcher is given, an answer comes from the
    continuation, called on what is left after a word of the pattern. *)
Lemma run_sound {R} r : forall s cap (k : string -> option string -> option R) x,
  run ignorecase R r s cap k = Some x ->
  exists w s' cap',
    s = (w ++ s')%string /\ Lang ignorecase r w /\ k s' cap' = Some x.
Proof.
  induction r as [| |a|a min greedy|a|r1 IH1 r2 IH2|r1 IH1 r2 IH2|r1 IH1];
    intros s cap k x H; cbn [run] in H.
  - exists ""%string, s, cap. cbn. auto.
  - discriminate.
  - destruct s as [|c s]; [discriminate|].
    destruct (accepts ignorecase a c) eqn:Ea; [|discriminate].
    exists (String c ""), s, cap. cbn. eauto.
  - destruct greedy.
    + destruct (rep_greedy_sound _ _ _ _ _ H) as (w & s' & -> & Hw & Hm & Hk).
      exists w, s', cap. cbn. auto.
    + destruct (rep_lazy_sound _ _ _ _ _ H) as (w & s' & -> & Hw & Hm & Hk).
      exists w, s', cap. cbn. auto.
  - assert (Hskip : k s cap = Some x ->
                    exists w s' cap',
                      s = (w ++ s')%string /\ Lang ignorecase (Opt a) w
                      /\ k s' cap' = Some x).
    { intros Hk. exists ""%string, s, cap. cbn. auto. }
    destruct s as [|c s]; [now apply Hskip|].
    destruct (accepts ignorecase a c) eqn:Ea; [|now apply Hskip].
    destruct (k s cap) eqn:Ek; [|now apply Hskip].
    injection H as ->. exists (String c ""), s, cap. cbn.
    split; [reflexivity|]. split; [right; eauto|exact Ek].
  - destruct (IH1 _ _ _ _ H) as (w1 & s1 & cap1 & -> & L1 & H2).
    destruct (IH2 _ _ _ _ H2) as (w2 & s2 & cap2 & -> & L2 & Hk).
    exists (w1 ++ w2)%string, s2, cap2. rewrite append_assoc.
    cbn. eauto 8.
  - destruct (run ignorecase R r1 s cap k) eqn:E1.
    + injection H as ->. destruct (IH1 _ _ _ _ E1) as (w & s' & cap' & -> & L & Hk).
      exists w, s', cap'. cbn. auto.
    + destruct (IH2 _ _ _ _ H) as (w & s' & cap' & -> & L & Hk).
      exists w, s', cap'. cbn. auto.
  - destruct (IH1 _ _ _ _ H) as (w & s' & cap' & -> & L & Hk).
    exists w, s', (Some (consumed (w ++ s') s')). cbn. auto.
Qed.

Lemma run_seq {R} r1 r2 s cap (k : string -> option string -> option R) x :
  run ignorecase R (Seq r1 r2) s cap k = Some x ->
  exists w s1 cap1,
    s = (w ++ s1)%string /\ Lang ignorecase r1 w
    /\ run ignorecase R r2 s1 cap1 k = Some x.
Proof. cbn [run]. apply run_sound. Qed.

(** A group hands the word it consumed to the continuation. *)
Lemma run_group {R} g s cap (k : string -> option string -> option R) x :
  run ignorecase R (Group g) s cap k = Some x ->
  exists w s1,
    s = (w ++ s1)%string /\ Lang ignorecase g w /\ k s1 (Some w) = Some x.
Proof.
  cbn [run]. intros H.
  destruct (run_sound g _ _ _ _ H) as (w & s1 & cap' & -> & L & Hk).
  rewrite consumed_append in Hk. eauto.
Qed.

Lemma rep_greedy_total {R} a (k : string -> option R) :
  (forall s, k s <> None) ->
  forall s, rep_greedy ignorecase R a 0 s k <> None.
Proof.
  intros Hk. induction s as [|c s IH]; cbn [rep_greedy]; [apply Hk|].
  destruct (accepts ignorecase a c); [|apply Hk].
  cbn [Nat.pred]. destruct (rep_greedy ignorecase R a 0 s k); [discriminate|].
  apply Hk.
Qed.

(** A greedy repetition before a continuation that cannot fail takes
    every character it can. *)
Lemma rep_greedy_maximal {R} a (k : string -> option R) x :
  (forall s, k s <> None) ->
  forall s min,
    rep_greedy ignorecase R a min s k = Some x ->
    exists w s',
      s = (w ++ s')%string
      /\ all_chars (accepts ignorecase a) w = true
      /\ (min <= String.length w)%nat
      /\ k s' = Some x
      /\ (s' = EmptyString
          \/ exists c rest,
              s' = String c rest /\ accepts ignorecase a c = false).
Proof.
  intros Hk. induction s as [|c s IH]; intros min H; cbn [rep_greedy] in H.
  - destruct min; [|discriminate]. exists ""%string, ""%string. auto 6.
  - destruct (accepts ignorecase a c) eqn:Ea.
    + destruct (rep_greedy ignorecase R a (Nat.pred min) s k) as [y|] eqn:Er.
      * injection H as ->.
        destruct (IH _ Er) as (w & s' & -> & Hw & Hm & Hx & Hend).
        exists (String c w), s'. cbn. rewrite Ea, Hw. repeat split; auto. lia.
      * destruct min; [|discriminate]. cbn [Nat.pred] in Er.
        now apply (rep_greedy_total a k Hk) in Er.
    + destruct min; [|discriminate].
      exists ""%string, (String c s). repeat split; eauto.
Qed.

(** [re.search] answers with a match anchored somewhere in the text. *)
Lemma search_sound r : forall s cap,
  search ignorecase r s = Some cap ->
  exists before s0 rest,
    s = (before ++ s0)%string /\ match_here ignorecase r s0 = Some (rest, cap).
Proof.
  induction s as [|c s IH]; intros cap H; cbn [search] in H.
  - destruct (match_here ignorecase r "") as [[rest cap']|] eqn:E; [|discriminate].
    injection H as ->. exists ""%string, ""%string, rest. auto.
  - destruct (match_here ignorecase r (String c s)) as [[rest cap']|] eqn:E.
    + injection H as ->. exists ""%string, (String c s), rest. auto.
    + destruct (IH _ H) as (before & s0 & rest & -> & Hm).
      exists (String c before), s0, rest. auto.
Qed.

(** Every entry of [re.findall] is group 1 of a match anchored somewhere
    in the text. *)
Lemma findall_from_sound r g : forall s skip,
  In g (findall_from ignorecase r skip s) ->
  exists before s0 rest cap,
    s = (before ++ s0)%string
    /\ match_here ignorecase r s0 = Some (rest, cap)
    /\ g = match cap with Some g => g | None => EmptyString end.
Proof.
  induction s as [|c s IH]; intros skip H.
  - destruct skip; cbn [findall_from] in H; [|contradiction].
    destruct (match_here ignorecase r "") as [[rest cap]|] eqn:E; [|contradiction].
    destruct H as [<-|[]]. exists ""%string, ""%string, rest, cap. auto.
  - assert (Htail : forall n,
               In g (findall_from ignorecase r n s) ->
               exists before s0 rest cap,
                 String c s = (before ++ s0)%string
                 /\ match_here ignorecase r s0 = Some (rest, cap)
                 /\ g = match cap with Some g => g | None => EmptyString end).
    { intros n Hn. destruct (IH _ Hn) as (before & s0 & rest & cap & -> & Hm & Hg).
      exists (String c before), s0, rest, cap. auto. }
    destruct skip; cbn [findall_from] in H; [|now apply (Htail skip)].
    destruct (match_here ignorecase r (String c s)) as [[rest cap]|] eqn:E.
    + destruct H as [<-|H]; [|now apply (Htail _ H)].
      exists ""%string, (String c s), rest, cap. auto.
    + now apply (Htail _ H).
Qed.

End MatcherFacts.


Section MatcherChains.

Import Re ReSpec.

Variable ignorecase : bool.

(** A chain of patterns is matched piece by piece: the last piece runs
    on what the pieces before it left. *)
Lemma run_seq_last {R} r rs :
  forall s cap (k : string -> option string -> option R) x,
    run ignorecase R (seq (rs ++ [r])) s cap k = Some x ->
    exists before s1 cap1,
      s = (before ++ s1)%string
      /\ Lang ignorecase (seq rs) before
      /\ run ignorecase R r s1 cap1 k = Some x.
Proof.
  induction rs as [|r0 rs IH]; intros s cap k x H.
  - exists ""%string, s, cap. cbn. auto.
  - assert (E : seq ((r0 :: rs) ++ [r]) = Seq r0 (seq (rs ++ [r]))).
    { cbn [app seq]. destruct rs; reflexivity. }
    rewrite E in H.
    destruct (run_seq ignorecase _ _ _ _ _ _ H) as (w & s1 & cap1 & -> & L & H1).
    destruct (IH _ _ _ _ H1) as (before & s2 & cap2 & -> & Lb & H2).
    exists (w ++ before)%string, s2, cap2. rewrite append_assoc.
    split; [reflexivity|]. split; [|exact H2].
    destruct rs as [|r1 rs]; cbn [seq].
    + cbn in Lb. subst before. now rewrite append_nil_r.
    + cbn [Lang]. eauto.
Qed.

(** A pattern that ends in a group: the match object's group 1 is a
    word of the group, sitting in the text right before the rest. *)
Lemma match_here_group g rs s rest cap :
  match_here ignorecase (seq (rs ++ [Group g])) s = Some (rest, cap) ->
  exists before w,
    s = (before ++ w ++ rest)%string
    /\ Lang ignorecase (seq rs) before
    /\ Lang ignorecase g w
    /\ cap = Some w.
Proof.
  unfold match_here. intros H.
  destruct (run_seq_last _ _ _ _ _ _ H) as (before & s1 & cap1 & -> & Lb & H1).
  destruct (run_group ignorecase _ _ _ _ _ H1) as (w & s2 & -> & Lw & [= <- <-]).
  exists before, w. auto.
Qed.

(** The same for a group that is a greedy repetition: it stops only at
    the end of the text or at a character it does not accept. *)
Lemma match_here_greedy_group a min rs s rest cap :
  match_here ignorecase (seq (rs ++ [Group (Rep a min true)])) s
  = Some (rest, cap) ->
  exists before w,
    s = (before ++ w ++ rest)%string
    /\ Lang ignorecase (seq rs) before
    /\ all_chars (accepts ignorecase a) w = true
    /\ (min <= String.length w)%nat
    /\ cap = Some w
    /\ (rest = EmptyString
        \/ exists c rest', rest = String c rest'
                           /\ accepts ignorecase a c = false).
Proof.
  unfold match_here. intros H.
  destruct (run_seq_last _ _ _ _ _ _ H) as (before & s1 & cap1 & -> & Lb & H1).
  cbn [run] in H1.
  apply rep_greedy_maximal in H1; [|discriminate].
  destruct H1 as (w & s2 & -> & Hw & Hm & Hk & Hend).
  rewrite consumed_append in Hk. injection Hk as <- <-.
  exists before, w. auto 8.
Qed.

End MatcherChains.

Section ClassifierFacts.

Import Re ReSpec EnhancedQuestionClassifier.

Lemma first_search_sound ps text g :
  first_search ps text = Some g ->
  exists p cap,
    In p ps /\ search true p text = Some cap
    /\ g = match cap with Some g => g | None => EmptyString end.
Proof.
  induction ps as [|p ps IH]; cbn [first_search]; [discriminate|].
  destruct (search true p text) as [cap|] eqn:E.
  - intros [= <-]. exists p, cap. cbn. auto.
  - intros H. destruct (IH H) as (p' & cap & Hin & Hs & Hg).
    exists p', cap. cbn. auto.
Qed.

Lemma first_findall_sound ps text o :
  In o (first_findall ps text) ->
  exists p, In p ps /\ In o (findall false p text).
Proof.
  induction ps as [|p ps IH]; cbn [first_findall]; [contradiction|].
  destruct (findall false p text) as [|m ms] eqn:E.
  - intros H. destruct (IH H) as (p' & Hin & Ho). exists p'. cbn. auto.
  - intros H. exists p. rewrite E. cbn. auto.
Qed.

Lemma accepts_A_to_F c :
  accepts true (range "A" "F") c = true ->
  In (String (upper_char c) EmptyString) ["A"; "B"; "C"; "D"; "E"; "F"]%string.
Proof.
  destruct c as [[|] [|] [|] [|] [|] [|] [|] [|]];
    intros H; vm_compute in H; try discriminate H; vm_compute; tauto.
Qed.

(** X13.  The answer key that [_extract_answer] reports is one capital letter
    from A to F, whatever the case of the letter in the text. *)
Theorem extract_answer_is_a_letter :
  forall text a,
    _extract_answer text = Some a ->
    In a ["A"; "B"; "C"; "D"; "E"; "F"]%string.
Proof.
  intros text a H. unfold _extract_answer in H.
  destruct (first_search _ text) as [g|] eqn:E; [|discriminate].
  injection H as <-.
  destruct (first_search_sound _ _ _ E) as (p & cap & Hin & Hs & ->).
  destruct (search_sound true _ _ _ Hs) as (before & s0 & rest & _ & Hm).
  assert (Hg : exists rs, p = seq (rs ++ [Group (One (range "A" "F"))])).
  { destruct Hin as [<-|[<-|[<-|[]]]].
    - exists [lit "correct answer"; Opt (chr ":"); spaces0]. reflexivity.
    - exists [lit "answer"; Opt (chr ":"); spaces0]. reflexivity.
    - exists [lit "the answer is"; spaces0]. reflexivity. }
  destruct Hg as [rs ->].
  destruct (match_here_group true _ _ _ _ _ Hm) as (pre & w & _ & _ & Lw & ->).
  destruct Lw as (c & -> & Hc). cbn [upper]. now apply accepts_A_to_F.
Qed.

Lemma extract_answer_is_a_letter_witness :
  In "B"%string ["A"; "B"; "C"; "D"; "E"; "F"]%string.
Proof.
  apply (extract_answer_is_a_letter "The correct answer: b, see above.").
  vm_compute. reflexivity.
Defined.

Lemma rstrip_keeps (b : string) (c : ascii) :
  is_space c = false ->
  rstrip (b ++ String c EmptyString) = (b ++ String c EmptyString)%string.
Proof.
  intros Hc. induction b as [|x b IH]; cbn [append rstrip].
  - now rewrite Hc.
  - rewrite IH. destruct b; reflexivity.
Qed.

Lemma lstrip_body (b : string) (c : ascii) (p : ascii -> bool) :
  is_space c = false ->
  all_chars p b = true ->
  exists b',
    lstrip (b ++ String c EmptyString) = (b' ++ String c EmptyString)%string
    /\ all_chars p b' = true
    /\ match b' with
       | String x _ => is_space x = false
       | EmptyString => True
       end.
Proof.
  intros Hc. induction b as [|x b IH]; cbn [append lstrip all_chars]; intros Hb.
  - exists ""%string. cbn. rewrite Hc. auto.
  - apply andb_prop in Hb. destruct Hb as [Hx Hb].
    destruct (is_space x) eqn:Ex.
    + exact (IH Hb).
    + exists (String x b). cbn. rewrite Hx, Hb. auto.
Qed.

Lemma accepts_not_dot c :
  accepts true (not_chr ".") c = true -> not_dot c = true.
Proof.
  unfold not_dot, accepts, not_chr. cbn [existsb item_has].
  destruct (Ascii.eqb "." c); cbn [orb xorb negb]; [discriminate|reflexivity].
Qed.

Lemma all_chars_impl (p q : ascii -> bool) w :
  (forall c, p c = true -> q c = true) ->
  all_chars p w = true -> all_chars q w = true.
Proof.
  intros Hpq. induction w as [|c w IH]; cbn; [reflexivity|].
  intros H. apply andb_prop in H. destruct H as [Hc Hw].
  now rewrite (Hpq _ Hc), IH.
Qed.

(** X14.  The rationale that [_extract_rationale] reports is one sentence: it
    ends with a full stop, has no other full stop, and carries no white
    space at either end. *)
Theorem extract_rationale_is_a_sentence :
  forall text r,
    _extract_rationale text = Some r ->
    exists body,
      r = (body ++ ".")%string
      /\ all_chars not_dot body = true
      /\ lstrip r = r /\ rstrip r = r.
Proof.
  intros text r H. unfold _extract_rationale in H.
  destruct (first_search _ text) as [g|] eqn:E; [|discriminate].
  injection H as <-.
  destruct (first_search_sound _ _ _ E) as (p & cap & Hin & Hs & ->).
  destruct (search_sound true _ _ _ Hs) as (before & s0 & rest & _ & Hm).
  assert (Hg : exists rs,
             p = seq (rs ++ [Group (Seq (Rep (not_chr ".") 1 true) (lit "."))])).
  { destruct Hin as [<-|[<-|[<-|[]]]].
    - exists [lit "rationale"; Opt (chr ":"); spaces0]. reflexivity.
    - exists [lit "explanation"; Opt (chr ":"); spaces0]. reflexivity.
    - exists [lit "because"; Opt (chr ":"); spaces0]. reflexivity. }
  destruct Hg as [rs ->].
  destruct (match_here_group true _ _ _ _ _ Hm) as (pre & w & _ & _ & Lw & ->).
  destruct Lw as (w1 & w2 & -> & [Hw1 _] & (c & -> & Hc)).
  assert (c = "."%char) as ->.
  { cbn in Hc. destruct c as [[|] [|] [|] [|] [|] [|] [|] [|]];
      vm_compute in Hc; try discriminate Hc; reflexivity. }
  apply (all_chars_impl _ not_dot _ accepts_not_dot) in Hw1.
  destruct (lstrip_body w1 "." not_dot eq_refl Hw1) as (b' & El & Hb' & Hfirst).
  exists b'. unfold strip. rewrite El, rstrip_keeps by reflexivity.
  repeat split; auto.
  - destruct b' as [|x b']; [reflexivity|]. cbn [append lstrip]. now rewrite Hfirst.
  - now apply rstrip_keeps.
Qed.

Lemma extract_rationale_is_a_sentence_witness :
  exists body,
    "it lowers preload."%string = (body ++ ".")%string
    /\ all_chars not_dot body = true
    /\ lstrip "it lowers preload." = "it lowers preload."%string
    /\ rstrip "it lowers preload." = "it lowers preload."%string.
Proof.
  apply (extract_rationale_is_a_sentence
           "Answer: A. Rationale:  it lowers preload. It also helps.").
  vm_compute. reflexivity.
Defined.

Lemma accepts_not_newline c : accepts false not_newline c = not_nl c.
Proof.
  unfold not_nl, accepts, not_newline. cbn [existsb item_has andb].
  destruct (Ascii.eqb newline c); reflexivity.
Qed.

(** X15.  Every option that [classify] extracts is a piece of the text that
    is not empty, holds no line break and runs to the end of its line. *)
Theorem classify_options_are_line_tails :
  forall text has_images o,
    In o (extracted_options (classify text has_images)) ->
    o <> EmptyString
    /\ all_chars not_nl o = true
    /\ exists before after,
        text = (before ++ o ++ after)%string /\ at_line_end after.
Proof.
  intros text has_images o H. unfold classify in H.
  destruct (best_match text has_images) as [best_type best_confidence].
  cbn [extracted_options] in H.
  destruct (String.eqb best_type "multiple_choice" || String.eqb best_type "sata");
    [|contradiction].
  destruct (first_findall_sound _ _ _ H) as (p & Hin & Ho).
  destruct (findall_from_sound false _ _ _ _ Ho)
    as (before & s0 & rest & cap & -> & Hm & ->).
  assert (Hg : exists rs, p = seq (rs ++ [Group (Rep not_newline 1 true)])).
  { destruct Hin as [<-|[<-|[]]].
    - exists [One (range "A" "F"); lit "."; spaces1]. reflexivity.
    - exists [lit "("; One (range "A" "F"); lit ")"; spaces1]. reflexivity. }
  destruct Hg as [rs ->].
  destruct (match_here_greedy_group false _ _ _ _ _ _ Hm)
    as (pre & w & -> & _ & Hw & Hlen & -> & Hend).
  split; [|split].
  - intros ->. cbn in Hlen. lia.
  - eapply all_chars_impl; [|exact Hw]. intros c Hc.
    now rewrite accepts_not_newline in Hc.
  - exists (before ++ pre)%string, rest. split.
    + now rewrite append_assoc.
    + destruct Hend as [->|(c & rest' & -> & Hc)]; [now left|right].
      rewrite accepts_not_newline in Hc. unfold not_nl in Hc.
      apply Bool.negb_false_iff, Ascii.eqb_eq in Hc. subst c. eauto.
Qed.

Lemma classify_options_are_line_tails_witness :
  "Cough"%string <> EmptyString
  /\ all_chars not_nl "Cough" = true
  /\ exists before after,
      Examples.sata_lines = (before ++ "Cough" ++ after)%string
      /\ at_line_end after.
Proof.
  apply (classify_options_are_line_tails Examples.sata_lines false "Cough").
  vm_compute. tauto.
Defined.

End ClassifierFacts.


Section ClassifierShape.

Import Re EnhancedQuestionClassifier Report.

Lemma type_confidence_sign text has_images entry :
  In entry patterns ->
  type_confidence text has_images (snd entry) = 0%float
  \/ (0 <? type_confidence text has_images (snd entry))%float = true.
Proof.
  unfold patterns. intros [<-|[<-|[<-|[<-|[]]]]];
    unfold type_confidence; cbn [snd fst fold_left];
    generalize (has_images
                && existsb (fun p => found (search true p text)) image_indicators);
    repeat match goal with
           | |- context [found ?x] => generalize (found x)
           end;
    intros; repeat match goal with b : bool |- _ => destruct b end;
    first [left; reflexivity | right; reflexivity].
Qed.

(** The loop keeps either the start value or a listed type with a
    positive score. *)
Lemma best_match_sign text has_images :
  best_match text has_images = ("unknown"%string, 0%float)
  \/ (In (fst (best_match text has_images)) (map fst patterns)
      /\ (0 <? snd (best_match text has_images))%float = true).
Proof.
  unfold best_match.
  assert (H : forall l best,
             (forall e, In e l -> In e patterns) ->
             (best = ("unknown"%string, 0%float)
              \/ (In (fst best) (map fst patterns)
                  /\ (0 <? snd best)%float = true)) ->
             let b := fold_left
                        (fun best entry =>
                           let confidence :=
                             type_confidence text has_images (snd entry) in
                           if (snd best <? confidence)%float
                           then (fst entry, confidence) else best) l best in
             b = ("unknown"%string, 0%float)
             \/ (In (fst b) (map fst patterns) /\ (0 <? snd b)%float = true)).
  { induction l as [|e l IH]; intros best Hl Hb; [exact Hb|].
    cbn [fold_left]. apply IH; [intros; apply Hl; now right|].
    cbv zeta.
    destruct (snd best <? type_confidence text has_images (snd e))%float eqn:E;
      [|exact Hb].
    right. cbn [fst snd]. split; [apply in_map, Hl; now left|].
    destruct (type_confidence_sign text has_images e (Hl e (or_introl eq_refl)))
      as [E0|Hpos]; [|exact Hpos].
    exfalso. rewrite E0 in E. destruct Hb as [->|[_ Hb]].
    - discriminate E.
    - apply ltb_leb in Hb. apply leb_not_ltb in Hb. congruence. }
  apply H; [auto|now left].
Qed.

(** X12.  What [classify] returns for any text: the type is [unknown] or one
    of the four listed types; the confidence lies between 0 and 1 and is
    0 exactly for [unknown]; options are extracted only for
    [multiple_choice] and [sata]; no images are attached. *)
Theorem classify_result_shape :
  forall text has_images,
    let r := classify text has_images in
    In (question_type r)
       ["unknown"; "multiple_choice"; "sata"; "fill_blank"; "matrix"]%string
    /\ unit_float (confidence r)
    /\ (question_type r = "unknown"%string <-> confidence r = 0%float)
    /\ (extracted_options r <> [] ->
        question_type r = "multiple_choice"%string
        \/ question_type r = "sata"%string)
    /\ associated_images r = [].
Proof.
  intros text has_images r. subst r. unfold classify.
  pose proof (best_match_sign text has_images) as Hb.
  destruct (best_match text has_images) as [best_type best_confidence].
  cbn [question_type confidence extracted_options associated_images fst snd] in *.
  assert (Hopt :
            (if String.eqb best_type "multiple_choice"
                || String.eqb best_type "sata"
             then first_findall option_patterns text else []) <> [] ->
            best_type = "multiple_choice"%string \/ best_type = "sata"%string).
  { destruct (String.eqb_spec best_type "multiple_choice") as [->|_]; [auto|].
    destruct (String.eqb_spec best_type "sata") as [->|_]; [auto|].
    cbn [orb]. congruence. }
  destruct Hb as [[= -> ->]|[Hin Hpos]].
  - split; [now left|]. split; [split; reflexivity|].
    split; [split; reflexivity|]. split; [exact Hopt|reflexivity].
  - assert (Hmin : unit_float (PyNum.min2 best_confidence 1)
                   /\ (0 <? PyNum.min2 best_confidence 1)%float = true).
    { unfold PyNum.min2.
      destruct (1 <? best_confidence)%float eqn:E.
      - repeat split; reflexivity.
      - split; [|exact Hpos]. split; [now apply ltb_leb|].
        apply (leb_total 0 0 1 best_confidence);
          [reflexivity|now apply ltb_leb|exact E]. }
    destruct Hmin as [Hunit Hmpos].
    split; [right; exact Hin|]. split; [exact Hunit|].
    split; [|split; [exact Hopt|reflexivity]].
    split.
    + intros ->. cbn in Hin.
      destruct Hin as [H|[H|[H|[H|[]]]]]; discriminate H.
    + intros E0. rewrite E0 in Hmpos. discriminate Hmpos.
Qed.

End ClassifierShape.


Section DetectorSelection.

Import PDFImageExtractor Detect.

Context {cv : OpenCV}.

Lemma insert_desc_perm r l : Permutation (insert_desc r l) (r :: l).
Proof.
  induction l as [|r' rest IH]; cbn [insert_desc]; [reflexivity|].
  destruct (confidence_of r <? confidence_of r')%float; [|reflexivity].
  rewrite IH. apply perm_swap.
Qed.

Lemma sort_desc_perm l : Permutation (sort_desc l) l.
Proof.
  unfold sort_desc. induction l as [|r rest IH]; cbn [fold_right]; [reflexivity|].
  rewrite insert_desc_perm. now constructor.
Qed.

Lemma sorted_app_inv (l1 l2 : list Region) :
  non_increasing (l1 ++ l2) ->
  forall a b, In a l1 -> In b l2 -> not_below a b.
Proof.
  unfold non_increasing. induction l1 as [|x l1 IH]; cbn; [contradiction|].
  intros Hs a b [<-|Ha] Hb.
  - apply StronglySorted_inv in Hs. destruct Hs as [_ Hall].
    rewrite Forall_forall in Hall. apply Hall, in_or_app. now right.
  - apply StronglySorted_inv in Hs. destruct Hs as [Hs _]. now apply (IH Hs).
Qed.

(** X16.  The cut to ten candidates keeps the best ones: the returned regions
    together with the dropped ones are exactly the candidates that
    passed the filters, no dropped region has a higher confidence than a
    returned one, and nothing is dropped when at most ten passed. *)
Theorem detector_keeps_the_best :
  forall gray_img text_mask,
    exists dropped,
      Permutation (_detect_image_like_regions gray_img text_mask ++ dropped)
                  (collect (found_contours gray_img text_mask))
      /\ (forall r r',
             In r (_detect_image_like_regions gray_img text_mask) ->
             In r' dropped -> not_below r r')
      /\ ((List.length (collect (found_contours gray_img text_mask)) <= 10)%nat ->
          dropped = []).
Proof.
  intros gray_img text_mask. rewrite detect_unfold.
  set (l := collect (found_contours gray_img text_mask)).
  exists (skipn 10 (sort_desc l)). split; [|split].
  - rewrite firstn_skipn. apply sort_desc_perm.
  - apply sorted_app_inv. rewrite firstn_skipn.
    apply sort_desc_sorted, collect_passes.
  - intros Hlen. apply skipn_all2.
    now rewrite (Permutation_length (sort_desc_perm l)).
Qed.

End DetectorSelection.

Section TextMaskFacts.

Import PDFImageExtractor Detect TextRegions TextSpec.

Lemma mask_out_outside img_shape mask box r c :
  Np.rows mask = fst img_shape -> Np.cols mask = snd img_shape ->
  0 <= r < fst img_shape -> 0 <= c < snd img_shape ->
  on_page box -> ~ padded_covers box r c ->
  Np.px (mask_out img_shape mask box) r c = Np.px mask r c.
Proof.
  destruct box as [[[x y] w] h]. intros Hrows Hcols Hr Hc [Hx Hy] Hout.
  unfold padded_covers in Hout.
  cbn. rewrite Hrows, Hcols.
  destruct (Np.in_slice (fst img_shape) (Z.max 0 (y - 5))
              (Z.min (fst img_shape) (y + h + 5)) r) eqn:Er; [|reflexivity].
  destruct (Np.in_slice (snd img_shape) (Z.max 0 (x - 5))
              (Z.min (snd img_shape) (x + w + 5)) c) eqn:Ec; [|reflexivity].
  exfalso. apply Hout.
  unfold Np.in_slice, Np.bound in Er, Ec.
  apply andb_prop in Er, Ec. destruct Er as [Er1 Er2], Ec as [Ec1 Ec2].
  destruct (Z.ltb_spec (Z.max 0 (y - 5)) 0); [lia|].
  destruct (Z.ltb_spec (Z.min (fst img_shape) (y + h + 5)) 0); [lia|].
  destruct (Z.ltb_spec (Z.max 0 (x - 5)) 0); [lia|].
  destruct (Z.ltb_spec (Z.min (snd img_shape) (x + w + 5)) 0); [lia|].
  apply Z.leb_le in Er1, Ec1. apply Z.ltb_lt in Er2, Ec2. lia.
Qed.

Lemma fold_mask_out_outside img_shape r c text_boxes : forall mask,
  Np.rows mask = fst img_shape -> Np.cols mask = snd img_shape ->
  0 <= r < fst img_shape -> 0 <= c < snd img_shape ->
  (forall box, In box text_boxes -> on_page box /\ ~ padded_covers box r c) ->
  Np.px (fold_left (mask_out img_shape) text_boxes mask) r c = Np.px mask r c.
Proof.
  induction text_boxes as [|b rest IH]; intros mask Hrows Hcols Hr Hc H;
    cbn [fold_left]; [reflexivity|].
  destruct (mask_out_keeps_shape img_shape mask b) as [Hr' Hc'].
  rewrite IH; try congruence.
  - apply mask_out_outside; auto; apply H; now left.
  - intros box Hin. apply H. now right.
Qed.

Lemma fold_mask_out_shape img_shape text_boxes : forall mask,
  Np.rows (fold_left (mask_out img_shape) text_boxes mask) = Np.rows mask
  /\ Np.cols (fold_left (mask_out img_shape) text_boxes mask) = Np.cols mask.
Proof.
  induction text_boxes as [|b rest IH]; intros mask; cbn [fold_left]; [auto|].
  destruct (IH (mask_out img_shape mask b)) as [-> ->].
  apply mask_out_keeps_shape.
Qed.

Lemma fold_mask_out_binary img_shape r c text_boxes : forall mask,
  Np.px mask r c = 0 \/ Np.px mask r c = 255 ->
  Np.px (fold_left (mask_out img_shape) text_boxes mask) r c = 0
  \/ Np.px (fold_left (mask_out img_shape) text_boxes mask) r c = 255.
Proof.
  induction text_boxes as [|b rest IH]; intros mask H; cbn [fold_left];
    [exact H|].
  apply IH. destruct b as [[[x y] w] h]. cbn.
  destruct (_ && _); [now left|exact H].
Qed.

Lemma land_255 g : 0 <= g < 256 -> Z.land g 255 = g.
Proof.
  intros Hg. change 255 with (Z.ones 8).
  rewrite Z.land_ones by lia. apply Z.mod_small. exact Hg.
Qed.

(** X17.  The text mask has the shape of the page and holds only the values 0
    and 255.  For boxes that lie on the page, a pixel outside every
    padded box is 255 in the mask, and the masked image shows the page
    there unchanged (for 8-bit gray values). *)
Theorem text_mask_leaves_the_rest :
  forall img_shape text_boxes gray_img,
    let mask := _create_text_mask img_shape text_boxes in
    Np.rows mask = fst img_shape /\ Np.cols mask = snd img_shape
    /\ (forall r c, Np.px mask r c = 0 \/ Np.px mask r c = 255)
    /\ (forall r c,
           Forall on_page text_boxes ->
           0 <= r < fst img_shape -> 0 <= c < snd img_shape ->
           (forall box, In box text_boxes -> ~ padded_covers box r c) ->
           Np.px mask r c = 255
           /\ (0 <= Np.px gray_img r c < 256 ->
               Np.px (bitwise_and gray_img mask) r c = Np.px gray_img r c)).
Proof.
  intros img_shape text_boxes gray_img mask. subst mask.
  unfold _create_text_mask.
  destruct (fold_mask_out_shape img_shape text_boxes (Np.full img_shape 255))
    as [Hrows Hcols].
  split; [exact Hrows|]. split; [exact Hcols|]. split.
  - intros r c. apply fold_mask_out_binary. now right.
  - intros r c Hon Hr Hc Hout.
    assert (E : Np.px (fold_left (mask_out img_shape) text_boxes
                                 (Np.full img_shape 255)) r c = 255).
    { rewrite fold_mask_out_outside; auto.
      intros box Hin. rewrite Forall_forall in Hon. auto. }
    split; [exact E|]. intros Hg. cbn [bitwise_and Np.px]. rewrite E.
    now apply land_255.
Qed.

Lemma text_mask_leaves_the_rest_witness :
  Np.px (_create_text_mask Examples.page_shape [Examples.label_box]) 10 10 = 255
  /\ (0 <= Np.px Examples.page 10 10 < 256 ->
      Np.px (bitwise_and Examples.page
               (_create_text_mask Examples.page_shape [Examples.label_box]))
            10 10
      = Np.px Examples.page 10 10).
Proof.
  apply (proj2 (proj2 (proj2
           (text_mask_leaves_the_rest Examples.page_shape [Examples.label_box]
                                      Examples.page)))).
  - repeat constructor; vm_compute; discriminate.
  - vm_compute. split; [discriminate|reflexivity].
  - vm_compute. split; [discriminate|reflexivity].
  - intros box [<-|[]]. vm_compute. intros [[H _] _]. apply H. reflexivity.
Defined.

Lemma fold_raise {A} (f : list TextBox -> A -> Exc.result (list TextBox)) e :
  forall l,
    fold_left (fun acc i => Exc.bind acc (fun b => f b i)) l (Exc.Raise e)
    = Exc.Raise e.
Proof. induction l as [|i l IH]; cbn; [reflexivity|exact IH]. Qed.

Lemma row_sound data acc i boxes :
  row data acc i = Exc.Ok boxes ->
  boxes = acc \/ exists box, boxes = (acc ++ [box])%list /\ read_from data i box.
Proof.
  unfold row, getitem, read_from.
  destruct (nth_error (conf data) i) as [[n|]|] eqn:Ec; cbn [Exc.bind];
    try discriminate.
  destruct (Z.gtb_spec n 30) as [Hn|_]; [|intros [= <-]; now left].
  destruct (nth_error (left data) i) as [x|]; cbn [Exc.bind]; [|discriminate].
  destruct (nth_error (top data) i) as [y|]; cbn [Exc.bind]; [|discriminate].
  destruct (nth_error (width data) i) as [w|]; cbn [Exc.bind]; [|discriminate].
  destruct (nth_error (height data) i) as [h|]; cbn [Exc.bind]; [|discriminate].
  destruct (Z.gtb_spec w 10) as [Hw|_]; [|intros [= <-]; now left].
  destruct (Z.gtb_spec h 10) as [Hh|_]; [|intros [= <-]; now left].
  cbn [andb]. intros [= <-]. right. exists (x, y, w, h). split; [reflexivity|].
  exists n, x, y, w, h. repeat split; auto; lia.
Qed.

Lemma rows_sound data : forall l acc boxes,
  fold_left (fun acc i => Exc.bind acc (fun b => row data b i)) l (Exc.Ok acc)
  = Exc.Ok boxes ->
  forall box, In box boxes ->
              In box acc \/ exists i, In i l /\ read_from data i box.
Proof.
  induction l as [|i l IH]; intros acc boxes H box Hin; cbn [fold_left] in H.
  - injection H as <-. now left.
  - cbn [Exc.bind] in H. destruct (row data acc i) as [acc'|e] eqn:Er.
    + destruct (IH _ _ H box Hin) as [Hacc|(j & Hj & Hr)].
      * destruct (row_sound _ _ _ _ Er) as [->|(b & -> & Hb)]; [now left|].
        apply in_app_or in Hacc. destruct Hacc as [Hacc|[<-|[]]]; [now left|].
        right. exists i. cbn. auto.
      * right. exists j. cbn. auto.
    + rewrite fold_raise in H. discriminate.
Qed.

(** X18.  Whatever OCR delivers, every text box that [_detect_text_regions]
    reports is the rectangle of a row the loop visited whose confidence
    is above 30 and whose width and height are above 10. *)
Theorem text_regions_sound :
  forall ocr box,
    In box (_detect_text_regions ocr) ->
    exists data i,
      ocr = Exc.Ok data /\ (i < List.length (text data))%nat
      /\ read_from data i box.
Proof.
  intros ocr box H. unfold _detect_text_regions in H.
  destruct ocr as [data|e]; cbn [Exc.bind] in H; [|contradiction].
  destruct (rows data) as [boxes|e] eqn:E; [|contradiction].
  destruct (rows_sound data _ _ _ E box H) as [[]|(i & Hi & Hr)].
  exists data, i. apply in_seq in Hi. repeat split; auto. lia.
Qed.

Lemma text_regions_sound_witness :
  exists data i,
    Exc.Ok OcrSamples.three_rows = Exc.Ok data
    /\ (i < List.length (text data))%nat
    /\ read_from data i (200, 150, 120, 40).
Proof.
  apply (text_regions_sound (Exc.Ok OcrSamples.three_rows) (200, 150, 120, 40)).
  vm_compute. tauto.
Defined.

Lemma rows_raise data i : forall l acc,
  In i l ->
  (nth_error (conf data) i = None \/ nth_error (conf data) i = Some None) ->
  exists e,
    fold_left (fun acc i => Exc.bind acc (fun b => row data b i)) l acc
    = Exc.Raise e.
Proof.
  induction l as [|j l IH]; intros acc Hin Hbad; [contradiction|].
  cbn [fold_left]. destruct acc as [boxes|e].
  - destruct Hin as [->|Hin].
    + assert (Hr : exists e, row data boxes i = Exc.Raise e).
      { unfold row, getitem. destruct Hbad as [-> | ->]; cbn; eauto. }
      destruct Hr as [e Hr]. cbn [Exc.bind]. rewrite Hr, fold_raise. eauto.
    + now apply IH.
  - cbn [Exc.bind]. rewrite fold_raise. eauto.
Qed.

(** X19.  The [try] block is all or nothing: when OCR fails, or when one row
    the loop visits has no readable confidence, no text box is reported
    at all, also none of the rows before; the mask is then 255
    everywhere and the detector sees the page unmasked. *)
Theorem ocr_failure_disables_masking :
  forall ocr img_shape gray_img,
    unreadable ocr ->
    _detect_text_regions ocr = []
    /\ forall r c,
        Np.px (_create_text_mask img_shape (_detect_text_regions ocr)) r c = 255
        /\ (0 <= Np.px gray_img r c < 256 ->
            Np.px (bitwise_and gray_img
                     (_create_text_mask img_shape (_detect_text_regions ocr)))
                  r c
            = Np.px gray_img r c).
Proof.
  intros ocr img_shape gray_img Hbad.
  assert (E : _detect_text_regions ocr = []).
  { unfold _detect_text_regions.
    destruct Hbad as [[e ->]|(data & i & -> & Hi & Hc)]; [reflexivity|].
    cbn [Exc.bind]. unfold rows.
    destruct (rows_raise data i (List.seq 0 (List.length (text data)))
                         (Exc.Ok []) ltac:(apply in_seq; lia) Hc) as [e ->].
    reflexivity. }
  split; [exact E|]. intros r c. rewrite E. cbn. split; [reflexivity|].
  apply land_255.
Qed.

Lemma ocr_failure_disables_masking_witness :
  _detect_text_regions (Exc.Ok OcrSamples.broken_rows) = []
  /\ forall r c,
      Np.px (_create_text_mask Examples.page_shape
               (_detect_text_regions (Exc.Ok OcrSamples.broken_rows))) r c = 255
      /\ (0 <= Np.px Examples.page r c < 256 ->
          Np.px (bitwise_and Examples.page
                   (_create_text_mask Examples.page_shape
                      (_detect_text_regions (Exc.Ok OcrSamples.broken_rows))))
                r c
          = Np.px Examples.page r c).
Proof.
  apply (ocr_failure_disables_masking (Exc.Ok OcrSamples.broken_rows)
                                      Examples.page_shape Examples.page).
  right. exists OcrSamples.broken_rows, 1%nat.
  split; [reflexivity|]. split; [vm_compute; lia|]. right. reflexivity.
Defined.

End TextMaskFacts.


(** * Numbers in file names and page arguments *)

Section NumberStrings.

Import Re ReSpec EnhancedQuestionClassifier PyStr NumSpec.

Lemma str_of_nat_fuel_enough : forall f1 f2 n,
  (n < f1)%nat -> (n < f2)%nat -> str_of_nat_fuel f1 n = str_of_nat_fuel f2 n.
Proof.
  induction f1 as [|f1 IH]; intros f2 n H1 H2; [lia|].
  destruct f2 as [|f2]; [lia|]. cbn [str_of_nat_fuel].
  destruct (Nat.ltb_spec n 10) as [|Hge]; [reflexivity|].
  assert (n / 10 < n)%nat by (apply Nat.div_lt; lia).
  rewrite (IH f2 (n / 10)%nat) by lia. reflexivity.
Qed.

Lemma str_of_nat_unfold n :
  str_of_nat n
  = ((if (n <? 10)%nat then EmptyString else str_of_nat (n / 10))
     ++ String (digit_char (n mod 10)) EmptyString)%string.
Proof.
  unfold str_of_nat at 1. cbn [str_of_nat_fuel].
  destruct (Nat.ltb_spec n 10) as [|Hge]; [reflexivity|].
  assert (n / 10 < n)%nat by (apply Nat.div_lt; lia).
  unfold str_of_nat.
  rewrite (str_of_nat_fuel_enough n (S (n / 10)) (n / 10)) by lia. reflexivity.
Qed.

Lemma digit_char_facts d :
  (d < 10)%nat ->
  is_digit (digit_char d) = true
  /\ (nat_of_ascii (digit_char d) - 48)%nat = d
  /\ is_space (digit_char d) = false
  /\ Ascii.eqb (digit_char d) "_" = false
  /\ Ascii.eqb (digit_char d) "-" = false.
Proof.
  intros Hd. do 10 (destruct d as [|d]; [repeat split; reflexivity|]). lia.
Qed.

Lemma all_chars_app p (a b : string) :
  all_chars p (a ++ b) = all_chars p a && all_chars p b.
Proof.
  induction a as [|c a IH]; cbn; [reflexivity|]. now rewrite IH, andb_assoc.
Qed.

(** [str(n)] is a non-empty string of decimal digits. *)
Lemma str_of_nat_digits n :
  all_chars is_digit (str_of_nat n) = true /\ str_of_nat n <> EmptyString.
Proof.
  induction n as [n IH] using lt_wf_ind. rewrite str_of_nat_unfold.
  assert (Hd : (n mod 10 < 10)%nat) by (apply Nat.mod_upper_bound; lia).
  destruct (digit_char_facts _ Hd) as (Hdig & _).
  split.
  - rewrite all_chars_app. cbn [all_chars]. rewrite Hdig, !andb_true_r.
    destruct (Nat.ltb_spec n 10) as [|Hge]; [reflexivity|].
    assert (n / 10 < n)%nat by (apply Nat.div_lt; lia).
    now rewrite (proj1 (IH _ H)).
  - destruct (if (n <? 10)%nat then _ else _); discriminate.
Qed.

(** Reading the digits of [str(n)] gives [n] back, whatever came
    before, and counts them. *)
Lemma scan_str n : forall t acc k after,
  scan (str_of_nat n ++ t) acc k after
  = scan t (acc * 10 ^ Z.of_nat (String.length (str_of_nat n)) + Z.of_nat n)
         (k + String.length (str_of_nat n)) true.
Proof.
  induction n as [n IH] using lt_wf_ind. intros t acc k after.
  rewrite str_of_nat_unfold.
  assert (Hd : (n mod 10 < 10)%nat) by (apply Nat.mod_upper_bound; lia).
  destruct (digit_char_facts _ Hd) as (Hdig & Hval & _).
  destruct (Nat.ltb_spec n 10) as [Hlt|Hge].
  - cbn [append String.length scan]. rewrite Hdig, Hval.
    rewrite Nat.mod_small by lia. rewrite Nat.add_1_r. f_equal.
    change (10 ^ Z.of_nat 1) with 10. lia.
  - assert (Hlt : (n / 10 < n)%nat) by (apply Nat.div_lt; lia).
    rewrite append_assoc, (IH _ Hlt). cbn [append scan].
    rewrite Hdig, Hval, length_append. cbn [String.length].
    replace (S (k + String.length (str_of_nat (n / 10))))
      with (k + (String.length (str_of_nat (n / 10)) + 1))%nat by lia.
    f_equal. rewrite Nat.add_1_r, Nat2Z.inj_succ, Z.pow_succ_r by lia.
    pose proof (Nat.div_mod_eq n 10) as E.
    set (p := 10 ^ Z.of_nat (String.length (str_of_nat (n / 10)))).
    assert (Z.of_nat n = 10 * Z.of_nat (n / 10) + Z.of_nat (n mod 10)) by lia.
    lia.
Qed.

Lemma scan_zeros j : forall t k after,
  scan (zeros j ++ t) 0 k after
  = scan t 0 (k + j) (after || negb (Nat.eqb j 0)).
Proof.
  induction j as [|j IH]; intros t k after; cbn [zeros append scan].
  - now rewrite orb_false_r, Nat.add_0_r.
  - change (is_digit "0") with true. cbn iota.
    rewrite IH. cbn [Nat.eqb negb]. rewrite orb_true_r.
    replace (S k + j)%nat with (k + S j)%nat by lia. reflexivity.
Qed.

(** The value and the length of [str(n)], read back. *)
Lemma scan_str_of_nat n :
  scan (str_of_nat n) 0 0 false
  = Some (Z.of_nat n, String.length (str_of_nat n), EmptyString).
Proof.
  rewrite <- (append_nil_r (str_of_nat n)) at 1. rewrite scan_str.
  cbn [scan]. repeat f_equal.
Qed.

Lemma str_of_nat_last n :
  exists b d, str_of_nat n = (b ++ String (digit_char d) EmptyString)%string
              /\ (d < 10)%nat.
Proof.
  rewrite str_of_nat_unfold. eexists _, _. split; [reflexivity|].
  apply Nat.mod_upper_bound. lia.
Qed.

Lemma str_of_nat_first n :
  exists c s, str_of_nat n = String c s /\ is_digit c = true.
Proof.
  destruct (str_of_nat_digits n) as [Hd Hne].
  destruct (str_of_nat n) as [|c s]; [contradiction|].
  cbn in Hd. apply andb_prop in Hd. exists c, s. tauto.
Qed.

Lemma digit_not_int_space c : is_digit c = true -> is_int_space c = false.
Proof.
  destruct c as [[|] [|] [|] [|] [|] [|] [|] [|]]; intros H;
    vm_compute in H; try discriminate H; reflexivity.
Qed.

Lemma digit_not_sign c :
  is_digit c = true -> c <> "+"%char /\ c <> "-"%char /\ c <> "_"%char.
Proof.
  destruct c as [[|] [|] [|] [|] [|] [|] [|] [|]]; intros H;
    vm_compute in H; try discriminate H; repeat split; discriminate.
Qed.

Lemma strip_int_digits s :
  all_chars is_digit s = true -> rstrip_int (lstrip_int s) = s.
Proof.
  intros H. destruct s as [|c s]; [reflexivity|].
  assert (Hc : is_int_space c = false).
  { cbn in H. apply andb_prop in H. now apply digit_not_int_space. }
  cbn [lstrip_int]. rewrite Hc. clear Hc. revert H.
  generalize (String c s). clear c s.
  induction s as [|c s IH]; [reflexivity|]. cbn [all_chars rstrip_int].
  intros H. apply andb_prop in H. destruct H as [Hc Hs]. rewrite (IH Hs).
  destruct s; [|reflexivity]. now rewrite (digit_not_int_space _ Hc).
Qed.

Lemma int_digits s n k :
  all_chars is_digit s = true ->
  scan s 0 0 false = Some (n, k, EmptyString) ->
  (k <= max_str_digits)%nat ->
  PyStr.int s = Exc.Ok n.
Proof.
  intros Hd Hv Hk. unfold PyStr.int. rewrite (strip_int_digits _ Hd).
  assert (E : match s with
              | String "+" r => (false, r)
              | String "-" r => (true, r)
              | _ => (false, s)
              end = (false, s)).
  { destruct s as [|c s]; [reflexivity|].
    cbn [all_chars] in Hd. apply andb_prop in Hd. destruct Hd as [Hc _].
    destruct (digit_not_sign _ Hc) as (Hp & Hm & _).
    destruct c as [[|] [|] [|] [|] [|] [|] [|] [|]];
      try reflexivity; contradiction. }
  rewrite E, Hv.
  destruct (Nat.ltb_spec max_str_digits k); [lia|reflexivity].
Qed.

Lemma int_digits_over s n k :
  all_chars is_digit s = true ->
  scan s 0 0 false = Some (n, k, EmptyString) ->
  (max_str_digits < k)%nat ->
  PyStr.int s = Exc.Raise (LimitError k).
Proof.
  intros Hd Hv Hk. unfold PyStr.int. rewrite (strip_int_digits _ Hd).
  assert (E : match s with
              | String "+" r => (false, r)
              | String "-" r => (true, r)
              | _ => (false, s)
              end = (false, s)).
  { destruct s as [|c s]; [reflexivity|].
    cbn [all_chars] in Hd. apply andb_prop in Hd. destruct Hd as [Hc _].
    destruct (digit_not_sign _ Hc) as (Hp & Hm & _).
    destruct c as [[|] [|] [|] [|] [|] [|] [|] [|]];
      try reflexivity; contradiction. }
  rewrite E, Hv.
  destruct (Nat.ltb_spec max_str_digits k); [reflexivity|lia].
Qed.

(** [str(n)] has as many digits as [n] needs: [n] lies between the
    powers of ten around its length. *)
Lemma str_of_nat_length n :
  Z.of_nat n < 10 ^ Z.of_nat (String.length (str_of_nat n))
  /\ ((1 <= n)%nat ->
      10 ^ (Z.of_nat (String.length (str_of_nat n)) - 1) <= Z.of_nat n).
Proof.
  induction n as [n IH] using lt_wf_ind. rewrite str_of_nat_unfold.
  destruct (Nat.ltb_spec n 10) as [Hlt|Hge].
  - cbn [append String.length]. change (10 ^ Z.of_nat 1) with 10.
    change (10 ^ (Z.of_nat 1 - 1)) with 1. lia.
  - assert (Hdiv : (n / 10 < n)%nat) by (apply Nat.div_lt; lia).
    destruct (IH _ Hdiv) as [Hup Hlow].
    assert (H1 : (1 <= n / 10)%nat).
    { apply Nat.div_le_lower_bound; lia. }
    specialize (Hlow H1).
    rewrite length_append. cbn [String.length].
    set (len := String.length (str_of_nat (n / 10))) in *.
    pose proof (Nat.div_mod_eq n 10) as E.
    assert (Hm : (n mod 10 < 10)%nat) by (apply Nat.mod_upper_bound; lia).
    assert (En : Z.of_nat n = 10 * Z.of_nat (n / 10) + Z.of_nat (n mod 10))
      by lia.
    replace (Z.of_nat (len + 1)) with (Z.succ (Z.of_nat len)) by lia.
    rewrite Z.pow_succ_r by lia.
    replace (Z.succ (Z.of_nat len) - 1) with (Z.succ (Z.of_nat len - 1)) by lia.
    assert (Hlen : (1 <= len)%nat).
    { subst len. destruct (str_of_nat_digits (n / 10)) as [_ Hne].
      destruct (str_of_nat (n / 10)); [contradiction|cbn; lia]. }
    rewrite Z.pow_succ_r by lia.
    set (p := 10 ^ Z.of_nat len) in *. set (q := 10 ^ (Z.of_nat len - 1)) in *.
    split; [lia|intros _; lia].
Qed.

Lemma str_of_nat_within n :
  Z.of_nat n < int_limit ->
  (String.length (str_of_nat n) <= max_str_digits)%nat.
Proof.
  intros Hn. destruct (Nat.le_gt_cases (String.length (str_of_nat n))
                                       max_str_digits) as [|Hgt]; [assumption|].
  exfalso. destruct n as [|n]; [cbn in Hgt; unfold max_str_digits in Hgt; lia|].
  destruct (str_of_nat_length (S n)) as [_ Hlow]. specialize (Hlow ltac:(lia)).
  assert (H : int_limit <= 10 ^ (Z.of_nat (String.length (str_of_nat (S n))) - 1)).
  { unfold int_limit. apply Z.pow_le_mono_r; lia. }
  lia.
Qed.

Lemma str_of_nat_beyond n :
  int_limit <= Z.of_nat n ->
  (max_str_digits < String.length (str_of_nat n))%nat.
Proof.
  intros Hn. destruct (Nat.le_gt_cases (String.length (str_of_nat n))
                                       max_str_digits) as [Hle|]; [|assumption].
  exfalso. destruct (str_of_nat_length n) as [Hup _].
  assert (H : 10 ^ Z.of_nat (String.length (str_of_nat n)) <= int_limit).
  { unfold int_limit. apply Z.pow_le_mono_r; lia. }
  lia.
Qed.

(** [int(str(n)) == n] for [n >= 0] of at most 4300 digits. *)
Lemma int_str n : 0 <= n < int_limit -> PyStr.int (str n) = Exc.Ok n.
Proof.
  intros [Hn Hlim]. unfold str. destruct (Z.ltb_spec n 0); [lia|].
  apply (int_digits _ _ (String.length (str_of_nat (Z.abs_nat n)))).
  - apply str_of_nat_digits.
  - rewrite scan_str_of_nat. repeat f_equal. lia.
  - apply str_of_nat_within. lia.
Qed.

(** Beyond 4300 digits [int(str(n))] raises. *)
Lemma int_str_beyond n :
  int_limit <= n ->
  PyStr.int (str n)
  = Exc.Raise (LimitError (String.length (str_of_nat (Z.abs_nat n)))).
Proof.
  intros Hlim.
  assert (Hn : 0 <= n).
  { assert (0 < int_limit) by (unfold int_limit; apply Z.pow_pos_nonneg; lia).
    lia. }
  unfold str. destruct (Z.ltb_spec n 0); [lia|].
  apply (int_digits_over _ (Z.of_nat (Z.abs_nat n))).
  - apply str_of_nat_digits.
  - apply scan_str_of_nat.
  - apply str_of_nat_beyond. lia.
Qed.

Lemma split_no_sep sep s :
  all_chars (fun c => negb (Ascii.eqb c sep)) s = true -> split sep s = [s].
Proof.
  induction s as [|c s IH]; cbn; [reflexivity|]. intros H.
  apply andb_prop in H. destruct H as [Hc Hs].
  apply Bool.negb_true_iff in Hc. now rewrite Hc, (IH Hs).
Qed.

Lemma split_app sep a b :
  all_chars (fun c => negb (Ascii.eqb c sep)) a = true ->
  split sep (a ++ String sep b) = a :: split sep b.
Proof.
  induction a as [|c a IH]; cbn [append split all_chars].
  - now rewrite Ascii.eqb_refl.
  - intros H. apply andb_prop in H. destruct H as [Hc Ha].
    apply Bool.negb_true_iff in Hc. now rewrite Hc, (IH Ha).
Qed.

Lemma digits_no_sep sep s :
  is_digit sep = false ->
  all_chars is_digit s = true ->
  all_chars (fun c => negb (Ascii.eqb c sep)) s = true.
Proof.
  intros Hsep. apply all_chars_impl. intros c Hc.
  apply Bool.negb_true_iff, Ascii.eqb_neq. intros ->. congruence.
Qed.

Lemma str_in_char c s :
  Py.str_in (String c EmptyString) s
  = negb (all_chars (fun x => negb (Ascii.eqb x c)) s).
Proof.
  induction s as [|x s IH]; cbn [Py.str_in all_chars String.prefix].
  - reflexivity.
  - rewrite IH. destruct (ascii_dec c x) as [->|Hne].
    + rewrite Ascii.eqb_refl. destruct s; reflexivity.
    + apply not_eq_sym in Hne. apply Ascii.eqb_neq in Hne. rewrite Hne.
      reflexivity.
Qed.

End NumberStrings.


Section PageArguments.

Import Re ReSpec EnhancedQuestionClassifier PyStr NumSpec.

Lemma str_nonneg n : 0 <= n -> str n = str_of_nat (Z.abs_nat n).
Proof. intros Hn. unfold str. destruct (Z.ltb_spec n 0); [lia|reflexivity]. Qed.

Lemma range_In start stop p :
  In p (Cli.range start stop) <-> start <= p < stop.
Proof.
  unfold Cli.range. rewrite in_map_iff. split.
  - intros (k & <- & Hk). apply in_seq in Hk. lia.
  - intros Hp. exists (Z.to_nat (p - start)). split; [lia|].
    apply in_seq. lia.
Qed.

Lemma unpack2_pair a b :
  0 <= a < int_limit -> 0 <= b < int_limit ->
  Cli.unpack2 (split "-" (str a ++ String "-" (str b))) = Exc.Ok (a, b).
Proof.
  intros Ha' Hb'. assert (Ha : 0 <= a) by lia. assert (Hb : 0 <= b) by lia.
  assert (Hda : all_chars (fun c => negb (Ascii.eqb c "-")) (str a) = true).
  { rewrite str_nonneg by exact Ha.
    apply digits_no_sep; [reflexivity|apply str_of_nat_digits]. }
  assert (Hdb : all_chars (fun c => negb (Ascii.eqb c "-")) (str b) = true).
  { rewrite str_nonneg by exact Hb.
    apply digits_no_sep; [reflexivity|apply str_of_nat_digits]. }
  rewrite split_app, split_no_sep by assumption.
  cbn [Cli.unpack2]. rewrite !int_str by assumption. reflexivity.
Qed.

(** X22.  [parse_page_range] reads back what [str] wrote, for numbers of
    at most 4300 digits: a range "a-b" gives the pages from [a] to [b],
    both included and in order (none when [b < a]), provided the list is
    not longer than [sys.maxsize] and the machine has room for it, and a
    single number gives that page.  A number of more than 4300 digits
    makes it raise the [ValueError] of [int]. *)
Theorem parse_page_range_reads_back :
  forall (fits : nat -> bool) a b,
    0 <= a < int_limit -> 0 <= b < int_limit ->
    b - a < Cli.maxsize ->
    fits (Z.to_nat (b + 1 - a)) = true ->
    Cli.parse_page_range fits (str a ++ "-" ++ str b)
    = Exc.Ok (Cli.range a (b + 1))
    /\ (forall p, In p (Cli.range a (b + 1)) <-> a <= p <= b)
    /\ List.length (Cli.range a (b + 1)) = Z.to_nat (b + 1 - a)
    /\ Cli.parse_page_range fits (str a) = Exc.Ok [a]
    /\ (forall n,
           int_limit <= n ->
           Cli.parse_page_range fits (str n)
           = Exc.Raise (LimitError (String.length (str n)))).
Proof.
  intros fits a b Ha Hb Hlen Hfits.
  assert (Hsingle : forall n, 0 <= n ->
             Py.str_in "-" (str n) = false).
  { intros n Hn. rewrite str_in_char, str_nonneg by exact Hn.
    now rewrite (digits_no_sep "-" _ eq_refl (proj1 (str_of_nat_digits _))). }
  split; [|split; [|split; [|split]]].
  - unfold Cli.parse_page_range.
    change ("-" ++ str b)%string with (String "-" (str b)).
    rewrite str_in_char, all_chars_app. cbn [all_chars].
    rewrite Ascii.eqb_refl. cbn [negb andb]. rewrite andb_false_r. cbn [negb].
    rewrite unpack2_pair by assumption. cbn [Exc.bind].
    unfold Cli.list_range.
    destruct (Z.gtb_spec (b + 1 - a) Cli.maxsize); [lia|].
    now rewrite Hfits.
  - intros p. rewrite range_In. lia.
  - unfold Cli.range. now rewrite length_map, length_seq.
  - unfold Cli.parse_page_range. rewrite Hsingle by lia.
    now rewrite int_str.
  - intros n Hn.
    assert (H0 : 0 <= n).
    { assert (0 < int_limit) by (unfold int_limit; apply Z.pow_pos_nonneg; lia).
      lia. }
    unfold Cli.parse_page_range. rewrite Hsingle by exact H0.
    rewrite int_str_beyond by exact Hn. cbn [Exc.bind].
    now rewrite str_nonneg.
Qed.

Lemma parse_page_range_reads_back_witness :
  Cli.parse_page_range (fun n => (n <? 1000)%nat) (str 89 ++ "-" ++ str 91)
  = Exc.Ok (Cli.range 89 (91 + 1))
  /\ (forall p, In p (Cli.range 89 (91 + 1)) <-> 89 <= p <= 91)
  /\ List.length (Cli.range 89 (91 + 1)) = Z.to_nat (91 + 1 - 89)
  /\ Cli.parse_page_range (fun n => (n <? 1000)%nat) (str 89) = Exc.Ok [89]
  /\ (forall n,
         int_limit <= n ->
         Cli.parse_page_range (fun n => (n <? 1000)%nat) (str n)
         = Exc.Raise (LimitError (String.length (str n)))).
Proof.
  apply (parse_page_range_reads_back (fun n => (n <? 1000)%nat) 89 91).
  - split; [lia|reflexivity].
  - split; [lia|reflexivity].
  - reflexivity.
  - reflexivity.
Defined.

Lemma prefix_app (a b : string) : String.prefix a (a ++ b) = true.
Proof.
  induction a as [|c a IH]; cbn [append String.prefix].
  - destruct b; reflexivity.
  - destruct (ascii_dec c c) as [_|Hne]; [exact IH|contradiction].
Qed.

Lemma str_in_prefix (a b : string) : Py.str_in a (a ++ b) = true.
Proof.
  destruct (a ++ b)%string eqn:E; cbn [Py.str_in]; rewrite <- E, prefix_app;
    reflexivity.
Qed.

Lemma page_of_name p rest :
  0 <= p < int_limit ->
  Cli.extract_page_from_filename ("page_" ++ str p ++ String "_" rest) = Some p.
Proof.
  intros Hp'. assert (Hp : 0 <= p) by lia.
  unfold Cli.extract_page_from_filename.
  rewrite str_in_prefix.
  change ("page_" ++ str p ++ String "_" rest)%string
    with ("page" ++ String "_" (str p ++ String "_" rest))%string.
  rewrite split_app by reflexivity.
  rewrite split_app.
  - destruct (split "_" rest) as [|x l]; cbn [Cli.page_part];
      change (String.eqb "page" "page") with true; cbn iota;
      rewrite int_str by exact Hp'; reflexivity.
  - rewrite str_nonneg by exact Hp.
    apply digits_no_sep; [reflexivity|apply str_of_nat_digits].
Qed.

(** X23.  The command line reads the page number back from the file names the
    extraction script writes: for an image or a region of the 0-based
    page [page_num] it finds [page_num + 1], whatever the index and the
    hash in the name, as long as the page number has at most 4300
    digits (beyond that [int] refuses the numeral). *)
Theorem page_number_read_from_file_name :
  forall page_num index hash8,
    0 <= page_num -> page_num + 1 < int_limit ->
    Cli.extract_page_from_filename (Pages.region_filename page_num index hash8)
    = Some (page_num + 1)
    /\ Cli.extract_page_from_filename (Pages.direct_filename page_num index hash8)
       = Some (page_num + 1).
Proof.
  intros page_num index hash8 Hp Hlim. split.
  - unfold Pages.region_filename.
    change ("_region_" ++ str (index + 1) ++ "_" ++ hash8 ++ ".png")%string
      with (String "_" ("region_" ++ str (index + 1) ++ "_" ++ hash8 ++ ".png")).
    apply page_of_name. lia.
  - unfold Pages.direct_filename.
    change ("_img_" ++ str (index + 1) ++ "_" ++ hash8 ++ ".png")%string
      with (String "_" ("img_" ++ str (index + 1) ++ "_" ++ hash8 ++ ".png")).
    apply page_of_name. lia.
Qed.

Lemma page_number_read_from_file_name_witness :
  Cli.extract_page_from_filename (Pages.region_filename 88 4 "75617085")
  = Some (88 + 1)
  /\ Cli.extract_page_from_filename (Pages.direct_filename 88 4 "75617085")
     = Some (88 + 1).
Proof.
  apply (page_number_read_from_file_name 88 4 "75617085");
    [lia|reflexivity].
Defined.

Lemma fold_min_spec l : forall m,
  fold_left Z.min l m <= m
  /\ (forall p, In p l -> fold_left Z.min l m <= p)
  /\ In (fold_left Z.min l m) (m :: l).
Proof.
  induction l as [|x l IH]; intros m; cbn [fold_left].
  - split; [lia|]. split; [intros p []|now left].
  - destruct (IH (Z.min m x)) as (H1 & H2 & H3). split; [lia|]. split.
    + intros p [<-|Hp]; [lia|auto].
    + destruct H3 as [H3|H3]; [|right; now right].
      rewrite <- H3. destruct (Z.min_spec m x) as [[_ ->]|[_ ->]];
        [now left|right; now left].
Qed.

Lemma fold_max_spec l : forall m,
  m <= fold_left Z.max l m
  /\ (forall p, In p l -> p <= fold_left Z.max l m)
  /\ In (fold_left Z.max l m) (m :: l).
Proof.
  induction l as [|x l IH]; intros m; cbn [fold_left].
  - split; [lia|]. split; [intros p []|now left].
  - destruct (IH (Z.max m x)) as (H1 & H2 & H3). split; [lia|]. split.
    + intros p [<-|Hp]; [lia|auto].
    + destruct H3 as [H3|H3]; [|right; now right].
      rewrite <- H3. destruct (Z.max_spec m x) as [[_ ->]|[_ ->]];
        [right; now left|now left].
Qed.

(** X24.  From the pages asked for on the command line to the pages the
    extraction script visits: the argument it is handed parses to the
    range from the smallest to the largest page asked for, and the
    script visits every page of the document in that range, the pages
    in between included.  The page numbers are positive and have at
    most 4300 digits (beyond that [int] refuses the numeral). *)
Theorem requested_pages_are_visited :
  forall first others doc_len,
    Forall (fun p => 1 <= p < int_limit) (first :: others) ->
    exists lo hi,
      Pages.page_range_of (Cli.page_arg first others) = Exc.Ok (lo - 1, hi)
      /\ In lo (first :: others) /\ In hi (first :: others)
      /\ (forall p, In p (first :: others) -> lo <= p <= hi)
      /\ (forall q,
             In q (Pages.visited (lo - 1, hi) doc_len)
             <-> lo <= q + 1 <= Z.min hi doc_len).
Proof.
  intros first others doc_len Hall.
  destruct (fold_min_spec others first) as (Hm1 & Hm2 & Hm3).
  destruct (fold_max_spec others first) as (HM1 & HM2 & HM3).
  exists (fold_left Z.min others first), (fold_left Z.max others first).
  rewrite Forall_forall in Hall.
  pose proof (Hall _ Hm3) as Hlo. pose proof (Hall _ HM3) as Hhi.
  split; [|split; [exact Hm3|split; [exact HM3|split]]].
  - unfold Pages.page_range_of, Cli.page_arg.
    destruct others as [|x l].
    + cbn [fold_left] in *.
      change ("-" ++ str first)%string with (String "-" (str first)).
      rewrite unpack2_pair by lia. reflexivity.
    + change ("-" ++ str (fold_left Z.max (x :: l) first))%string
        with (String "-" (str (fold_left Z.max (x :: l) first))).
      rewrite unpack2_pair by lia. reflexivity.
  - intros p [<-|Hp]; [lia|]. split; auto.
  - intros q. unfold Pages.visited. cbn [fst snd]. rewrite range_In. lia.
Qed.

Lemma requested_pages_are_visited_witness :
  exists lo hi,
    Pages.page_range_of (Cli.page_arg 5 [9; 3]) = Exc.Ok (lo - 1, hi)
    /\ In lo [5; 9; 3] /\ In hi [5; 9; 3]
    /\ (forall p, In p [5; 9; 3] -> lo <= p <= hi)
    /\ (forall q,
           In q (Pages.visited (lo - 1, hi) 7) <-> lo <= q + 1 <= Z.min hi 7).
Proof.
  apply (requested_pages_are_visited 5 [9; 3] 7).
  repeat constructor; try lia; reflexivity.
Defined.

End PageArguments.


(** * The analysis report *)

Section AnalysisFacts.

Import Scorer Analysis AnalysisSpec.

Variable exists_ : string -> bool.
Variable open_ : string -> Exc.result Scorer.PILImage.

Lemma analysis_kinds opened :
  let d := analyze_image_content opened in
  (Dict.mem d "error" = true)
  \/ (Dict.mem d "error" = false
      /\ exists n,
          getitem d "likely_image" = Exc.Ok (PBool (n >? 40))
          /\ likely_entry d = Some (PBool (n >? 40))
          /\ score_entry d = Some (PInt n)
          /\ 0 <= n <= 80 /\ n mod 5 = 0).
Proof.
  cbv zeta.
  destruct (analyze_cases opened)
    as [(img & area & variance & brightness & aspect_ratio & _ & _ & ->)
       | (m & ->)]; [right|left; reflexivity].
  split; [reflexivity|].
  exists (score_of area variance brightness aspect_ratio).
  destruct (score_of_range area variance brightness aspect_ratio) as [Hr Hm].
  repeat split; try reflexivity; tauto.
Qed.

Lemma above_40 n : n mod 5 = 0 -> 40 < n -> 45 <= n.
Proof.
  intros Hm Hn. apply Z.mod_divide in Hm; [|lia]. destruct Hm as [k ->]. lia.
Qed.

(** One region goes into exactly one list. *)
Lemma categorise_one_spec acc region :
  exists e,
    fst e = region
    /\ ((is_likely e
         /\ categorise_one exists_ open_ acc region
            = Exc.Ok (mkc (likely_images acc ++ [e]) (likely_text acc)
                          (errors acc)))
        \/ (is_text e
            /\ categorise_one exists_ open_ acc region
               = Exc.Ok (mkc (likely_images acc) (likely_text acc ++ [e])
                             (errors acc)))
        \/ (is_error e
            /\ categorise_one exists_ open_ acc region
               = Exc.Ok (mkc (likely_images acc) (likely_text acc)
                             (errors acc ++ [e])))).
Proof.
  unfold categorise_one.
  destruct (exists_ (filepath region)).
  - exists (region, analyze_image_content (open_ (filepath region))).
    split; [reflexivity|].
    destruct (analysis_kinds (open_ (filepath region)))
      as [He|(He & n & Hl & Hl' & Hs & Hr & Hm)]; rewrite He.
    + right. right. split; [exact He|reflexivity].
    + rewrite Hl. cbn [Exc.bind truthy PBool]. unfold is_likely, is_text.
      cbn [snd]. rewrite He, Hl', Hs.
      destruct (Z.gtb_spec n 40) as [Hgt|Hle].
      * left. split; [|reflexivity]. repeat split.
        exists n. split; [reflexivity|]. pose proof (above_40 n Hm Hgt). lia.
      * right. left. split; [|reflexivity]. repeat split.
        exists n. split; [reflexivity|lia].
  - exists (region, [("error", PStr "File not found")]).
    split; [reflexivity|]. right. right. split; reflexivity.
Qed.

Lemma categorise_fold regions : forall acc,
  exists c,
    fold_left (fun acc region =>
                 Exc.bind acc (fun a => categorise_one exists_ open_ a region))
              regions (Exc.Ok acc)
    = Exc.Ok c
    /\ (exists li lt er,
           likely_images c = (likely_images acc ++ li)%list
           /\ likely_text c = (likely_text acc ++ lt)%list
           /\ errors c = (errors acc ++ er)%list
           /\ Forall is_likely li /\ Forall is_text lt /\ Forall is_error er
           /\ Permutation (map fst (li ++ lt ++ er)) regions).
Proof.
  induction regions as [|region rest IH]; intros acc; cbn [fold_left Exc.bind].
  - exists acc. split; [reflexivity|]. exists [], [], [].
    rewrite !app_nil_r. repeat split; constructor.
  - destruct (categorise_one_spec acc region)
      as (e & He & [(Hk & ->)|[(Hk & ->)|(Hk & ->)]]);
      match goal with
      | |- context [fold_left _ rest (Exc.Ok ?a)] =>
          destruct (IH a)
            as (c & -> & li & lt & er & Hli & Hlt & Her & Fli & Flt & Fer & Hp)
      end;
      cbn [likely_images likely_text errors] in Hli, Hlt, Her;
      exists c; (split; [reflexivity|]).
    + exists (e :: li), lt, er. rewrite Hli, Hlt, Her, <- app_assoc.
      repeat split; auto. cbn [app map]. rewrite He. now constructor.
    + exists li, (e :: lt), er. rewrite Hli, Hlt, Her, <- app_assoc.
      repeat split; auto. rewrite !map_app in *. cbn [map]. rewrite He.
      rewrite <- Hp. symmetry.
      apply (Permutation_middle (map fst li) (map fst lt ++ map fst er) region).
    + exists li, lt, (e :: er). rewrite Hli, Hlt, Her, <- app_assoc.
      repeat split; auto. rewrite !map_app in *. cbn [map]. rewrite He.
      rewrite <- Hp. symmetry. rewrite !app_assoc.
      apply (Permutation_middle (map fst li ++ map fst lt) (map fst er) region).
Qed.

Lemma insert_by_key_perm x l : Permutation (insert_by_key x l) (x :: l).
Proof.
  induction l as [|y rest IH]; cbn [insert_by_key]; [reflexivity|].
  destruct (snd x <? snd y); [|reflexivity]. rewrite IH. apply perm_swap.
Qed.

Lemma sort_by_key_perm l : Permutation (sort_by_key l) (map fst l).
Proof.
  unfold sort_by_key. apply Permutation_map.
  induction l as [|x rest IH]; cbn [fold_right]; [reflexivity|].
  rewrite insert_by_key_perm. now constructor.
Qed.

Lemma insert_by_key_sorted x l :
  StronglySorted (fun a b : Entry * Z => snd b <= snd a) l ->
  StronglySorted (fun a b : Entry * Z => snd b <= snd a) (insert_by_key x l).
Proof.
  induction 1 as [|y rest Hs IH Hall]; cbn [insert_by_key].
  - repeat constructor.
  - destruct (Z.ltb_spec (snd x) (snd y)) as [Hlt|Hge].
    + constructor; [exact IH|].
      rewrite (insert_by_key_perm x rest). constructor; [lia|exact Hall].
    + constructor; [now constructor|]. constructor; [lia|].
      eapply Forall_impl; [|exact Hall]. cbn. intros; lia.
Qed.

Lemma keys_of_spec key l :
  (forall e, In e l -> key (snd e) = Exc.Ok (entry_score e)) ->
  keys_of key l = Exc.Ok (map (fun e => (e, entry_score e)) l).
Proof.
  induction l as [|x rest IH]; intros H; cbn [keys_of map]; [reflexivity|].
  rewrite (H x (or_introl eq_refl)). cbn [Exc.bind].
  rewrite IH by (intros; apply H; now right). reflexivity.
Qed.

Lemma sorted_map_fst (l : list (Entry * Z)) :
  Forall (fun p => snd p = entry_score (fst p)) l ->
  StronglySorted (fun a b : Entry * Z => snd b <= snd a) l ->
  by_score_desc (map fst l).
Proof.
  unfold by_score_desc. intros Hk Hs.
  induction Hs as [|y rest Hs IH Hall]; cbn [map]; [constructor|].
  apply Forall_cons_iff in Hk. destruct Hk as [Hy Hk].
  constructor; [now apply IH|].
  rewrite Forall_map. rewrite Forall_forall in *. intros p Hp.
  rewrite <- Hy, <- (Hk p Hp). now apply Hall.
Qed.

Lemma sort_with_scores l :
  Permutation (sort_by_key (map (fun e => (e, entry_score e)) l)) l
  /\ by_score_desc (sort_by_key (map (fun e => (e, entry_score e)) l)).
Proof.
  split.
  - rewrite sort_by_key_perm, map_map. cbn [fst]. now rewrite map_id.
  - unfold sort_by_key. apply sorted_map_fst.
    + set (m := map _ l).
      assert (Hm : Forall (fun p : Entry * Z => snd p = entry_score (fst p)) m).
      { subst m. rewrite Forall_map. apply Forall_forall. reflexivity. }
      clearbody m. induction m as [|x rest IH]; cbn [fold_right]; [constructor|].
      apply Forall_cons_iff in Hm. destruct Hm as [Hx Hm].
      rewrite (insert_by_key_perm x _). constructor; auto.
    + generalize (map (fun e => (e, entry_score e)) l).
      induction l0 as [|x rest IH]; cbn [fold_right]; [constructor|].
      now apply insert_by_key_sorted.
Qed.

Lemma likely_score_key e : is_likely e -> score_key (snd e) = Exc.Ok (entry_score e).
Proof.
  intros (_ & _ & n & Hs & _). unfold score_key, getitem, entry_score,
    Dict.get_default. unfold score_entry in Hs. now rewrite Hs.
Qed.

(** The shape of the report, for any regions and any files. *)
Lemma report_shape regions :
  exists c li lt,
    analyze_extraction_results exists_ open_ regions = Exc.Ok c
    /\ Permutation (likely_images c) li /\ Permutation (likely_text c) lt
    /\ Forall is_likely li /\ Forall is_text lt /\ Forall is_error (errors c)
    /\ Permutation (map fst (li ++ lt ++ errors c)) regions
    /\ by_score_desc (likely_images c) /\ by_score_desc (likely_text c).
Proof.
  unfold analyze_extraction_results, categorise.
  destruct (categorise_fold regions (mkc [] [] []))
    as (c & -> & li & lt & er & Hli & Hlt & Her & Fli & Flt & Fer & Hp).
  cbn [likely_images likely_text errors app] in Hli, Hlt, Her.
  cbn [Exc.bind]. rewrite Hli, Hlt, Her.
  rewrite (keys_of_spec score_key li).
  2: { intros e He. apply likely_score_key.
       rewrite Forall_forall in Fli. now apply Fli. }
  cbn [Exc.bind]. rewrite (keys_of_spec score_key_or_0 lt) by reflexivity.
  cbn [Exc.bind].
  destruct (sort_with_scores li) as [Pli Sli].
  destruct (sort_with_scores lt) as [Plt Slt].
  eexists _, li, lt. split; [reflexivity|].
  cbn [likely_images likely_text errors]. repeat split; auto.
Qed.


Lemma filtered_all min_score l :
  Forall is_likely l -> min_score <= 45 ->
  filtered min_score l = Exc.Ok l.
Proof.
  intros Hl Hmin. induction Hl as [|[region analysis] rest Hx _ IH];
    cbn [filtered]; [reflexivity|].
  destruct Hx as (_ & _ & n & Hs & Hn). cbn [snd] in Hs.
  unfold getitem. unfold score_entry in Hs. rewrite Hs. cbn [Exc.bind as_int PInt].
  destruct (Z.geb_spec n min_score); [|lia]. now rewrite IH.
Qed.

Lemma filtered_none min_score l :
  Forall is_likely l -> 80 < min_score ->
  filtered min_score l = Exc.Ok [].
Proof.
  intros Hl Hmin. induction Hl as [|[region analysis] rest Hx _ IH];
    cbn [filtered]; [reflexivity|].
  destruct Hx as (_ & _ & n & Hs & Hn). cbn [snd] in Hs.
  unfold getitem. unfold score_entry in Hs. rewrite Hs. cbn [Exc.bind as_int PInt].
  destruct (Z.geb_spec n min_score); [lia|exact IH].
Qed.

(** X26.  Filtering the report by score: with a minimum score of 45 or less,
    so with the default of 40, every likely image is kept, in the order
    of the report; with a minimum above 80 none is. *)
Theorem default_filter_keeps_every_likely_image :
  forall regions c min_score,
    analyze_extraction_results exists_ open_ regions = Exc.Ok c ->
    (min_score <= 45 ->
     filtered min_score (likely_images c) = Exc.Ok (likely_images c))
    /\ (80 < min_score -> filtered min_score (likely_images c) = Exc.Ok []).
Proof.
  intros regions c min_score H.
  destruct (report_shape regions)
    as (c' & li & lt & E & Pli & _ & Fli & _).
  rewrite H in E. injection E as <-.
  assert (Fl : Forall is_likely (likely_images c)).
  { eapply Permutation_Forall; [symmetry; exact Pli|exact Fli]. }
  split; intros Hmin; [now apply filtered_all|now apply filtered_none].
Qed.

End AnalysisFacts.

Section AnalysisWitnesses.

Import Analysis AnalysisSpec.

Lemma default_filter_keeps_every_likely_image_witness :
  exists c,
    analyze_extraction_results (fun _ => true) sample_open sample_regions
    = Exc.Ok c
    /\ (40 <= 45 -> filtered 40 (likely_images c) = Exc.Ok (likely_images c))
    /\ (80 < 40 -> filtered 40 (likely_images c) = Exc.Ok []).
Proof.
  eexists. split; [vm_compute; reflexivity|].
  apply (default_filter_keeps_every_likely_image
           (fun _ => true) sample_open sample_regions).
  vm_compute. reflexivity.
Defined.

End AnalysisWitnesses.


(** * The records of the detected regions *)

Section RegionRecordFacts.

Import ReSpec PDFImageExtractor Detect TextRegions Analysis RegionRecords PyStr
       NumSpec.

Context {cv : OpenCV}.
Variable gray_of : Z -> Np.ndarray.
Variable ocr_of : Z -> Exc.result OcrData.
Variable hash8_of : Z -> Region -> string.
Variable path_of : string -> string.

Lemma region_infos_In page_num info : forall image_regions idx,
  In info (region_infos hash8_of path_of page_num idx image_regions) ->
  exists k region,
    nth_error image_regions k = Some region
    /\ info = region_info hash8_of path_of page_num (idx + k) region.
Proof.
  induction image_regions as [|r rest IH]; intros idx H; [contradiction|].
  cbn [region_infos] in H. destruct H as [<-|H].
  - exists 0%nat, r. now rewrite Nat.add_0_r.
  - destruct (IH _ H) as (k & region & Hk & ->).
    exists (S k), region. split; [exact Hk|]. f_equal. lia.
Qed.

Lemma detected_region_facts gray_img text_mask k region :
  nth_error (_detect_image_like_regions gray_img text_mask) k = Some region ->
  (k < 10)%nat
  /\ exists x y w h confidence,
      region = (x, y, w, h, confidence)
      /\ 100 <= w /\ 100 <= h /\ (0.3 <=? confidence)%float = true.
Proof.
  intros Hk. split.
  - assert (H : (k < List.length (_detect_image_like_regions gray_img text_mask))%nat)
      by (apply nth_error_Some; congruence).
    rewrite detect_unfold in H. pose proof (firstn_le_length 10
      (sort_desc (collect (found_contours gray_img text_mask)))). lia.
  - apply nth_error_In in Hk. rewrite detect_unfold in Hk.
    apply firstn_subset in Hk. apply (proj1 (sort_desc_In _ _)) in Hk.
    apply (proj1 (collect_In _ _)) in Hk. destruct Hk as (c & _ & Hc).
    apply candidate_some in Hc.
    destruct Hc as (x & y & w & h & _ & -> & Hw & Hh & _ & Hp).
    exists x, y, w, h, (fill_ratio (contourArea c) w h). auto.
Qed.

(** X20.  Every record that [detect_image_regions] writes for the pages from
    [start_page] on: its page is one of the pages of the run, counted
    from 1, and is the page the command line reads back from the file
    name; its region index lies between 1 and 10; its box is [x, y,
    x + width, y + height] with a width and a height of at least 100;
    and its confidence is at least 0.3.  The page numbers of the run
    have at most 4300 digits (beyond that [int] refuses the numeral in
    the file name). *)
Theorem region_records_are_well_formed :
  forall start_page n_pages info,
    0 <= start_page ->
    start_page + Z.of_nat n_pages < int_limit ->
    In info (detect_image_regions gray_of ocr_of hash8_of path_of
                                  start_page n_pages) ->
    start_page + 1 <= page info <= start_page + Z.of_nat n_pages
    /\ Cli.extract_page_from_filename (filename info) = Some (page info)
    /\ 1 <= region_index info <= 10
    /\ (exists x y, bbox info = [x; y; x + width info; y + height info])
    /\ 100 <= width info /\ 100 <= height info
    /\ (0.3 <=? confidence info)%float = true.
Proof.
  intros start_page n_pages info Hs Hlim Hin.
  unfold detect_image_regions in Hin.
  apply in_flat_map in Hin. destruct Hin as (i & Hi & Hin).
  apply in_seq in Hi. unfold page_regions in Hin.
  destruct (region_infos_In _ _ _ _ Hin) as (k & region & Hk & ->).
  destruct (detected_region_facts _ _ _ _ Hk)
    as (Hk10 & x & y & w & h & confidence & -> & Hw & Hh & Hc).
  cbn [region_info page filename region_index bbox width height
       Analysis.confidence].
  split; [lia|]. split.
  - unfold Pages.region_filename.
    match goal with
    | |- context [("_region_" ++ ?r)%string] =>
        change ("_region_" ++ r)%string with (String "_" ("region_" ++ r))
    end.
    apply page_of_name. lia.
  - split; [lia|]. split; [eauto|]. auto.
Qed.

Lemma split_region_filename p k h :
  0 <= p -> 0 <= k ->
  split "_" (Pages.region_filename p k h)
  = "page"%string :: str (p + 1) :: "region"%string :: str (k + 1)
      :: split "_" (h ++ ".png").
Proof.
  intros Hp Hk. unfold Pages.region_filename.
  assert (Hd : forall n, 0 <= n ->
             all_chars (fun c => negb (Ascii.eqb c "_")) (str n) = true).
  { intros n Hn. rewrite str_nonneg by exact Hn.
    apply digits_no_sep; [reflexivity|apply str_of_nat_digits]. }
  change ("page_" ++ str (p + 1) ++ "_region_" ++ str (k + 1) ++ "_" ++ h ++ ".png")%string
    with ("page" ++ String "_" (str (p + 1) ++ String "_"
            ("region" ++ String "_" (str (k + 1) ++ String "_" (h ++ ".png")))))%string.
  rewrite split_app by reflexivity.
  rewrite split_app by (apply Hd; lia).
  rewrite split_app by reflexivity.
  rewrite split_app by (apply Hd; lia).
  reflexivity.
Qed.

Lemma str_inj a b : 0 <= a -> 0 <= b -> str a = str b -> a = b.
Proof.
  intros Ha Hb E. rewrite !str_nonneg in E by assumption.
  pose proof (scan_str_of_nat (Z.abs_nat a)) as H.
  rewrite E, scan_str_of_nat in H. injection H as H. lia.
Qed.

Lemma region_filename_inj p k h p' k' h' :
  0 <= p -> 0 <= k -> 0 <= p' -> 0 <= k' ->
  Pages.region_filename p k h = Pages.region_filename p' k' h' ->
  p = p' /\ k = k'.
Proof.
  intros Hp Hk Hp' Hk' E. apply (f_equal (split "_")) in E.
  rewrite !split_region_filename in E by assumption.
  injection E as E1 E2 _.
  apply str_inj in E1, E2; lia.
Qed.

Lemma NoDup_map_of {A B C} (f : A -> B) (g : A -> C) (l : list A) :
  (forall x y, In x l -> In y l -> f x = f y -> g x = g y) ->
  NoDup (map g l) -> NoDup (map f l).
Proof.
  induction l as [|a l IH]; intros Hfg Hg; cbn [map]; [constructor|].
  cbn [map] in Hg. apply NoDup_cons_iff in Hg. destruct Hg as [Hna Hg].
  constructor.
  - intros Hin. apply Hna. apply in_map_iff in Hin.
    destruct Hin as (x & Hx & Hxl). apply in_map_iff. exists x.
    split; [|exact Hxl]. apply Hfg; cbn; auto.
  - apply IH; [|exact Hg]. intros x y Hx Hy. apply Hfg; cbn; auto.
Qed.

Lemma region_infos_keys page_num : forall image_regions idx,
  map (fun info => (page info, region_index info))
      (region_infos hash8_of path_of page_num idx image_regions)
  = map (fun k => (page_num + 1, Z.of_nat k + 1))
        (List.seq idx (List.length image_regions)).
Proof.
  induction image_regions as [|r rest IH]; intros idx; [reflexivity|].
  cbn [region_infos map List.length List.seq]. rewrite IH. f_equal.
  destruct r as [[[[x y] w] h] c]. reflexivity.
Qed.

Lemma keys_NoDup start_page : forall n_pages first,
  NoDup (map (fun info => (page info, region_index info))
             (flat_map (fun i => page_regions gray_of ocr_of hash8_of path_of
                                              (start_page + Z.of_nat i))
                       (List.seq first n_pages)))
  /\ forall info,
      In info (flat_map (fun i => page_regions gray_of ocr_of hash8_of path_of
                                               (start_page + Z.of_nat i))
                        (List.seq first n_pages)) ->
      start_page + Z.of_nat first + 1 <= page info.
Proof.
  induction n_pages as [|n IH]; intros first; cbn [List.seq flat_map].
  - split; [constructor|contradiction].
  - destruct (IH (S first)) as [Hnd Hlow]. split.
    + rewrite map_app. apply NoDup_app; [| exact Hnd |].
      * unfold page_regions. rewrite region_infos_keys.
        apply Finite.Injective_map_NoDup; [|apply seq_NoDup].
        intros a b [= E]. lia.
      * intros key H1 H2. apply in_map_iff in H1, H2.
        destruct H1 as (i1 & <- & H1), H2 as (i2 & E & H2).
        apply Hlow in H2. unfold page_regions in H1.
        destruct (region_infos_In _ _ _ _ H1) as (k & [[[[x y] w] h] c] & _ & ->).
        cbn in E. injection E as E _. lia.
    + intros info Hin. apply in_app_or in Hin. destruct Hin as [Hin|Hin].
      * unfold page_regions in Hin.
        destruct (region_infos_In _ _ _ _ Hin) as (k & [[[[x y] w] h] c] & _ & ->).
        cbn. lia.
      * apply Hlow in Hin. lia.
Qed.

(** X21.  No two regions of a run are written to the same file name, whatever
    the hashes are: the page number and the region index in the name
    already tell them apart, so no crop overwrites another. *)
Theorem region_file_names_are_distinct :
  forall start_page n_pages,
    0 <= start_page ->
    NoDup (map filename
               (detect_image_regions gray_of ocr_of hash8_of path_of
                                     start_page n_pages)).
Proof.
  intros start_page n_pages Hs. unfold detect_image_regions.
  apply (NoDup_map_of filename (fun info => (page info, region_index info)));
    [|apply keys_NoDup].
  intros a b Ha Hb E.
  apply in_flat_map in Ha, Hb.
  destruct Ha as (i & _ & Ha), Hb as (j & _ & Hb).
  unfold page_regions in Ha, Hb.
  destruct (region_infos_In _ _ _ _ Ha) as (k & [[[[x y] w] h] c] & _ & ->).
  destruct (region_infos_In _ _ _ _ Hb) as (k' & [[[[x' y'] w'] h'] c'] & _ & ->).
  cbn [region_info page region_index filename] in *.
  apply region_filename_inj in E; try lia. destruct E as [-> E].
  f_equal. lia.
Qed.

End RegionRecordFacts.


Section RegionRecordWitnesses.

Import PDFImageExtractor Analysis RegionRecords.

Lemma region_records_are_well_formed_witness :
  exists info,
    In info (@detect_image_regions (Detect.scripted Examples.page_contours)
               (fun _ => Examples.page)
               (fun _ => Exc.Ok OcrSamples.three_rows)
               (fun _ _ => "75617085"%string)
               (fun name => ("out/detected_regions/" ++ name)%string)
               88 1)
    /\ 88 + 1 <= page info <= 88 + Z.of_nat 1
    /\ Cli.extract_page_from_filename (filename info) = Some (page info)
    /\ 1 <= region_index info <= 10
    /\ (exists x y, bbox info = [x; y; x + width info; y + height info])
    /\ 100 <= width info /\ 100 <= height info
    /\ (0.3 <=? confidence info)%float = true.
Proof.
  eexists. split; [vm_compute; left; reflexivity|].
  apply (@region_records_are_well_formed
           (Detect.scripted Examples.page_contours)
           (fun _ => Examples.page)
           (fun _ => Exc.Ok OcrSamples.three_rows)
           (fun _ _ => "75617085"%string)
           (fun name => ("out/detected_regions/" ++ name)%string)
           88 1%nat).
  - lia.
  - reflexivity.
  - vm_compute. left. reflexivity.
Defined.

Lemma region_file_names_are_distinct_witness :
  NoDup (map filename
             (@detect_image_regions (Detect.scripted Examples.page_contours)
                (fun _ => Examples.page)
                (fun _ => Exc.Ok OcrSamples.three_rows)
                (fun _ _ => "75617085"%string)
                (fun name => ("out/detected_regions/" ++ name)%string)
                88 2)).
Proof.
  apply (@region_file_names_are_distinct
           (Detect.scripted Examples.page_contours)
           (fun _ => Examples.page)
           (fun _ => Exc.Ok OcrSamples.three_rows)
           (fun _ _ => "75617085"%string)
           (fun name => ("out/detected_regions/" ++ name)%string)
           88 2%nat).
  lia.
Defined.

End RegionRecordWitnesses.


(** * From elements to topics *)

Section PipelineFacts.

Import ReSpec EnhancedQuestionClassifier ImageExtractor Assoc PyStr Pipeline.

Variable decodes : string -> bool.
Variable _extract_subject : string -> option string.

Lemma scan_format_0d width n :
  0 <= n ->
  exists k, scan (format_0d width n) 0 0 false = Some (n, k, EmptyString).
Proof.
  intros Hn. unfold format_0d. destruct (Z.ltb_spec n 0); [lia|].
  rewrite scan_zeros.
  rewrite <- (append_nil_r (str_of_nat (Z.abs_nat n))), scan_str.
  cbn [scan]. eexists. repeat f_equal. lia.
Qed.

Lemma format_0d_inj width a b :
  0 <= a -> 0 <= b -> format_0d width a = format_0d width b -> a = b.
Proof.
  intros Ha Hb E.
  destruct (scan_format_0d width a Ha) as [k H].
  destruct (scan_format_0d width b Hb) as [k' H'].
  rewrite E in H. congruence.
Qed.

Lemma append_inj_l (p a b : string) : (p ++ a = p ++ b)%string -> a = b.
Proof. induction p as [|c p IH]; cbn; [auto|]. intros [= E]. auto. Qed.

Lemma api_images_nth elements : forall image_counter k image,
  nth_error (api_images decodes elements image_counter) k = Some image ->
  ExtractedImage.image_id image
  = ("img_" ++ format_0d 4 (image_counter + Z.of_nat k))%string
  /\ ExtractedImage.filename image
     = (ExtractedImage.image_id image ++ ".png")%string
  /\ fresh image
  /\ exists element payload,
      In element elements /\ image_base64 element = Some payload
      /\ decodes payload = true
      /\ ExtractedImage.base64_data image = payload.
Proof.
  induction elements as [|element rest IH]; intros image_counter k image H;
    cbn [api_images] in H.
  - destruct k; discriminate.
  - assert (Hrest : forall c j,
               nth_error (api_images decodes rest c) j = Some image ->
               c + Z.of_nat j = image_counter + Z.of_nat k ->
               ExtractedImage.image_id image
               = ("img_" ++ format_0d 4 (image_counter + Z.of_nat k))%string
               /\ ExtractedImage.filename image
                  = (ExtractedImage.image_id image ++ ".png")%string
               /\ fresh image
               /\ exists element0 payload,
                   In element0 (element :: rest)
                   /\ image_base64 element0 = Some payload
                   /\ decodes payload = true
                   /\ ExtractedImage.base64_data image = payload).
    { intros c j Hj E. destruct (IH _ _ _ Hj) as (H1 & H2 & H3 & e & p & He & Hp).
      rewrite E in H1. repeat split; auto. exists e, p. cbn. tauto. }
    destruct (image_base64 element) as [payload|] eqn:Eb;
      [|now apply (Hrest image_counter k)].
    unfold extract_and_save_image in H. rewrite Eb in H.
    destruct (decodes payload) eqn:Ed; [|now apply (Hrest image_counter k)].
    destruct k as [|k]; cbn [nth_error] in H.
    + injection H as <-. cbn. rewrite Z.add_0_r. repeat split.
      exists element, payload. cbn. auto.
    + apply (Hrest (image_counter + 1) k H). lia.
Qed.

Lemma topics_from_nth images elements : forall topic_counter k topic,
  nth_error (topics_from _extract_subject elements images topic_counter) k
  = Some topic ->
  QuestionBlock.topic_id topic
  = Some ("topic_" ++ format_0d 4 (topic_counter + Z.of_nat k))%string
  /\ QuestionBlock.images topic = Some []
  /\ (50 <= String.length (strip (QuestionBlock.content topic)))%nat
  /\ exists element,
      In element elements
      /\ QuestionBlock.content topic = text element
      /\ QuestionBlock.page_number topic
         = match page_number element with Some p => p | None => 0 end.
Proof.
  induction elements as [|element rest IH]; intros topic_counter k topic H;
    cbn [topics_from] in H.
  - destruct k; discriminate.
  - assert (Hrest : forall c j,
               nth_error (topics_from _extract_subject rest images c) j
               = Some topic ->
               c + Z.of_nat j = topic_counter + Z.of_nat k ->
               QuestionBlock.topic_id topic
               = Some ("topic_" ++ format_0d 4 (topic_counter + Z.of_nat k))%string
               /\ QuestionBlock.images topic = Some []
               /\ (50 <= String.length (strip (QuestionBlock.content topic)))%nat
               /\ exists element0,
                   In element0 (element :: rest)
                   /\ QuestionBlock.content topic = text element0
                   /\ QuestionBlock.page_number topic
                      = match page_number element0 with
                        | Some p => p | None => 0 end).
    { intros c j Hj E. destruct (IH _ _ _ Hj) as (H1 & H2 & H3 & e & He & Hc).
      rewrite E in H1. repeat split; auto. exists e. cbn. tauto. }
    unfold topic_of in H.
    destruct (Nat.ltb_spec (String.length (strip (text element))) 50)
      as [Hshort|Hlong]; [now apply (Hrest topic_counter k)|].
    destruct k as [|k]; cbn [nth_error] in H.
    + injection H as <-. cbn. rewrite Z.add_0_r. repeat split; auto.
      exists element. cbn. auto.
    + apply (Hrest (topic_counter + 1) k H). lia.
Qed.

Lemma topics_from_length images elements : forall topic_counter,
  (List.length (topics_from _extract_subject elements images topic_counter)
   <= List.length elements)%nat.
Proof.
  induction elements as [|element rest IH]; intros c; cbn [topics_from List.length];
    [lia|].
  destruct (topic_of _ element images c); cbn [List.length].
  - specialize (IH (c + 1)). lia.
  - specialize (IH c). lia.
Qed.

Lemma topic_ids_NoDup elements images :
  NoDup (map QuestionBlock.topic_id
             (_elements_to_topics _extract_subject elements images)).
Proof.
  unfold _elements_to_topics. apply (proj2 (NoDup_nth_error _)).
  intros i j Hi E. rewrite length_map in Hi.
  rewrite !nth_error_map in E.
  destruct (nth_error (topics_from _ elements images 1) i) as [ti|] eqn:Ei.
  2: { apply nth_error_None in Ei. lia. }
  destruct (nth_error (topics_from _ elements images 1) j) as [tj|] eqn:Ej;
    [|discriminate].
  destruct (topics_from_nth _ _ _ _ _ Ei) as (Hi1 & _).
  destruct (topics_from_nth _ _ _ _ _ Ej) as (Hj1 & _).
  cbn [option_map] in E.
  assert (E' : ("topic_" ++ format_0d 4 (1 + Z.of_nat i)
                = "topic_" ++ format_0d 4 (1 + Z.of_nat j))%string)
    by congruence.
  apply append_inj_l, format_0d_inj in E'; lia.
Qed.

Lemma api_images_fresh elements image_counter :
  Forall fresh (api_images decodes elements image_counter).
Proof.
  apply Forall_forall. intros image Hin.
  destruct (In_nth_error _ _ Hin) as (k & Hk).
  now destruct (api_images_nth _ _ _ _ Hk) as (_ & _ & Hf & _).
Qed.

(** Distinct topic ids and fresh images give a consistent state. *)
Lemma fresh_images_give_consistency topics images :
  NoDup (map QuestionBlock.topic_id topics) ->
  Forall fresh images ->
  consistent (associate_images_with_topics topics images).
Proof.
  intros Hnd Hfresh. rewrite associate_closed_form.
  intros i image' tid Hi Hset. cbn [fst snd] in *.
  rewrite nth_error_map in Hi.
  destruct (nth_error images i) as [image|] eqn:Hn; [|discriminate].
  injection Hi as <-. rewrite final_last_assoc in Hset.
  assert (Hf : fresh image).
  { rewrite Forall_forall in Hfresh. apply Hfresh.
    eapply nth_error_In; eassumption. }
  destruct (last_assoc topics image) as [tid0|] eqn:Hl;
    [|cbn in Hset; unfold fresh in Hf; congruence].
  cbn in Hset. subst tid0.
  destruct (last_assoc_some _ _ _ Hl) as (k & topic & Hk & Hid & Ha & _).
  assert (Hheld : holds (QuestionBlock.set_images topic
                           (fst (scan_images topic 0 images))) i).
  { unfold holds. cbn. rewrite scan_images_refs, Nat.sub_0_r.
    exists image. repeat split; [lia | exact Hn | exact Ha]. }
  split.
  - exists (QuestionBlock.set_images topic (fst (scan_images topic 0 images))).
    split; [|exact Hid].
    apply in_map_iff. exists topic. split; [reflexivity|].
    eapply nth_error_In; eassumption.
  - intros topic' Hin Hid'.
    apply in_map_iff in Hin. destruct Hin as (t' & <- & Hin').
    cbn in Hid'.
    destruct (In_nth_error _ _ Hin') as (k' & Hk').
    assert (k' = k) as ->.
    { apply (proj1 (NoDup_nth_error _) Hnd).
      - rewrite length_map. apply nth_error_Some. congruence.
      - rewrite !nth_error_map, Hk, Hk'. cbn. congruence. }
    assert (t' = topic) as -> by congruence.
    exact Hheld.
Qed.

(** X28.  The topics that [_elements_to_topics] makes are numbered in order:
    the k-th topic carries the id [topic_] followed by k in at least
    four digits, so no two topics share an id.  Every topic is made of
    an element whose text, stripped, has at least 50 characters, keeps
    that text and the element's page (0 where it has none), and starts
    with an empty [images] list; there are never more topics than
    elements. *)
Theorem topics_are_numbered :
  forall elements images,
    let topics := _elements_to_topics _extract_subject elements images in
    (forall k topic,
        nth_error topics k = Some topic ->
        QuestionBlock.topic_id topic
        = Some ("topic_" ++ format_0d 4 (Z.of_nat k + 1))%string
        /\ QuestionBlock.images topic = Some []
        /\ (50 <= String.length (strip (QuestionBlock.content topic)))%nat
        /\ exists element,
            In element elements
            /\ QuestionBlock.content topic = text element
            /\ QuestionBlock.page_number topic
               = match page_number element with Some p => p | None => 0 end)
    /\ NoDup (map QuestionBlock.topic_id topics)
    /\ (List.length topics <= List.length elements)%nat.
Proof.
  intros elements images topics. subst topics. split; [|split].
  - intros k topic Hk. unfold _elements_to_topics in Hk.
    destruct (topics_from_nth _ _ _ _ _ Hk) as (H1 & H2).
    rewrite Z.add_comm in H1. auto.
  - apply topic_ids_NoDup.
  - apply topics_from_length.
Qed.

(** X27.  The images that the API loop collects are numbered in order: the
    k-th image carries the id [img_] followed by k in at least four
    digits and the file name made of that id, so no two images share a
    file; each stems from an element whose payload decoded, and each
    enters without a back-reference. *)
Theorem api_images_are_numbered :
  forall result_elements,
    let images := api_images decodes result_elements 1 in
    (forall k image,
        nth_error images k = Some image ->
        ExtractedImage.image_id image
        = ("img_" ++ format_0d 4 (Z.of_nat k + 1))%string
        /\ ExtractedImage.filename image
           = (ExtractedImage.image_id image ++ ".png")%string
        /\ ExtractedImage.associated_topic_id image = None
        /\ exists element payload,
            In element result_elements
            /\ image_base64 element = Some payload
            /\ decodes payload = true
            /\ ExtractedImage.base64_data image = payload)
    /\ NoDup (map ExtractedImage.filename images).
Proof.
  intros result_elements images. subst images. split.
  - intros k image Hk. destruct (api_images_nth _ _ _ _ Hk) as (H1 & H2).
    rewrite Z.add_comm in H1. auto.
  - apply (proj2 (NoDup_nth_error _)).
    intros i j Hi E. rewrite length_map in Hi. rewrite !nth_error_map in E.
    destruct (nth_error (api_images decodes result_elements 1) i) as [a|] eqn:Ei.
    2: { apply nth_error_None in Ei. lia. }
    destruct (nth_error (api_images decodes result_elements 1) j) as [b|] eqn:Ej;
      [|discriminate].
    destruct (api_images_nth _ _ _ _ Ei) as (Ha1 & Ha2 & _).
    destruct (api_images_nth _ _ _ _ Ej) as (Hb1 & Hb2 & _).
    cbn [option_map] in E.
    assert (E0 : (("img_" ++ format_0d 4 (1 + Z.of_nat i)) ++ ".png"
                  = ("img_" ++ format_0d 4 (1 + Z.of_nat j)) ++ ".png")%string)
      by congruence.
    clear E. rename E0 into E.
    rewrite !append_assoc in E.
    apply append_inj_l in E.
    assert (E' : format_0d 4 (1 + Z.of_nat i) = format_0d 4 (1 + Z.of_nat j)).
    { revert E.
      generalize (format_0d 4 (1 + Z.of_nat i)), (format_0d 4 (1 + Z.of_nat j)).
      intros s t E.
      assert (Hlen : String.length s = String.length t).
      { apply (f_equal String.length) in E. rewrite !length_append in E. lia. }
      revert t E Hlen.
      induction s as [|c s IH]; intros [|d t] E Hlen; try discriminate;
        [reflexivity|].
      cbn in E, Hlen. injection E as -> E. f_equal. apply IH; [exact E|lia]. }
    apply format_0d_inj in E'; lia.
Qed.

(** X29.  The state that [extract_content_with_images] returns is consistent
    for every answer of the API: an image's back-reference, where it is
    set, names a topic of the result, and the topic it names holds the
    image.  The images come back in the order they were collected. *)
Theorem extraction_result_is_consistent :
  forall result_elements elements,
    let st := extract_content_with_images decodes _extract_subject
                                          result_elements elements in
    consistent st
    /\ List.length (snd st) = List.length (api_images decodes result_elements 1)
    /\ List.length (fst st)
       = List.length (_elements_to_topics _extract_subject elements
                        (api_images decodes result_elements 1)).
Proof.
  intros result_elements elements st. subst st.
  unfold extract_content_with_images. split.
  - apply fresh_images_give_consistency;
      [apply topic_ids_NoDup|apply api_images_fresh].
  - rewrite associate_closed_form. cbn [fst snd]. now rewrite !length_map.
Qed.

End PipelineFacts.

(* end of further properties *)
